(** * videoDeal: a shallow embedding of [dVsmall5pro.py]

    The script walks a directory for video files and, for each of them,
    asks [ffprobe] for the bitrate, then runs [ffmpeg] either in stream-copy
    mode or in transcode mode while it reads the times that the encoder
    prints; the files are handled by a pool of four threads.

    Modelling conventions.
    - A Python [str] is a list of characters; a character is a code point
      below 256 (type [ascii]).  On that range the Unicode classes used by
      the script ([\d], [str.strip], [str.lower], the blanks of [float]) are
      written out in full.
    - A Python [float] is modelled with exact rational arithmetic on finite
      values (no rounding, no overflow, one zero), together with the two
      infinities and NaN that [float()] can read from a string.
    - [os.path] is [posixpath].
    - The external programs ([ffprobe], [ffmpeg]), the current directory and
      the directory tree are inputs of the model (record [world], type
      [os.node]).  An encoder is taken to end: the text on its diagnostic
      stream is finite.
    - A function that may raise returns an [outcome]; what it does to the
      outside (subprocesses, progress bars, prints) is logged as a list of
      [event]s.  A [tqdm] bar is its total and its position; what it draws
      is not modelled.
    - The runs of a batch are the interleavings of the event sequences of
      its futures; every event is atomic.  The bound of four workers only
      removes interleavings and is not modelled. *)

From Stdlib Require Import List Ascii Bool Arith NArith ZArith QArith Qreduction.
From Stdlib Require Import Qpower Lia Permutation.
From Stdlib Require Strings.Byte.
Import ListNotations.

Close Scope Q_scope.
Open Scope nat_scope.

(* ================================================================= *)
(** ** Python strings *)

Module Py.

Definition str := list ascii.

(** String literals for [str]. *)
Inductive lit := LNil | LCons (a : ascii) (l : lit).

Fixpoint lit_of_bytes (l : list Byte.byte) : lit :=
  match l with
  | [] => LNil
  | b :: l => LCons (ascii_of_byte b) (lit_of_bytes l)
  end.

Fixpoint bytes_of_lit (l : lit) : list Byte.byte :=
  match l with
  | LNil => []
  | LCons a l => byte_of_ascii a :: bytes_of_lit l
  end.

Declare Scope pystr_scope.
Delimit Scope pystr_scope with py.
#[warnings="-via-type-mismatch,-via-type-remapping"]
String Notation str lit_of_bytes bytes_of_lit
  (via lit mapping [[nil] => LNil, [cons] => LCons]) : pystr_scope.

Definition ord (c : ascii) : N := N_of_ascii c.
Definition chr (n : N) : ascii := ascii_of_N n.

Definition char_eqb (a b : ascii) : bool := Ascii.eqb a b.

Definition str_eqb (a b : str) : bool :=
  if list_eq_dec ascii_dec a b then true else false.

(** [str.isdecimal] on one character, which is what [\d] matches and what
    [float] reads as a digit: Unicode category Nd.  Below code point 256
    these are the ASCII digits. *)
Definition isdecimal (c : ascii) : bool :=
  ((48 <=? ord c) && (ord c <=? 57))%N.

(** [str.isspace] below code point 256. *)
Definition isspace (c : ascii) : bool :=
  let n := ord c in
  (((9 <=? n) && (n <=? 13)) || ((28 <=? n) && (n <=? 32))
   || (n =? 133) || (n =? 160))%N.

(** [str.lower] on one character, below code point 256. *)
Definition lower_char (c : ascii) : ascii :=
  let n := ord c in
  if ((65 <=? n) && (n <=? 90))%N then chr (n + 32)
  else if ((192 <=? n) && (n <=? 222) && negb (n =? 215))%N then chr (n + 32)
  else c.

Definition lower (s : str) : str := map lower_char s.

(** [s.startswith(p)] *)
Fixpoint startswith (s p : str) {struct p} : bool :=
  match p, s with
  | [], _ => true
  | b :: p', a :: s' => char_eqb a b && startswith s' p'
  | _ :: _, [] => false
  end.

(** [s.endswith(p)] *)
Definition endswith (s p : str) : bool := startswith (rev s) (rev p).

(** [s.endswith(ps)] for a tuple [ps] of suffixes. *)
Definition endswith_any (s : str) (ps : list str) : bool :=
  existsb (endswith s) ps.

(** [p in s] *)
Fixpoint contains (s p : str) : bool :=
  startswith s p ||
  match s with
  | [] => false
  | _ :: s' => contains s' p
  end.

(** Dropping the leading characters that satisfy [f]; both ends. *)
Fixpoint lstrip_by (f : ascii -> bool) (s : str) : str :=
  match s with
  | c :: s' => if f c then lstrip_by f s' else s
  | [] => []
  end.

Definition strip_by (f : ascii -> bool) (s : str) : str :=
  rev (lstrip_by f (rev (lstrip_by f s))).

(** [s.strip()] *)
Definition strip (s : str) : str := strip_by isspace s.

(** [s.split(sep)] for a one-character separator. *)
Fixpoint split (sep : ascii) (s : str) : list str :=
  match s with
  | [] => [[]]
  | c :: s' =>
      if char_eqb c sep then [] :: split sep s'
      else match split sep s' with
           | w :: ws => (c :: w) :: ws
           | [] => [[c]]
           end
  end.

(** [sep.join(ws)] *)
Fixpoint join (sep : str) (ws : list str) : str :=
  match ws with
  | [] => []
  | [w] => w
  | w :: ws' => w ++ sep ++ join sep ws'
  end.

(** [s.rfind(c) + 1] for a character [c]: the length of the shortest prefix
    of [s] that contains every occurrence of [c]. *)
Fixpoint after_last (c : ascii) (s : str) : nat :=
  match s with
  | [] => 0
  | a :: s' =>
      match after_last c s' with
      | 0 => if char_eqb a c then 1 else 0
      | S k => S (S k)
      end
  end.

Definition LF : ascii := chr 10.
Definition CR : ascii := chr 13.

(** Text-mode reading with universal newlines: CR LF and CR become LF. *)
Fixpoint universal_newlines (s : str) : str :=
  match s with
  | [] => []
  | c :: s' =>
      if char_eqb c CR then
        match s' with
        | d :: s'' => if char_eqb d LF then LF :: universal_newlines s''
                      else LF :: universal_newlines s'
        | [] => [LF]
        end
      else c :: universal_newlines s'
  end.

(** The successive results of [readline()] up to the end of the stream:
    each line keeps its final LF; the last one may lack it; none is empty. *)
Fixpoint readlines (s : str) : list str :=
  match s with
  | [] => []
  | c :: s' =>
      if char_eqb c LF then [c] :: readlines s'
      else match readlines s' with
           | l :: ls => (c :: l) :: ls
           | [] => [[c]]
           end
  end.

(* ----------------------------------------------------------------- *)
(** *** Python floats *)

(** Finite values are exact rationals in lowest terms. *)
Inductive pyfloat :=
| Fin (q : Q)
| Inf (negative : bool)
| NaN.

Definition fin (q : Q) : pyfloat := Fin (Qred q).

(** The float of an integer literal. *)
Definition of_Z (z : Z) : pyfloat := fin (inject_Z z).

Definition fneg (x : pyfloat) : pyfloat :=
  match x with
  | Fin q => fin (- q)
  | Inf s => Inf (negb s)
  | NaN => NaN
  end.

(** [x + y] *)
Definition fadd (x y : pyfloat) : pyfloat :=
  match x, y with
  | NaN, _ | _, NaN => NaN
  | Fin p, Fin q => fin (p + q)
  | Inf s, Fin _ | Fin _, Inf s => Inf s
  | Inf s, Inf t => if Bool.eqb s t then Inf s else NaN
  end.

(** [x - y] *)
Definition fsub (x y : pyfloat) : pyfloat := fadd x (fneg y).

Definition Qneg_bool (q : Q) : bool := negb (Qle_bool 0 q).
Definition Qzero_bool (q : Q) : bool := Qeq_bool q 0.

(** [x * y] *)
Definition fmul (x y : pyfloat) : pyfloat :=
  match x, y with
  | NaN, _ | _, NaN => NaN
  | Fin p, Fin q => fin (p * q)
  | Inf s, Fin q | Fin q, Inf s =>
      if Qzero_bool q then NaN else Inf (xorb s (Qneg_bool q))
  | Inf s, Inf t => Inf (xorb s t)
  end.

(** [x / y]; [None] stands for [ZeroDivisionError]. *)
Definition fdiv (x y : pyfloat) : option pyfloat :=
  match x, y with
  | _, Fin q =>
      if Qzero_bool q then None
      else Some match x with
                | Fin p => fin (p / q)
                | Inf s => Inf (xorb s (Qneg_bool q))
                | NaN => NaN
                end
  | NaN, _ | _, NaN => Some NaN
  | Fin _, Inf _ => Some (Fin 0)
  | Inf _, Inf _ => Some NaN
  end.

(** [x <= y] *)
Definition fle (x y : pyfloat) : bool :=
  match x, y with
  | NaN, _ | _, NaN => false
  | Fin p, Fin q => Qle_bool p q
  | Inf s, Inf t => s || negb t
  | Inf s, Fin _ => s
  | Fin _, Inf t => negb t
  end.

(** [x < y] *)
Definition flt (x y : pyfloat) : bool :=
  match x, y with
  | NaN, _ | _, NaN => false
  | Fin p, Fin q => negb (Qle_bool q p)
  | Inf s, Inf t => s && negb t
  | Inf s, Fin _ => s
  | Fin _, Inf t => negb t
  end.

(** [x > y] *)
Definition fgt (x y : pyfloat) : bool := flt y x.

(* ----------------------------------------------------------------- *)
(** *** [float(s)] for a string [s] *)

Definition digit_value (c : ascii) : Z := Z.of_N (ord c) - 48.

Definition int_of_digits (ds : str) : Z :=
  fold_left (fun acc c => 10 * acc + digit_value c)%Z ds 0%Z.

(** The longest prefix of digits, and the rest. *)
Fixpoint span_digits (s : str) : str * str :=
  match s with
  | c :: s' =>
      if isdecimal c then let (ds, r) := span_digits s' in (c :: ds, r)
      else ([], s)
  | [] => ([], [])
  end.

(** Underscores may only stand between two digits; they are dropped.
    [prev] is the character before [s]. *)
Fixpoint drop_underscores (prev : ascii) (s : str) : option str :=
  match s with
  | [] => if char_eqb prev "_" then None else Some []
  | c :: s' =>
      if char_eqb c "_" then
        if isdecimal prev then drop_underscores c s' else None
      else if char_eqb prev "_" && negb (isdecimal c) then None
      else option_map (cons c) (drop_underscores c s')
  end.

(** An optional sign: whether it is a minus, and the rest. *)
Definition split_sign (s : str) : bool * str :=
  match s with
  | c :: s' =>
      if char_eqb c "-" then (true, s')
      else if char_eqb c "+" then (false, s')
      else (false, s)
  | [] => (false, [])
  end.

Definition is_exponent_mark (c : ascii) : bool :=
  char_eqb c "e" || char_eqb c "E".

(** [digits [. digits] [(e|E) [sign] digits]] with at least one digit before
    the exponent; the value is exact. *)
Definition parse_number (s : str) : option Q :=
  let (ip, r1) := span_digits s in
  let (fp, r2) :=
    match r1 with
    | c :: r => if char_eqb c "." then span_digits r else ([], r1)
    | [] => ([], r1)
    end in
  match ip ++ fp with
  | [] => None
  | _ :: _ =>
      let mant := int_of_digits (ip ++ fp) in
      let scale := (- Z.of_nat (length fp))%Z in
      match r2 with
      | [] => Some (inject_Z mant * Qpower 10 scale)%Q
      | e :: r3 =>
          if is_exponent_mark e then
            let (neg, r4) := split_sign r3 in
            match span_digits r4 with
            | ((_ :: _) as ep, []) =>
                let ex := int_of_digits ep in
                let ex := if neg then (- ex)%Z else ex in
                Some (inject_Z mant * Qpower 10 (ex + scale))%Q
            | _ => None
            end
          else None
      end
  end.

(** The blanks that [float] drops at both ends of its argument: of the
    characters of [str.isspace], the ASCII ones must be in [\t\n\v\f\r] or
    be the space. *)
Definition float_blank (c : ascii) : bool :=
  let n := ord c in
  (((9 <=? n) && (n <=? 13)) || (n =? 32) || (n =? 133) || (n =? 160))%N.

(** [float(s)]: [None] stands for [ValueError]. *)
Definition float (s : str) : option pyfloat :=
  match drop_underscores (chr 0) (strip_by float_blank s) with
  | None => None
  | Some t =>
      let (neg, body) := split_sign t in
      let l := lower body in
      if str_eqb l "inf"%py || str_eqb l "infinity"%py then Some (Inf neg)
      else if str_eqb l "nan"%py then Some NaN
      else match parse_number body with
           | Some q => Some (fin (if neg then - q else q))
           | None => None
           end
  end.

End Py.

(* ================================================================= *)
(** ** Regular expressions: the fragment of [re] that the script uses *)

Module re.
Import Py.

Inductive regex :=
| Str (s : str)          (** literal text *)
| Chr (c : ascii)        (** one literal character *)
| Digit                  (** [\d] *)
| Dot                    (** [.]: any character but a line feed *)
| Seq (r1 r2 : regex)    (** [r1 r2] *)
| Plus (r : regex)       (** [r+], greedy *)
| Group (r : regex).     (** [(r)], the capture group 1 *)

Section Matcher.

Variable R : Type.

(** What is tried after a sub-pattern matched: it gets the text captured so
    far and the input that is left. *)
Definition cont := option str -> str -> option R.

(** The iterations of [r+] after the first character of [s]: [body] matches
    [r] once; then one more iteration is preferred to going on with [k].
    Every iteration consumes input, so [length s] iterations are enough. *)
Fixpoint plus_loop (body : option str -> str -> cont -> option R) (k : cont)
    (fuel : nat) (g : option str) (s : str) : option R :=
  body g s (fun g' s' =>
    match fuel with
    | S fuel' =>
        if length s' <? length s then
          match plus_loop body k fuel' g' s' with
          | Some x => Some x
          | None => k g' s'
          end
        else k g' s'
    | 0 => k g' s'
    end).

(** A backtracking matcher.  [attempt r g s k] matches [r] at the start of [s]
    in every possible way, the preferred way first, until [k] accepts. *)
Fixpoint attempt (r : regex) (g : option str) (s : str) (k : cont) : option R :=
  match r with
  | Str p => if startswith s p then k g (skipn (length p) s) else None
  | Chr c =>
      match s with
      | a :: s' => if char_eqb a c then k g s' else None
      | [] => None
      end
  | Digit =>
      match s with
      | a :: s' => if isdecimal a then k g s' else None
      | [] => None
      end
  | Dot =>
      match s with
      | a :: s' => if char_eqb a LF then None else k g s'
      | [] => None
      end
  | Seq r1 r2 => attempt r1 g s (fun g' s' => attempt r2 g' s' k)
  | Plus r1 => plus_loop (attempt r1) k (length s) g s
  | Group r1 =>
      attempt r1 g s (fun _ s' => k (Some (firstn (length s - length s') s)) s')
  end.

End Matcher.

Arguments plus_loop {R} body k fuel g s.
Arguments attempt {R} r g s k.

(** [re.match(r, s)]: group 1 of the match of [r] at the start of [s].
    (Every match of the pattern used below sets group 1.) *)
Definition match_ (r : regex) (s : str) : option str :=
  attempt r None s (fun g _ => g).

(** [re.search(r, s)]: group 1 of the leftmost match of [r] in [s]. *)
Fixpoint search (r : regex) (s : str) : option str :=
  match match_ r s with
  | Some g => Some g
  | None =>
      match s with
      | [] => None
      | _ :: s' => search r s'
      end
  end.

End re.

(* ================================================================= *)
(** ** [os.path] (the POSIX flavour) and [os.walk] *)

Module posixpath.
Import Py.
Local Open Scope pystr_scope.

Definition sep : ascii := "/".
Definition extsep : ascii := ".".

(** [isabs(p)] *)
Definition isabs (p : str) : bool := startswith p [sep].

(** [basename(p)]: what follows the last separator. *)
Definition basename (p : str) : str := skipn (after_last sep p) p.

(** [splitext(p)]: the extension starts at the last dot of the last
    component, unless only dots precede it there. *)
Definition splitext (p : str) : str * str :=
  let filenameIndex := after_last sep p in
  let afterDot := after_last extsep p in
  if (filenameIndex <? afterDot) &&
     existsb (fun c => negb (char_eqb c extsep))
             (firstn (afterDot - 1 - filenameIndex) (skipn filenameIndex p))
  then (firstn (afterDot - 1) p, skipn (afterDot - 1) p)
  else (p, []).

(** [join(a, b)] *)
Definition join (a b : str) : str :=
  if startswith b [sep] then b
  else if match a with [] => true | _ => endswith a [sep] end then a ++ b
  else a ++ [sep] ++ b.

(** The loop of [normpath] over the components; [new_comps] is kept with
    its last element first. *)
Fixpoint norm_comps (initial_slashes : nat) (comps new_comps : list str) : list str :=
  match comps with
  | [] => new_comps
  | comp :: comps' =>
      if str_eqb comp "" || str_eqb comp "." then
        norm_comps initial_slashes comps' new_comps
      else if negb (str_eqb comp "..")
           || ((initial_slashes =? 0) && match new_comps with [] => true | _ => false end)
           || match new_comps with last :: _ => str_eqb last ".." | [] => false end
      then norm_comps initial_slashes comps' (comp :: new_comps)
      else match new_comps with
           | _ :: popped => norm_comps initial_slashes comps' popped
           | [] => norm_comps initial_slashes comps' new_comps
           end
  end.

(** [normpath(path)] *)
Definition normpath (path : str) : str :=
  match path with
  | [] => "."
  | _ =>
      let initial_slashes :=
        if startswith path "/" then
          if startswith path "//" && negb (startswith path "///") then 2 else 1
        else 0 in
      let comps := rev (norm_comps initial_slashes (split sep path) []) in
      let path := Py.join [sep] comps in
      let path := repeat sep initial_slashes ++ path in
      match path with
      | [] => "."
      | _ => path
      end
  end.

(** [abspath(path)], with the current directory [cwd]. *)
Definition abspath (cwd path : str) : str :=
  normpath (if isabs path then path else join cwd path).

End posixpath.

Module os.
Import Py.

(** What [os.walk] sees of a directory tree.  Every entry carries its name;
    a directory lists its entries; [is_link] marks a directory reached
    through a symbolic link.  Anything that is not a directory is a [File]. *)
#[warnings="-register-all"]
Inductive node :=
| File (name : str)
| Dir (name : str) (is_link : bool) (entries : list node).

Definition name_of (n : node) : str :=
  match n with
  | File name => name
  | Dir name _ _ => name
  end.

Definition is_dir (n : node) : bool :=
  match n with
  | Dir _ _ _ => true
  | File _ => false
  end.

Definition dirnames (entries : list node) : list str :=
  map name_of (filter is_dir entries).

Definition filenames (entries : list node) : list str :=
  map name_of (filter (fun e => negb (is_dir e)) entries).

(** [os.walk(top)] with its defaults (top-down, links to directories listed
    but not followed, errors ignored): the triples it yields, in order.
    The name that [n] carries is not used: [top] is the path given to
    [os.walk].  A [top] that is not a directory yields nothing. *)
Fixpoint walk (top : str) (n : node) : list (str * list str * list str) :=
  match n with
  | File _ => []
  | Dir _ _ entries =>
      (top, dirnames entries, filenames entries) ::
      flat_map (fun e =>
                  match e with
                  | Dir name false _ => walk (posixpath.join top name) e
                  | _ => []
                  end) entries
  end.

End os.

(* ================================================================= *)
(** ** Effects: exceptions, events, the outside world *)

Import Py.
Local Open Scope pystr_scope.

Inductive exn :=
| FileNotFoundError      (** the program to run does not exist *)
| ValueError             (** [float()] of a bad string; unpacking a wrong count *)
| ZeroDivisionError.

Inductive outcome (A : Type) :=
| Return (a : A)
| Raise (e : exn).

Arguments Return {A} a.
Arguments Raise {A} e.

(** What the script prints. *)
Inductive message :=
| LowBitrate (name : str)       (** the notice that [name] is only converted *)
| ErrorProcessing (e : exn).    (** ["Error processing file: {e}"] *)

(** The progress bars: one per converted file, one for the batch. *)
Inductive bar :=
| FileBar (input_file : str)
| BatchBar.

Definition bar_eqb (a b : bar) : bool :=
  match a, b with
  | FileBar x, FileBar y => str_eqb x y
  | BatchBar, BatchBar => true
  | _, _ => false
  end.

Inductive event :=
| EvRun (cmd : list str)                          (** [subprocess.run(cmd)] *)
| EvPopen (cmd : list str)                        (** [subprocess.Popen(cmd)] *)
| EvPrint (m : message)                           (** [print] *)
| EvBarNew (b : bar) (desc : str) (total : pyfloat)   (** [tqdm(total, desc)] *)
| EvBarUpdate (b : bar) (delta : pyfloat)         (** [b.update(delta)] *)
| EvBarDesc (b : bar) (desc : str)                (** [b.set_description(desc)] *)
| EvBarClose (b : bar)                            (** [b.close()] *)
| EvCommunicate (cmd : list str) (status : Z).    (** [process.communicate()] *)

(** The external programs and the current directory.
    [subprocess_run cmd] is [None] when the program cannot be started, and
    else the exit status and the decoded standard output of [cmd];
    [subprocess_Popen cmd] is [None] when the program cannot be started, and
    else the decoded text the process writes on its diagnostic stream until
    it closes it, and its exit status. *)
Record world := {
  getcwd : str;
  subprocess_run : list str -> option (Z * str);
  subprocess_Popen : list str -> option (str * Z)
}.

(** A process started with [Popen]: its command, the text that it writes
    on its diagnostic stream, and the exit status that it ends with. *)
Record process := {
  args : list str;
  stderr_text : str;
  returncode : Z
}.

(** A computation logs events and returns or raises. *)
Definition task (A : Type) : Type := list event * outcome A.

Definition ret {A} (a : A) : task A := ([], Return a).
Definition raise {A} (e : exn) : task A := ([], Raise e).
Definition emit (ev : event) : task unit := ([ev], Return tt).

Definition bind {A B} (m : task A) (f : A -> task B) : task B :=
  match m with
  | (evs, Return a) => let (evs', r) := f a in (evs ++ evs', r)
  | (evs, Raise e) => (evs, Raise e)
  end.

Declare Scope task_scope.
Delimit Scope task_scope with task.
Notation "x <- m ;; k" := (bind m (fun x => k))
  (at level 61, m at next level, right associativity) : task_scope.
Notation "m ;; k" := (bind m (fun _ => k))
  (at level 61, right associativity) : task_scope.
Local Open Scope task_scope.

Definition events {A} (t : task A) : list event := fst t.
Definition result {A} (t : task A) : outcome A := snd t.

(** [tqdm]: a bar, its total and its position [n]. *)
Record tqdm := {
  bar_of : bar;
  total : pyfloat;
  n : pyfloat
}.

Definition tqdm_new (b : bar) (desc : str) (tot : pyfloat) : task tqdm :=
  emit (EvBarNew b desc tot) ;;
  ret {| bar_of := b; total := tot; n := of_Z 0 |}.

(** [p.update(delta)] adds [delta] to [p.n], whatever its sign. *)
Definition update (p : tqdm) (delta : pyfloat) : task tqdm :=
  emit (EvBarUpdate (bar_of p) delta) ;;
  ret {| bar_of := bar_of p; total := total p; n := fadd (n p) delta |}.

Definition set_description (p : tqdm) (desc : str) : task unit :=
  emit (EvBarDesc (bar_of p) desc).

Definition close (p : tqdm) : task unit := emit (EvBarClose (bar_of p)).

(** The truth value of an optional bar, as in [if pbar:].  [None] is false;
    [tqdm] defines the truth value of a bar that has a total as
    [total > 0]. *)
Definition truthy (pbar : option tqdm) : bool :=
  match pbar with
  | Some p => fgt (total p) (of_Z 0)
  | None => false
  end.

(** [float(s)] as a computation. *)
Definition to_float (s : str) : task pyfloat :=
  match float s with
  | Some x => ret x
  | None => raise ValueError
  end.

(** [x / y] as a computation. *)
Definition divide (x y : pyfloat) : task pyfloat :=
  match fdiv x y with
  | Some z => ret z
  | None => raise ZeroDivisionError
  end.

(** [time=(\d+:\d+:\d+.\d+)] *)
Definition time_re : re.regex :=
  re.Seq (re.Str "time=")
    (re.Group
       (re.Seq (re.Plus re.Digit) (re.Seq (re.Chr ":")
       (re.Seq (re.Plus re.Digit) (re.Seq (re.Chr ":")
       (re.Seq (re.Plus re.Digit) (re.Seq re.Dot (re.Plus re.Digit)))))))).

(* ================================================================= *)
(** ** The script *)

Section Script.

Variable w : world.

(** [subprocess.run(cmd, capture_output=True, ...)]: the exit status is
    kept in the result and no exception is raised for it. *)
Definition run (cmd : list str) : task (Z * str) :=
  emit (EvRun cmd) ;;
  match subprocess_run w cmd with
  | Some r => ret r
  | None => raise FileNotFoundError
  end.

(** [subprocess.Popen(cmd, stderr=subprocess.PIPE, ...)] *)
Definition Popen (cmd : list str) : task process :=
  emit (EvPopen cmd) ;;
  match subprocess_Popen w cmd with
  | Some (text, status) =>
      ret {| args := cmd; stderr_text := text; returncode := status |}
  | None => raise FileNotFoundError
  end.

(** [process.communicate()]: waits for the process to end. *)
Definition communicate (p : process) : task unit :=
  emit (EvCommunicate (args p) (returncode p)).

(** The lines that [process.stderr.readline()] returns, one after the
    other, until it returns the empty string. *)
Definition stderr_lines (p : process) : list str :=
  readlines (universal_newlines (stderr_text p)).

Definition check_gpu_support : task bool :=
  result <- run ["ffmpeg"; "-hide_banner"; "-hwaccels"] ;;
  ret (contains (lower (snd result)) "cuda").

Definition get_video_duration (input_file : str) : task pyfloat :=
  let cmd := ["ffprobe"; "-v"; "error"; "-show_entries"; "format=duration";
              "-of"; "default=noprint_wrappers=1:nokey=1"; input_file] in
  result <- run cmd ;;
  to_float (strip (snd result)).

Definition get_video_bitrate (input_file : str) : task pyfloat :=
  let cmd := ["ffprobe"; "-v"; "error"; "-show_entries"; "format=bit_rate";
              "-of"; "default=noprint_wrappers=1:nokey=1"; input_file] in
  result <- run cmd ;;
  x <- to_float (strip (snd result)) ;;
  divide x (of_Z 1000).

(** [h, m, s = map(float, time_str.split(':'))] and
    [current_time = h * 3600 + m * 60 + s] *)
Definition current_time_of (time_str : str) : task pyfloat :=
  match map float (split ":" time_str) with
  | [Some h; Some m; Some s] =>
      ret (fadd (fadd (fmul h (of_Z 3600)) (fmul m (of_Z 60))) s)
  | _ => raise ValueError
  end.

(** The body of the reading loop for one line. *)
Definition on_line (line : str) (progress : tqdm) : task tqdm :=
  if contains line "time=" then
    match re.search time_re line with
    | Some time_str =>
        current_time <- current_time_of time_str ;;
        progress' <- update progress (fsub current_time (n progress)) ;;
        set_description progress' ("Processing time: " ++ time_str) ;;
        ret progress'
    | None => ret progress
    end
  else ret progress.

(** The reading loop of [copy_video] and of [compress_video]. *)
Fixpoint read_progress (lines : list str) (progress : tqdm) : task tqdm :=
  match lines with
  | [] => ret progress
  | line :: lines' =>
      progress' <- on_line line progress ;;
      read_progress lines' progress'
  end.

Definition copy_video (input_file output_file : str) (pbar : option tqdm) : task unit :=
  let cmd := ["ffmpeg"; "-i"; input_file; "-c"; "copy"; output_file] in
  process <- Popen cmd ;;
  total_duration <- get_video_duration input_file ;;
  progress <- tqdm_new (FileBar input_file)
                ("Copying and converting to MP4 " ++ posixpath.basename input_file)
                total_duration ;;
  progress <- read_progress (stderr_lines process) progress ;;
  close progress ;;
  communicate process ;;
  if truthy pbar
  then match pbar with
       | Some p => _ <- update p (of_Z 1) ;; ret tt
       | None => ret tt
       end
  else ret tt.

Definition compress_video (input_file output_file : str) (use_gpu : bool)
    (pbar : option tqdm) : task unit :=
  let encoder := if use_gpu then "h264_nvenc" else "libx264" in
  let cmd := ["ffmpeg"; "-i"; input_file; "-vf"; "scale=-1:720"; "-c:v"; encoder;
              "-crf"; "32"; "-b:v"; "1000k"; output_file] in
  process <- Popen cmd ;;
  total_duration <- get_video_duration input_file ;;
  progress <- tqdm_new (FileBar input_file)
                ("Compressing " ++ posixpath.basename input_file)
                total_duration ;;
  progress <- read_progress (stderr_lines process) progress ;;
  close progress ;;
  communicate process ;;
  if truthy pbar
  then match pbar with
       | Some p => _ <- update p (of_Z 1) ;; ret tt
       | None => ret tt
       end
  else ret tt.

Definition copy_or_compress_video (input_file output_file : str) (use_gpu : bool)
    (pbar : option tqdm) : task unit :=
  bitrate <- get_video_bitrate input_file ;;
  if fle bitrate (of_Z 1000) then
    emit (EvPrint (LowBitrate (posixpath.basename input_file))) ;;
    copy_video input_file output_file pbar
  else
    compress_video input_file output_file use_gpu pbar.

Definition extensions : list str := [".mp4"; ".avi"; ".mov"; ".mkv"; ".ts"].

(** The inner loop of [get_all_files] over the file names of one directory. *)
Definition files_in (root : str) (filenames : list str) : list str :=
  map (posixpath.join root)
      (filter (fun filename => endswith_any (lower filename) extensions) filenames).

(** [get_all_files(directory)], where [tree] is what is found at [directory]. *)
Definition get_all_files (tree : os.node) (directory : str) : list str :=
  flat_map (fun '(root, _, filenames) => files_in root filenames)
           (os.walk directory tree).

(** The batch bar made by [process_videos]. *)
Definition batch_bar (files : list str) : tqdm :=
  {| bar_of := BatchBar; total := of_Z (Z.of_nat (length files)); n := of_Z 0 |}.

(** The two paths that the submitting loop computes for [file]. *)
Definition paths_of (output_dir file : str) : str * str :=
  let file := posixpath.abspath (getcwd w) file in
  let output_file :=
    posixpath.join output_dir
      (posixpath.basename (fst (posixpath.splitext file) ++ "_s.mp4")) in
  (file, output_file).

(** The task submitted for [file]. *)
Definition submit (pbar : tqdm) (output_dir : str) (use_gpu : bool) (file : str)
    : task unit :=
  let (file, output_file) := paths_of output_dir file in
  copy_or_compress_video file output_file use_gpu (Some pbar).

(** The futures that [process_videos] submits, in order. *)
Definition futures (files : list str) (output_dir : str) (use_gpu : bool)
    : list (task unit) :=
  map (submit (batch_bar files) output_dir use_gpu) files.

(** What one future contributes to the run: the events of its task,
    followed by the report of the main thread if the task raised. *)
Definition future_events (t : task unit) : list event :=
  events t ++
  match result t with
  | Raise e => [EvPrint (ErrorProcessing e)]
  | Return _ => []
  end.

End Script.

(** The interleavings of several event sequences: each sequence keeps its
    order, and they are merged in any way. *)
Inductive interleave {A : Type} : list (list A) -> list A -> Prop :=
| interleave_done ls :
    Forall (fun l => l = []) ls -> interleave ls []
| interleave_step l1 x t l2 tr :
    interleave (l1 ++ t :: l2) tr ->
    interleave (l1 ++ (x :: t) :: l2) (x :: tr).

(** [in_order l tr]: the elements of [l] occur in [tr], in the order of [l]. *)
Inductive in_order {A : Type} : list A -> list A -> Prop :=
| in_order_nil tr : in_order [] tr
| in_order_keep x l tr : in_order l tr -> in_order (x :: l) (x :: tr)
| in_order_skip x l tr : in_order l tr -> in_order l (x :: tr).

(** [process_videos(files, output_dir, use_gpu)]: the traces that the batch
    can leave, whatever the pool's scheduling. *)
Definition process_videos (w : world) (files : list str) (output_dir : str)
    (use_gpu : bool) (tr : list event) : Prop :=
  exists body,
    interleave (map future_events (futures w files output_dir use_gpu)) body /\
    tr = EvBarNew BatchBar "Processing videos"
           (of_Z (Z.of_nat (length files))) :: body ++ [EvBarClose BatchBar].

(** One of these traces: every future runs to its end, and is reported,
    before the next one starts. *)
Definition process_videos_serial (w : world) (files : list str) (output_dir : str)
    (use_gpu : bool) : list event :=
  EvBarNew BatchBar "Processing videos" (of_Z (Z.of_nat (length files))) ::
  concat (map future_events (futures w files output_dir use_gpu)) ++
  [EvBarClose BatchBar].

(** The position of bar [b] after the trace [tr]: the sum of the updates. *)
Definition bar_n (b : bar) (tr : list event) : pyfloat :=
  fold_left (fun acc ev =>
               match ev with
               | EvBarUpdate b' delta =>
                   if bar_eqb b b' then fadd acc delta else acc
               | _ => acc
               end) tr (of_Z 0).

(** The positions that bar [b] shows, one per update, from position [acc]. *)
Fixpoint positions (b : bar) (acc : pyfloat) (tr : list event) : list pyfloat :=
  match tr with
  | [] => []
  | EvBarUpdate b' delta :: tr' =>
      if bar_eqb b b'
      then fadd acc delta :: positions b (fadd acc delta) tr'
      else positions b acc tr'
  | _ :: tr' => positions b acc tr'
  end.


(** The commands started with [Popen] in a trace. *)
Definition launched (tr : list event) : list (list str) :=
  flat_map (fun ev => match ev with EvPopen cmd => [cmd] | _ => [] end) tr.

(** The errors reported in a trace. *)
Definition reported (tr : list event) : list exn :=
  flat_map (fun ev =>
              match ev with
              | EvPrint (ErrorProcessing e) => [e]
              | _ => []
              end) tr.

(* ================================================================= *)
(** ** Notions used in the statements *)

(** The language of a pattern, with the capture: [re_matches r g p g'] says
    that [r] matches exactly the text [p], and that group 1 holds [g'] after
    the match if it held [g] before. *)
Inductive re_matches : re.regex -> option str -> str -> option str -> Prop :=
| M_str p g : re_matches (re.Str p) g p g
| M_chr c g : re_matches (re.Chr c) g [c] g
| M_digit c g : isdecimal c = true -> re_matches re.Digit g [c] g
| M_dot c g : char_eqb c LF = false -> re_matches re.Dot g [c] g
| M_seq r1 r2 g g1 g2 p1 p2 :
    re_matches r1 g p1 g1 -> re_matches r2 g1 p2 g2 ->
    re_matches (re.Seq r1 r2) g (p1 ++ p2) g2
| M_plus_one r g p g' :
    re_matches r g p g' -> re_matches (re.Plus r) g p g'
| M_plus_more r g p1 g1 p2 g2 :
    re_matches r g p1 g1 -> re_matches (re.Plus r) g1 p2 g2 ->
    re_matches (re.Plus r) g (p1 ++ p2) g2
| M_group r g p g' :
    re_matches r g p g' -> re_matches (re.Group r) g p (Some p).

(** What it means for a matching function to be sound for the pattern [r]:
    when it succeeds, it has cut the input into a match of [r] and a rest
    that the continuation accepted. *)
Definition sound_for (R : Type) (r : re.regex)
    (body : option str -> str -> re.cont R -> option R) : Prop :=
  forall g s k x,
    body g s k = Some x ->
    exists p rest g', s = p ++ rest /\ re_matches r g p g' /\ k g' rest = Some x.

(** A character of a number: a digit or the dot. *)
Definition numeric (c : ascii) : bool := isdecimal c || char_eqb c ".".

(** A non-empty run of digits. *)
Definition digits (s : str) : Prop := s <> [] /\ forallb isdecimal s = true.


(** [filename] ends, whatever the case of its letters, with one of the
    recognised extensions. *)
Definition has_video_extension (filename : str) : Prop :=
  exists ext pre suf,
    In ext extensions /\ filename = pre ++ suf /\ lower suf = ext.

(** [file_under top tree root filename]: in the tree [tree] found at path
    [top], the directory of path [root] is reached without going through a
    link, and it holds the file [filename]. *)
Inductive file_under : str -> os.node -> str -> str -> Prop :=
| file_here top name l entries filename :
    In (os.File filename) entries ->
    file_under top (os.Dir name l entries) top filename
| file_below top name l entries sub subentries root filename :
    In (os.Dir sub false subentries) entries ->
    file_under (posixpath.join top sub) (os.Dir sub false subentries) root filename ->
    file_under top (os.Dir name l entries) root filename.

(** A name that a directory entry can bear: not empty, without separator,
    and neither [.] nor [..]. *)
Definition entry_name (name : str) : Prop :=
  name <> [] /\ ~ In posixpath.sep name /\ name <> "." /\ name <> "..".

(** [name] is the last component of the path [p]. *)
Definition last_component (p name : str) : Prop :=
  p = name \/ exists p0, p = p0 ++ posixpath.sep :: name.

(** The updates of the batch bar in a trace. *)
Definition batch_updates (tr : list event) : list pyfloat :=
  flat_map (fun ev =>
              match ev with
              | EvBarUpdate BatchBar delta => [delta]
              | _ => []
              end) tr.

(** How many of the tasks returned, and how many raised. *)
Definition returned (ts : list (task unit)) : nat :=
  length (filter (fun t => match result t with Return _ => true | Raise _ => false end) ts).

Definition raised (ts : list (task unit)) : list exn :=
  flat_map (fun t => match result t with Raise e => [e] | Return _ => [] end) ts.

(** The shape that [copy_video] and [compress_video] share: they differ by
    the command and by the first description of the bar. *)
Definition convert (w : world) (cmd : list str) (desc input_file : str)
    (pbar : option tqdm) : task unit :=
  process <- Popen w cmd ;;
  total_duration <- get_video_duration w input_file ;;
  progress <- tqdm_new (FileBar input_file) desc total_duration ;;
  progress <- read_progress (stderr_lines process) progress ;;
  close progress ;;
  communicate process ;;
  if truthy pbar
  then match pbar with
       | Some p => _ <- update p (of_Z 1) ;; ret tt
       | None => ret tt
       end
  else ret tt.

Definition copy_cmd (input_file output_file : str) : list str :=
  ["ffmpeg"; "-i"; input_file; "-c"; "copy"; output_file].

Definition compress_cmd (input_file output_file : str) (use_gpu : bool) : list str :=
  ["ffmpeg"; "-i"; input_file; "-vf"; "scale=-1:720"; "-c:v";
   if use_gpu then "h264_nvenc" else "libx264";
   "-crf"; "32"; "-b:v"; "1000k"; output_file].

Definition duration_cmd (input_file : str) : list str :=
  ["ffprobe"; "-v"; "error"; "-show_entries"; "format=duration";
   "-of"; "default=noprint_wrappers=1:nokey=1"; input_file].

Definition bitrate_cmd (input_file : str) : list str :=
  ["ffprobe"; "-v"; "error"; "-show_entries"; "format=bit_rate";
   "-of"; "default=noprint_wrappers=1:nokey=1"; input_file].

(** An event of the bar [b] that is an update or a new description. *)
Definition bar_event (b : bar) (ev : event) : Prop :=
  match ev with
  | EvBarUpdate b' _ | EvBarDesc b' _ => b' = b
  | _ => False
  end.

(* ----------------------------------------------------------------- *)
(** *** Example worlds *)

(** [ffprobe] prints [duration] or [bit_rate], as asked, and exits with
    [status]. *)
Definition ffprobe_prints (duration bit_rate : str) (status : Z)
    (cmd : list str) : option (Z * str) :=
  if existsb (str_eqb "format=duration") cmd
  then Some (status, duration)
  else Some (status, bit_rate).

(** A world in which every file has the same duration and bit rate, and
    every run of [ffmpeg] writes [stderr] and exits with [status]. *)
Definition uniform_world (duration bit_rate stderr : str) (probe_status status : Z)
    : world :=
  {| getcwd := "/home/user";
     subprocess_run := ffprobe_prints duration bit_rate probe_status;
     subprocess_Popen := fun _ => Some (stderr, status) |}.

(** A world without [ffprobe] and [ffmpeg]. *)
Definition bare_world : world :=
  {| getcwd := "/home/user";
     subprocess_run := fun _ => None;
     subprocess_Popen := fun _ => None |}.

(** A world in which [ffprobe] knows nothing of the [.avi] files: it prints
    [N/A] for them and exits with status 1. *)
Definition picky_world : world :=
  {| getcwd := "/home/user";
     subprocess_run := fun cmd =>
       if existsb (fun a => endswith a ".avi") cmd
       then Some (1%Z, "N/A" ++ [LF])
       else ffprobe_prints ("12.5" ++ [LF]) ("500000" ++ [LF]) 0 cmd;
     subprocess_Popen := fun _ => Some ([], 0%Z) |}.

(** A world in which [ffmpeg] prints, as it does, the path of its input: the
    diagnostic stream holds the line [Input #0, avi, from 'path':]. *)
Definition echo_world : world :=
  {| getcwd := "/home/user";
     subprocess_run := ffprobe_prints "12.5" "500000" 0;
     subprocess_Popen := fun cmd =>
       Some ("Input #0, avi, from '" ++ nth 2 cmd "" ++ "':" ++ [LF], 0%Z) |}.

(** The updates in a trace, of any bar. *)
Definition updates (tr : list event) : list pyfloat :=
  flat_map (fun ev => match ev with EvBarUpdate _ delta => [delta] | _ => [] end) tr.

(* ----------------------------------------------------------------- *)
(** *** Notions of the further properties *)

(** The command of [check_gpu_support]. *)
Definition hwaccels_cmd : list str := ["ffmpeg"; "-hide_banner"; "-hwaccels"].

(** [line] holds a time stamp: [time=], then three runs of digits separated
    by colons, then one character that is not a line feed, then one more
    run of digits. *)
Definition has_time_stamp (line : str) : Prop :=
  exists pre h m s1 c s2 post,
    line = pre ++ "time=" ++ h ++ ":" ++ m ++ ":" ++ s1 ++ [c] ++ s2 ++ post
    /\ digits h /\ digits m /\ digits s1 /\ digits s2 /\ char_eqb c LF = false.

(** The characters that [float] accepts between two runs of digits: a
    digit, the dot, the underscore and the mark of an exponent. *)
Definition joins_digits (c : ascii) : bool :=
  isdecimal c || char_eqb c "." || char_eqb c "_" || is_exponent_mark c.

(** A directory tree as a file system holds it: every entry of a directory
    bears a name, and no two entries of a directory bear the same one. *)
Inductive well_formed : os.node -> Prop :=
| wf_file name : well_formed (os.File name)
| wf_dir name is_link entries :
    NoDup (map os.name_of entries) ->
    (forall e, In e entries -> entry_name (os.name_of e)) ->
    (forall e, In e entries -> well_formed e) ->
    well_formed (os.Dir name is_link entries).

(** What [posixpath.join] puts before a relative name joined to [top]. *)
Definition under (top : str) : str :=
  if match top with [] => true | _ => endswith top [posixpath.sep] end
  then top else top ++ [posixpath.sep].

(** What [get_all_files] takes from below an entry of the directory [top]. *)
Definition files_below (top : str) (e : os.node) : list str :=
  match e with
  | os.Dir sub false _ => get_all_files e (posixpath.join top sub)
  | _ => []
  end.

(** A tree with the same file name in a directory and in a directory below
    it, and a link to a directory. *)
Definition example_tree : os.node :=
  os.Dir "in" false
    [os.File "a.mp4"; os.File "notes.txt";
     os.Dir "sub" false [os.File "a.mp4"; os.File "B.MKV"];
     os.Dir "link" true [os.File "c.avi"]].

(** The moves of the bar [b] in a trace: the values passed to its
    [update]. *)
Definition moves (b : bar) (tr : list event) : list pyfloat :=
  flat_map (fun ev =>
              match ev with
              | EvBarUpdate b' delta => if bar_eqb b b' then [delta] else []
              | _ => []
              end) tr.

(** The stack of components that [normpath] builds, last component first:
    names, above the [..] components that only a relative path keeps. *)
Definition normal_stack (initial_slashes : nat) (new_comps : list str) : Prop :=
  exists names k,
    new_comps = names ++ repeat ".." k
    /\ Forall entry_name names
    /\ (initial_slashes <> 0 -> k = 0).

Ltac inv H := inversion H; subst; clear H.

(** A concrete name is the name of an entry; the entries of a concrete
    directory, one after the other. *)
Ltac entry_name_tac :=
  unfold entry_name; repeat split; try discriminate;
  cbn; intros H; repeat destruct H as [H | H]; try discriminate H; exact H.

Ltac entries_tac :=
  let e := fresh "e" in let H := fresh "H" in
  intros e H; cbn in H;
  repeat (destruct H as [<- | H]; [cbn [os.name_of] |]); try contradiction.

(* ================================================================= *)
(** ** The model at work *)

Example float_reads :
  map float ["12.5"; "1e5"; "1_000"; " 42" ++ [LF]; ".5"; "N/A"; "3x4"; "1__0";
             "nan"; "-inf"; [chr 28] ++ "1"]
  = [Some (fin (25 # 2)); Some (of_Z 100000); Some (of_Z 1000); Some (of_Z 42);
     Some (fin (1 # 2)); None; None; None; Some NaN; Some (Inf true); None].
Proof. reflexivity. Qed.

Example strip_drops_more_than_float : strip ([chr 28] ++ "1" ++ [LF]) = "1".
Proof. reflexivity. Qed.

Example search_finds_the_time :
  re.search time_re
    "frame=  100 fps= 25 q=-1.0 size=    1024kB time=00:01:02.50 bitrate= 134.2kbits/s"
  = Some "00:01:02.50"
  /\ re.search time_re "size=N/A time=N/A bitrate=N/A" = None
  /\ re.search time_re "time=N/A time=1:2:345" = Some "1:2:345"
  /\ re.search time_re "time=1:2:3:4:5" = Some "1:2:3:4".
Proof. repeat split; reflexivity. Qed.

Example current_time_of_a_match :
  current_time_of "00:01:02.50" = ([], Return (fin (125 # 2)))
  /\ current_time_of "1:2:3:4" = ([], Raise ValueError).
Proof. split; reflexivity. Qed.

Example readline_splits :
  readlines (universal_newlines ("a" ++ [CR] ++ "b" ++ [CR; LF] ++ [LF] ++ "c"))
  = ["a" ++ [LF]; "b" ++ [LF]; [LF]; "c"].
Proof. reflexivity. Qed.

Example paths_are_cut :
  map posixpath.splitext ["/a/b.tar.gz"; "/a/.bashrc"; "a.b/c"; "x."]
  = [("/a/b.tar", ".gz"); ("/a/.bashrc", ""); ("a.b/c", ""); ("x", ".")]
  /\ map posixpath.normpath ["//a//b/../c/"; "///a"; "a/../.."; "/.."; ""]
     = ["//a/c"; "/a"; ".."; "/"; "."]
  /\ posixpath.abspath "/home/user" "videos/../clip.mkv" = "/home/user/clip.mkv"
  /\ map (posixpath.join "/out") ["clip_s.mp4"; "/tmp/x"] = ["/out/clip_s.mp4"; "/tmp/x"].
Proof. repeat split; reflexivity. Qed.

Example walk_of_a_tree :
  os.walk "in"
    (os.Dir "" false
       [os.File "a.MP4"; os.File "notes.txt";
        os.Dir "sub" false [os.File "b.ts"];
        os.Dir "link" true [os.File "c.avi"]])
  = [("in", ["sub"; "link"], ["a.MP4"; "notes.txt"]); ("in/sub", [], ["b.ts"])]
  /\ get_all_files
       (os.Dir "" false
          [os.File "a.MP4"; os.File "notes.txt";
           os.Dir "sub" false [os.File "b.ts"];
           os.Dir "link" true [os.File "c.avi"]]) "in"
     = ["in/a.MP4"; "in/sub/b.ts"].
Proof. split; reflexivity. Qed.

(* ================================================================= *)
(** ** Lemmas on computations *)

Lemma events_bind A B (m : task A) (f : A -> task B) :
  events (bind m f) =
  events m ++ match result m with
              | Return a => events (f a)
              | Raise _ => []
              end.
Proof.
  destruct m as [evs [a | e]]; simpl.
  - destruct (f a); reflexivity.
  - now rewrite app_nil_r.
Qed.

Lemma result_bind A B (m : task A) (f : A -> task B) :
  result (bind m f) =
  match result m with
  | Return a => result (f a)
  | Raise e => Raise e
  end.
Proof.
  destruct m as [evs [a | e]]; simpl; [destruct (f a) |]; reflexivity.
Qed.

Lemma task_eta A (t : task A) : t = (events t, result t).
Proof. now destruct t. Qed.


(* ================================================================= *)
(** ** Strings *)

Lemma char_eqb_eq a b : char_eqb a b = true <-> a = b.
Proof. apply Ascii.eqb_eq. Qed.

Lemma char_eqb_neq a b : char_eqb a b = false <-> a <> b.
Proof. apply Ascii.eqb_neq. Qed.

Lemma char_eqb_refl a : char_eqb a a = true.
Proof. apply Ascii.eqb_refl. Qed.

Lemma str_eqb_eq a b : str_eqb a b = true <-> a = b.
Proof. unfold str_eqb. now destruct (list_eq_dec ascii_dec a b). Qed.

Lemma str_eqb_neq a b : a <> b -> str_eqb a b = false.
Proof. intros H. unfold str_eqb. now destruct (list_eq_dec ascii_dec a b). Qed.

Lemma startswith_iff s p : startswith s p = true <-> exists r, s = p ++ r.
Proof.
  revert s. induction p as [| b p IH]; intros s; simpl.
  - split; [now exists s | reflexivity].
  - destruct s as [| a s]; [split; [discriminate | now intros [r [=]]] |].
    rewrite andb_true_iff, char_eqb_eq, IH. split.
    + intros [-> [r ->]]. now exists r.
    + intros [r [= -> ->]]. eauto.
Qed.

Lemma endswith_iff s p : endswith s p = true <-> exists r, s = r ++ p.
Proof.
  unfold endswith. rewrite startswith_iff. split.
  - intros [r H]. exists (rev r).
    apply (f_equal (@rev ascii)) in H. now rewrite rev_app_distr, !rev_involutive in H.
  - intros [r ->]. exists (rev r). apply rev_app_distr.
Qed.

Lemma map_eq_app_inv A B (f : A -> B) l l1 l2 :
  map f l = l1 ++ l2 ->
  exists l1' l2', l = l1' ++ l2' /\ map f l1' = l1 /\ map f l2' = l2.
Proof.
  revert l. induction l1 as [| b l1 IH]; intros l H.
  - now exists [], l.
  - destruct l as [| a l]; [discriminate |]. injection H as <- H.
    destruct (IH l H) as (l1' & l2' & -> & <- & <-).
    now exists (a :: l1'), l2'.
Qed.

Lemma skipn_past A (x : list A) c y : skipn (S (length x)) (x ++ c :: y) = y.
Proof. induction x as [| a x IH]; [reflexivity | exact IH]. Qed.

Lemma skipn_at A (x : list A) y : skipn (length x) (x ++ y) = y.
Proof. induction x as [| a x IH]; [reflexivity | exact IH]. Qed.

Lemma firstn_at A (x : list A) y : firstn (length x) (x ++ y) = x.
Proof. induction x as [| a x IH]; [reflexivity | simpl; now rewrite IH]. Qed.

(** [after_last c s] is 0 when [c] does not occur in [s]; else it is the
    length of what precedes the tail that follows the last [c]. *)
Lemma after_last_spec c s :
  (~ In c s /\ after_last c s = 0)
  \/ exists x y, s = x ++ c :: y /\ ~ In c y /\ after_last c s = S (length x).
Proof.
  induction s as [| a s IH]; simpl; [left; tauto |].
  destruct IH as [[Hnot ->] | (x & y & -> & Hy & ->)].
  - destruct (char_eqb a c) eqn:E.
    + apply char_eqb_eq in E. subst a. right. exists [], s. auto.
    + apply char_eqb_neq in E. left. split; [| reflexivity].
      intros [-> | H]; auto.
  - right. exists (a :: x), y. auto.
Qed.

Lemma after_last_notin c s : ~ In c s -> after_last c s = 0.
Proof.
  intros Hnot. destruct (after_last_spec c s) as [[_ H] | (x & y & -> & _ & _)]; trivial.
  exfalso. apply Hnot, in_elt.
Qed.

Lemma after_last_app_cons c x y :
  ~ In c y -> after_last c (x ++ c :: y) = S (length x).
Proof.
  intros Hy. induction x as [| a x IH]; simpl.
  - now rewrite (after_last_notin c y Hy), char_eqb_refl.
  - now rewrite IH.
Qed.

Lemma after_last_app_notin c x y :
  ~ In c y -> after_last c (x ++ y) = after_last c x.
Proof.
  intros Hy. destruct (after_last_spec c x) as [[Hx ->] | (x1 & x2 & -> & Hx2 & ->)].
  - apply after_last_notin. rewrite in_app_iff. tauto.
  - rewrite <- app_assoc. cbn [app]. apply after_last_app_cons.
    rewrite in_app_iff. tauto.
Qed.

Lemma after_last_app_in c x y : In c y -> length x < after_last c (x ++ y).
Proof.
  intros Hy. destruct (after_last_spec c y) as [[Hnot _] | (y1 & y2 & -> & Hy2 & _)];
    [contradiction |].
  rewrite app_assoc, (after_last_app_cons _ _ _ Hy2), length_app. lia.
Qed.

Lemma after_last_le c s : after_last c s <= length s.
Proof.
  destruct (after_last_spec c s) as [[_ ->] | (x & y & -> & _ & ->)]; [lia |].
  rewrite length_app. simpl. lia.
Qed.

Lemma split_notin sep s : ~ In sep s -> split sep s = [s].
Proof.
  induction s as [| c s IH]; intros Hnot; [reflexivity |].
  cbn [split]. destruct (char_eqb c sep) eqn:E.
  - apply char_eqb_eq in E. subst c. exfalso. apply Hnot. now left.
  - rewrite IH; [reflexivity |]. intros Hin. apply Hnot. now right.
Qed.

Lemma split_app_sep sep h rest :
  ~ In sep h -> split sep (h ++ sep :: rest) = h :: split sep rest.
Proof.
  induction h as [| c h IH]; intros Hnot; cbn [app split].
  - now rewrite char_eqb_refl.
  - destruct (char_eqb c sep) eqn:E.
    + apply char_eqb_eq in E. subst c. exfalso. apply Hnot. now left.
    + rewrite IH; [reflexivity |]. intros Hin. apply Hnot. now right.
Qed.

Lemma split_nonempty sep s : split sep s <> [].
Proof.
  destruct s as [| c s]; cbn [split]; [discriminate |].
  destruct (char_eqb c sep); [discriminate |].
  destruct (split sep s); discriminate.
Qed.

Lemma split_app sep x y :
  split sep (x ++ sep :: y) = split sep x ++ split sep y.
Proof.
  induction x as [| c x IH]; cbn [app split].
  - now rewrite char_eqb_refl.
  - rewrite IH. destruct (char_eqb c sep); [reflexivity |].
    pose proof (split_nonempty sep x). now destruct (split sep x).
Qed.

Lemma join_snoc sep xs name :
  Py.join sep (xs ++ [name]) =
  match xs with
  | [] => name
  | _ => Py.join sep xs ++ sep ++ name
  end.
Proof.
  induction xs as [| x xs IH]; [reflexivity |].
  cbn [app Py.join]. rewrite IH.
  destruct xs as [| y xs]; [reflexivity |].
  cbn [app]. now rewrite <- !app_assoc.
Qed.

(* ================================================================= *)
(** ** Paths *)

(* ----------------------------------------------------------------- *)
(** *** [basename], [splitext], [join] *)

Lemma basename_no_sep p : ~ In posixpath.sep (posixpath.basename p).
Proof.
  unfold posixpath.basename.
  destruct (after_last_spec posixpath.sep p) as [[Hp ->] | (x & y & -> & Hy & ->)].
  - exact Hp.
  - now rewrite skipn_past.
Qed.

Lemma basename_app_cons x y :
  ~ In posixpath.sep y -> posixpath.basename (x ++ posixpath.sep :: y) = y.
Proof.
  intros Hy. unfold posixpath.basename. rewrite (after_last_app_cons _ x y Hy).
  apply skipn_past.
Qed.

Lemma basename_notin y : ~ In posixpath.sep y -> posixpath.basename y = y.
Proof.
  intros Hy. unfold posixpath.basename. now rewrite (after_last_notin _ y Hy).
Qed.

Lemma basename_app x y :
  ~ In posixpath.sep y ->
  posixpath.basename (x ++ y) = posixpath.basename x ++ y.
Proof.
  intros Hy. unfold posixpath.basename. rewrite (after_last_app_notin _ x y Hy).
  rewrite skipn_app.
  replace (after_last posixpath.sep x - length x) with 0
    by (pose proof (after_last_le posixpath.sep x); lia).
  reflexivity.
Qed.

Lemma basename_join a name :
  ~ In posixpath.sep name -> posixpath.basename (posixpath.join a name) = name.
Proof.
  intros Hname. unfold posixpath.join.
  destruct (startswith name [posixpath.sep]) eqn:E1.
  - apply startswith_iff in E1. destruct E1 as [r ->]. exfalso. apply Hname. now left.
  - destruct a as [| c a]; [now apply basename_notin |].
    destruct (endswith (c :: a) [posixpath.sep]) eqn:E2.
    + apply endswith_iff in E2. destruct E2 as [r ->].
      rewrite <- app_assoc. now apply basename_app_cons.
    + now apply (basename_app_cons (c :: a)).
Qed.

(** [splitext] cuts its argument in two; the extension is empty, or it is a
    dot followed by characters that are neither dots nor separators. *)
Lemma splitext_spec p :
  fst (posixpath.splitext p) ++ snd (posixpath.splitext p) = p
  /\ ~ In posixpath.sep (snd (posixpath.splitext p))
  /\ (snd (posixpath.splitext p) = []
      \/ exists e, snd (posixpath.splitext p) = posixpath.extsep :: e).
Proof.
  unfold posixpath.splitext.
  destruct (_ && _) eqn:Hcond; cbn [fst snd].
  2: { rewrite app_nil_r. auto. }
  apply andb_true_iff in Hcond. destruct Hcond as [Hlt%Nat.ltb_lt _].
  destruct (after_last_spec posixpath.extsep p) as [[_ H0] | (x & y & -> & Hy & Hj)];
    [lia |].
  rewrite Hj in *. replace (S (length x) - 1) with (length x) by lia.
  rewrite firstn_at, skipn_at. repeat split; eauto.
  intros [[=] | Hin].
  apply (after_last_app_in posixpath.sep (x ++ [posixpath.extsep])) in Hin.
  rewrite <- app_assoc, length_app in Hin. cbn [app length] in Hin. lia.
Qed.

Lemma splitext_basename p :
  fst (posixpath.splitext (posixpath.basename p)) =
  posixpath.basename (fst (posixpath.splitext p)).
Proof.
  destruct (splitext_spec p) as (Hcut & _ & _).
  destruct (after_last_spec posixpath.sep p) as [[Hp _] | (x & y & Hxy & Hy & Hi)].
  - rewrite (basename_notin p Hp). symmetry. apply basename_notin.
    intros Hin. apply Hp. rewrite <- Hcut. apply in_or_app. now left.
  - clear Hcut. subst p. rewrite (basename_app_cons x y Hy).
    unfold posixpath.splitext. rewrite Hi, (after_last_notin _ y Hy).
    destruct (after_last_spec posixpath.extsep y)
      as [[Hdot ->] | (y1 & y2 & -> & Hy2 & ->)].
    + change (x ++ posixpath.sep :: y) with (x ++ [posixpath.sep] ++ y).
      rewrite app_assoc, (after_last_app_notin _ _ y Hdot).
      pose proof (after_last_le posixpath.extsep (x ++ [posixpath.sep])) as Hle.
      rewrite length_app in Hle. cbn [length] in Hle.
      replace (S (length x) <? _) with false by (symmetry; apply Nat.ltb_ge; lia).
      cbn [andb fst]. rewrite <- app_assoc. symmetry. now apply basename_app_cons.
    + replace (x ++ posixpath.sep :: y1 ++ posixpath.extsep :: y2)
        with ((x ++ posixpath.sep :: y1) ++ posixpath.extsep :: y2)
        by (now rewrite <- app_assoc).
      rewrite (after_last_app_cons _ _ _ Hy2), length_app. cbn [length].
      replace (S (length x) <? S (length x + S (length y1))) with true
        by (symmetry; apply Nat.ltb_lt; lia).
      replace (S (length x + S (length y1)) - 1 - S (length x)) with (length y1) by lia.
      replace (S (length x + S (length y1)) - 1) with (length (x ++ posixpath.sep :: y1))
        by (rewrite length_app; cbn [length]; lia).
      replace (S (length y1) - 1 - 0) with (length y1) by lia.
      replace (S (length y1) - 1) with (length y1) by lia.
      rewrite <- app_assoc at 1. cbn [app]. rewrite skipn_past.
      cbn [Nat.ltb Nat.leb andb skipn]. rewrite !firstn_at.
      assert (Hy1 : ~ In posixpath.sep y1).
      { intros Hin. apply Hy. apply in_or_app. now left. }
      destruct (existsb _ y1); cbn [fst].
      * symmetry. now apply basename_app_cons.
      * rewrite <- app_assoc. cbn [app]. symmetry. now apply basename_app_cons.
Qed.

(* ----------------------------------------------------------------- *)
(** *** [normpath] and [abspath] keep the last component *)

Lemma norm_comps_app i cs cs' : forall acc,
  posixpath.norm_comps i (cs ++ cs') acc =
  posixpath.norm_comps i cs' (posixpath.norm_comps i cs acc).
Proof.
  induction cs as [| c cs IH]; intros acc; [reflexivity |].
  cbn [app posixpath.norm_comps].
  destruct (str_eqb c "" || str_eqb c "."); [apply IH |].
  destruct (negb (str_eqb c "..") || _ || _); [apply IH |].
  destruct acc; apply IH.
Qed.

Lemma norm_comps_entry i name acc :
  entry_name name -> posixpath.norm_comps i [name] acc = name :: acc.
Proof.
  intros (H1 & _ & H2 & H3). cbn [posixpath.norm_comps].
  now rewrite (str_eqb_neq _ _ H1), (str_eqb_neq _ _ H2), (str_eqb_neq _ _ H3).
Qed.

Lemma last_component_basename p name :
  entry_name name -> last_component p name -> posixpath.basename p = name.
Proof.
  intros (_ & Hsep & _) [-> | [p0 ->]].
  - now apply basename_notin.
  - now apply basename_app_cons.
Qed.

Lemma normpath_last_component p name :
  entry_name name -> last_component p name ->
  last_component (posixpath.normpath p) name.
Proof.
  intros Hname Hlast.
  assert (Hsplit : exists cs, split posixpath.sep p = cs ++ [name]).
  { destruct Hname as (_ & Hsep & _). destruct Hlast as [-> | [p0 ->]].
    - exists []. now apply split_notin.
    - exists (split posixpath.sep p0). rewrite split_app. f_equal.
      now apply split_notin. }
  destruct Hsplit as [cs Hcs].
  assert (Hp : p <> []).
  { destruct Hname as (Hne & _). destruct Hlast as [-> | [p0 ->]]; trivial.
    now destruct p0. }
  unfold posixpath.normpath. destruct p as [| c p']; [contradiction |].
  set (i := if startswith (c :: p') "/" then _ else 0).
  rewrite Hcs, norm_comps_app, (norm_comps_entry _ _ _ Hname).
  cbn [rev]. rewrite join_snoc.
  destruct (rev (posixpath.norm_comps i cs [])) as [| x xs] eqn:Hrev.
  - destruct i as [| k].
    + cbn [repeat app]. destruct name; [now destruct Hname |]. now left.
    + assert (Hrep : repeat posixpath.sep (S k) ++ name =
                     repeat posixpath.sep k ++ posixpath.sep :: name).
      { change (posixpath.sep :: name) with ([posixpath.sep] ++ name).
        rewrite app_assoc. f_equal. clear. induction k as [| k IH]; [reflexivity |].
        cbn [repeat app] in *. now rewrite IH. }
      rewrite Hrep. destruct (repeat posixpath.sep k ++ posixpath.sep :: name) eqn:E.
      * now destruct (repeat posixpath.sep k).
      * right. now exists (repeat posixpath.sep k).
  - set (body := Py.join [posixpath.sep] (x :: xs)).
    cbn [app]. rewrite app_assoc.
    destruct ((repeat posixpath.sep i ++ body) ++ posixpath.sep :: name) eqn:E.
    + now destruct (repeat posixpath.sep i ++ body).
    + right. now exists (repeat posixpath.sep i ++ body).
Qed.

Lemma join_last_component a name :
  entry_name name -> last_component (posixpath.join a name) name.
Proof.
  intros (Hne & Hsep & _). unfold posixpath.join.
  destruct (startswith name [posixpath.sep]) eqn:E1.
  { apply startswith_iff in E1. destruct E1 as [r ->]. exfalso. apply Hsep. now left. }
  destruct a as [| c a]; [now left |].
  destruct (endswith (c :: a) [posixpath.sep]) eqn:E2.
  - apply endswith_iff in E2. destruct E2 as [r ->]. right. exists r.
    now rewrite <- app_assoc.
  - right. now exists (c :: a).
Qed.

Lemma join_keeps_last_component a p name :
  entry_name name -> last_component p name -> posixpath.isabs p = false ->
  last_component (posixpath.join a p) name.
Proof.
  intros Hname Hlast Habs. destruct Hlast as [-> | [p0 ->]];
    [now apply join_last_component |].
  unfold posixpath.join. unfold posixpath.isabs in Habs. rewrite Habs.
  destruct (match a with [] => true | _ => endswith a [posixpath.sep] end).
  - right. exists (a ++ p0). now rewrite <- app_assoc.
  - right. exists (a ++ [posixpath.sep] ++ p0). now rewrite <- !app_assoc.
Qed.

(** The absolute path of [root/filename] ends with [filename]. *)
Lemma basename_abspath cwd root filename :
  entry_name filename ->
  posixpath.basename (posixpath.abspath cwd (posixpath.join root filename)) = filename.
Proof.
  intros Hname. apply last_component_basename; trivial.
  unfold posixpath.abspath. apply normpath_last_component; trivial.
  pose proof (join_last_component root filename Hname) as Hlast.
  destruct (posixpath.isabs (posixpath.join root filename)) eqn:Habs; trivial.
  now apply join_keeps_last_component.
Qed.

(* ----------------------------------------------------------------- *)
(** *** The paths of a task *)

Lemma suffix_no_sep : ~ In posixpath.sep "_s.mp4".
Proof. cbn. intros H. repeat destruct H as [[=] | H]; exact H. Qed.

(** The output path, written with the base name of the input. *)
Lemma output_file_eq w output_dir file :
  snd (paths_of w output_dir file) =
  posixpath.join output_dir
    (posixpath.basename (fst (posixpath.splitext (fst (paths_of w output_dir file))))
     ++ "_s.mp4").
Proof.
  unfold paths_of. cbn [fst snd]. now rewrite (basename_app _ _ suffix_no_sep).
Qed.

Lemma output_name_no_sep s : ~ In posixpath.sep (posixpath.basename s ++ "_s.mp4").
Proof.
  intros [H | H]%in_app_or; [exact (basename_no_sep _ H) | exact (suffix_no_sep H)].
Qed.

(* ----------------------------------------------------------------- *)
(** *** The walk *)

(** Induction on a directory tree. *)
Lemma node_tree_ind (P : os.node -> Prop) :
  (forall name, P (os.File name)) ->
  (forall name is_link entries,
     Forall P entries -> P (os.Dir name is_link entries)) ->
  forall n, P n.
Proof.
  intros HF HD. fix IH 1. intros [name | name is_link entries].
  - apply HF.
  - apply HD. induction entries as [| e entries IHentries]; constructor.
    + apply IH.
    + apply IHentries.
Qed.

Lemma in_filenames filename entries :
  In filename (os.filenames entries) <-> In (os.File filename) entries.
Proof.
  unfold os.filenames. rewrite in_map_iff. split.
  - intros (e & <- & [He Hfile]%filter_In). now destruct e.
  - intros Hin. exists (os.File filename). split; [reflexivity |].
    now apply filter_In.
Qed.

Lemma walk_finds top n root filename :
  (exists dirs names, In (root, dirs, names) (os.walk top n) /\ In filename names)
  <-> file_under top n root filename.
Proof.
  split.
  - revert top. induction n as [name | name is_link entries IH] using node_tree_ind;
      intros top (dirs & names & Hin & Hname); [contradiction |].
    cbn [os.walk] in Hin. destruct Hin as [[= <- <- <-] | Hin].
    + apply file_here. now apply in_filenames.
    + apply in_flat_map in Hin. destruct Hin as (e & He & Hin).
      rewrite Forall_forall in IH.
      destruct e as [| sub [|] subentries]; try contradiction.
      apply (file_below top name is_link entries sub subentries); trivial.
      apply (IH _ He). eauto.
  - induction 1 as [top name l entries filename Hin
                   | top name l entries sub subentries root filename Hin _ IH].
    + exists (os.dirnames entries), (os.filenames entries). split; [now left |].
      now apply in_filenames.
    + destruct IH as (dirs & names & Hwalk & Hname).
      exists dirs, names. split; trivial.
      cbn [os.walk]. right. apply in_flat_map.
      exists (os.Dir sub false subentries). split; trivial.
Qed.

Lemma endswith_any_lower filename :
  endswith_any (lower filename) extensions = true <-> has_video_extension filename.
Proof.
  unfold endswith_any, has_video_extension. rewrite existsb_exists. split.
  - intros (ext & Hext & (r & Hr)%endswith_iff).
    apply map_eq_app_inv in Hr. destruct Hr as (pre & suf & -> & _ & Hsuf).
    now exists ext, pre, suf.
  - intros (ext & pre & suf & Hext & -> & Hsuf). exists ext. split; trivial.
    apply endswith_iff. exists (lower pre). unfold lower in *.
    now rewrite map_app, Hsuf.
Qed.

(* ================================================================= *)
(** ** The matcher finds matches of the pattern *)

Section MatcherSound.

Variable R : Type.

Lemma plus_loop_matches r body (Hbody : sound_for R r body) k x :
  forall fuel g s,
    re.plus_loop body k fuel g s = Some x ->
    exists p rest g', s = p ++ rest /\ re_matches (re.Plus r) g p g' /\ k g' rest = Some x.
Proof.
  induction fuel as [| fuel IH]; intros g s Hrun; cbn [re.plus_loop] in Hrun;
    apply Hbody in Hrun; destruct Hrun as (p & rest & g1 & -> & Hp & Hk).
  - exists p, rest, g1. auto using M_plus_one.
  - destruct (length rest <? length (p ++ rest)).
    + destruct (re.plus_loop body k fuel g1 rest) as [y |] eqn:Hloop.
      * injection Hk as ->. apply IH in Hloop.
        destruct Hloop as (p2 & rest2 & g2 & -> & Hp2 & Hk2).
        exists (p ++ p2), rest2, g2. rewrite app_assoc. eauto using M_plus_more.
      * exists p, rest, g1. auto using M_plus_one.
    + exists p, rest, g1. auto using M_plus_one.
Qed.

Lemma attempt_sound r : sound_for R r (re.attempt r).
Proof.
  induction r as [p | c | | | r1 IH1 r2 IH2 | r IH | r IH]; intros g s k x Hrun;
    cbn [re.attempt] in Hrun.
  - destruct (startswith s p) eqn:Hp; [| discriminate].
    apply startswith_iff in Hp. destruct Hp as [rest ->].
    rewrite skipn_at in Hrun. exists p, rest, g. auto using M_str.
  - destruct s as [| a s]; [discriminate |].
    destruct (char_eqb a c) eqn:Hc; [| discriminate].
    apply char_eqb_eq in Hc. subst a. exists [c], s, g. auto using M_chr.
  - destruct s as [| a s]; [discriminate |].
    destruct (isdecimal a) eqn:Hd; [| discriminate].
    exists [a], s, g. auto using M_digit.
  - destruct s as [| a s]; [discriminate |].
    destruct (char_eqb a LF) eqn:Hc; [discriminate |].
    exists [a], s, g. auto using M_dot.
  - apply IH1 in Hrun. destruct Hrun as (p1 & rest1 & g1 & -> & Hp1 & Hrun).
    apply IH2 in Hrun. destruct Hrun as (p2 & rest2 & g2 & -> & Hp2 & Hk).
    exists (p1 ++ p2), rest2, g2. rewrite app_assoc. eauto using M_seq.
  - now apply (plus_loop_matches r (re.attempt r) IH) in Hrun.
  - apply IH in Hrun. destruct Hrun as (p & rest & g1 & -> & Hp & Hk).
    rewrite length_app, Nat.add_sub, firstn_at in Hk.
    exists p, rest, (Some p). eauto using M_group.
Qed.

End MatcherSound.

Lemma search_sound r s ts :
  re.search r s = Some ts ->
  exists pre p rest, s = pre ++ p ++ rest /\ re_matches r None p (Some ts).
Proof.
  assert (Hat : forall s', re.match_ r s' = Some ts ->
                  exists p rest, s' = p ++ rest /\ re_matches r None p (Some ts)).
  { unfold re.match_. intros s' Hrun. apply attempt_sound in Hrun.
    destruct Hrun as (p & rest & g' & Hs & Hp & ->). eauto. }
  induction s as [| a s IH]; cbn [re.search].
  - destruct (re.match_ r []) as [y |] eqn:Hrun; [| discriminate].
    intros [= ->]. destruct (Hat _ Hrun) as (p & rest & Hs & Hp).
    exists [], p, rest. auto.
  - destruct (re.match_ r (a :: s)) as [y |] eqn:Hrun.
    + intros [= ->]. destruct (Hat _ Hrun) as (p & rest & Hs & Hp).
      exists [], p, rest. auto.
    + intros Hs. destruct (IH Hs) as (pre & p & rest & -> & Hp).
      exists (a :: pre), p, rest. auto.
Qed.

Lemma plus_digit_matches g p g' :
  re_matches (re.Plus re.Digit) g p g' -> digits p /\ g' = g.
Proof.
  remember (re.Plus re.Digit) as r eqn:Hr. unfold digits.
  induction 1 as [| | | | | r g p g' Hp _ | r g p1 g1 p2 g2 Hp1 _ Hp2 IH |];
    try discriminate; injection Hr as ->.
  - inv Hp. cbn.
    match goal with H : isdecimal _ = true |- _ => rewrite H end.
    repeat split; trivial. discriminate.
  - inv Hp1. destruct (IH eq_refl) as [[Hne Hall] ->]. cbn.
    match goal with H : isdecimal _ = true |- _ => rewrite H end.
    rewrite Hall. repeat split; trivial. discriminate.
Qed.

(** The shape of what [time_re] captures. *)
Lemma time_re_captures g p ts :
  re_matches time_re g p (Some ts) ->
  exists h m s1 c s2,
    ts = h ++ ":" ++ m ++ ":" ++ s1 ++ [c] ++ s2
    /\ digits h /\ digits m /\ digits s1 /\ digits s2
    /\ char_eqb c LF = false.
Proof.
  unfold time_re. intros H.
  repeat match goal with
         | H : re_matches (re.Seq _ _) _ _ _ |- _ => inv H
         | H : re_matches (re.Group _) _ _ _ |- _ => inv H
         | H : re_matches (re.Chr _) _ _ _ |- _ => inv H
         | H : re_matches (re.Str _) _ _ _ |- _ => inv H
         | H : re_matches re.Dot _ _ _ |- _ => inv H
         | H : re_matches (re.Plus re.Digit) _ _ _ |- _ =>
             apply plus_digit_matches in H; destruct H as [? _]
         end.
  eexists _, _, _, _, _. split; [reflexivity |].
  do 4 (split; [assumption |]). assumption.
Qed.

(* ================================================================= *)
(** ** Floats and times *)

Lemma of_Z_add a b : fadd (of_Z a) (of_Z b) = of_Z (a + b).
Proof.
  unfold of_Z, fin, fadd. apply (f_equal Fin), Qred_complete.
  rewrite !Qred_correct. now rewrite inject_Z_plus.
Qed.


Lemma fgt_not_fle x y : fgt x y = true -> fle x y = false.
Proof.
  unfold fgt.
  destruct x as [p | s |], y as [q | t |]; simpl; try discriminate; trivial.
  - now intros ->%negb_true_iff.
  - now intros ->.
  - now intros ->%negb_true_iff.
  - destruct s, t; simpl; trivial; discriminate.
Qed.

Lemma fdiv_by_1000 x : exists y, fdiv x (of_Z 1000) = Some y.
Proof. destruct x; simpl; eauto. Qed.

(** What the script relies on when it meets a digit. *)
Lemma digit_facts d :
  isdecimal d = true ->
  float_blank d = false
  /\ char_eqb d "_" = false /\ char_eqb d "-" = false /\ char_eqb d "+" = false
  /\ char_eqb d ":" = false
  /\ lower_char d = d /\ char_eqb d "i" = false /\ char_eqb d "n" = false.
Proof.
  destruct d as [[] [] [] [] [] [] [] []]; intros H; try discriminate H;
    repeat split; reflexivity.
Qed.

Lemma digits_no_colon s : digits s -> ~ In ":"%char s.
Proof.
  intros [_ Hall] Hin. rewrite forallb_forall in Hall.
  apply Hall, digit_facts in Hin. now destruct Hin as (_ & _ & _ & _ & [=] & _).
Qed.

Lemma digits_head s : digits s -> exists d rest, s = d :: rest /\ isdecimal d = true.
Proof.
  intros [Hne Hall]. destruct s as [| d rest]; [contradiction |].
  cbn in Hall. apply andb_true_iff in Hall. exists d, rest. tauto.
Qed.




Lemma lstrip_id f s :
  match s with c :: _ => f c = false | [] => True end -> lstrip_by f s = s.
Proof. destruct s as [| c s]; [reflexivity |]. cbn. now intros ->. Qed.

Lemma numeric_facts c :
  numeric c = true -> float_blank c = false /\ char_eqb c "_" = false.
Proof.
  destruct c as [[] [] [] [] [] [] [] []]; intros H; try discriminate H;
    split; reflexivity.
Qed.

Lemma strip_numeric s :
  forallb numeric s = true -> strip_by float_blank s = s.
Proof.
  intros Hall. unfold strip_by.
  assert (H1 : lstrip_by float_blank s = s).
  { apply lstrip_id. destruct s as [| c s]; trivial.
    cbn in Hall. apply andb_true_iff in Hall. now apply numeric_facts. }
  rewrite H1.
  assert (H2 : lstrip_by float_blank (rev s) = rev s).
  { apply lstrip_id. destruct (rev s) as [| c r] eqn:E; trivial.
    rewrite forallb_forall in Hall. apply numeric_facts, Hall, in_rev.
    rewrite E. now left. }
  now rewrite H2, rev_involutive.
Qed.

Lemma drop_underscores_numeric s : forall prev,
  char_eqb prev "_" = false -> forallb numeric s = true ->
  drop_underscores prev s = Some s.
Proof.
  induction s as [| c s IH]; intros prev Hprev Hall; cbn [drop_underscores].
  - now rewrite Hprev.
  - cbn in Hall. apply andb_true_iff in Hall. destruct Hall as [Hc Hall].
    destruct (numeric_facts c Hc) as [_ Hu]. rewrite Hu, Hprev. cbn [andb].
    now rewrite (IH c Hu Hall).
Qed.

Lemma span_digits_all s : forallb isdecimal s = true -> span_digits s = (s, []).
Proof.
  induction s as [| c s IH]; [reflexivity |]. cbn. intros [-> H]%andb_true_iff.
  now rewrite (IH H).
Qed.

Lemma span_digits_app s c r :
  forallb isdecimal s = true -> isdecimal c = false ->
  span_digits (s ++ c :: r) = (s, c :: r).
Proof.
  intros Hs Hc. induction s as [| d s IH]; cbn.
  - now rewrite Hc.
  - cbn in Hs. apply andb_true_iff in Hs. destruct Hs as [-> Hs]. now rewrite (IH Hs).
Qed.

Lemma digits_numeric s : forallb isdecimal s = true -> forallb numeric s = true.
Proof.
  rewrite !forallb_forall. intros H c Hc. unfold numeric. now rewrite (H c Hc).
Qed.

(** [float] reads a string of digits and dots that starts with a digit as
    [parse_number] does. *)
Lemma float_numeric d rest q :
  isdecimal d = true -> forallb numeric (d :: rest) = true ->
  parse_number (d :: rest) = Some q ->
  float (d :: rest) = Some (fin q).
Proof.
  intros Hd Hall Hparse.
  destruct (digit_facts d Hd) as (_ & _ & Hm & Hp & _ & Hlow & Hi & Hn).
  unfold float. rewrite (strip_numeric _ Hall).
  rewrite (drop_underscores_numeric _ (chr 0) eq_refl Hall).
  cbn [split_sign]. rewrite Hm, Hp. cbn [lower map]. rewrite Hlow.
  unfold str_eqb.
  destruct (list_eq_dec ascii_dec (d :: map lower_char rest) "inf") as [[= -> _] |];
    [discriminate Hi |].
  destruct (list_eq_dec ascii_dec (d :: map lower_char rest) "infinity") as [[= -> _] |];
    [discriminate Hi |].
  destruct (list_eq_dec ascii_dec (d :: map lower_char rest) "nan") as [[= -> _] |];
    [discriminate Hn |].
  cbn [orb]. now rewrite Hparse.
Qed.

Lemma float_digits s : digits s -> exists q, float s = Some (fin q).
Proof.
  intros Hs. destruct (digits_head s Hs) as (d & rest & -> & Hd).
  destruct Hs as [_ Hall].
  assert (Hparse : exists q, parse_number (d :: rest) = Some q).
  { unfold parse_number. rewrite (span_digits_all _ Hall), app_nil_r. eauto. }
  destruct Hparse as [q Hq]. exists q.
  apply float_numeric; trivial. now apply digits_numeric.
Qed.

Lemma float_digits_dot s1 s2 :
  digits s1 -> digits s2 -> exists q, float (s1 ++ "."%char :: s2) = Some (fin q).
Proof.
  intros Hs1 Hs2. destruct (digits_head s1 Hs1) as (d & rest & -> & Hd).
  destruct Hs1 as [_ Hall1], Hs2 as [_ Hall2].
  assert (Hparse : exists q, parse_number ((d :: rest) ++ "."%char :: s2) = Some q).
  { unfold parse_number. rewrite (span_digits_app _ "." s2 Hall1 eq_refl).
    rewrite char_eqb_refl, (span_digits_all _ Hall2). cbn [app]. eexists. reflexivity. }
  destruct Hparse as [q Hq]. exists q.
  apply (float_numeric d (rest ++ "."%char :: s2)); trivial.
  change (forallb numeric ((d :: rest) ++ "."%char :: s2) = true).
  rewrite forallb_app, (digits_numeric _ Hall1). cbn [forallb andb].
  now rewrite (digits_numeric _ Hall2).
Qed.

Lemma current_time_of_events ts : events (current_time_of ts) = [].
Proof.
  unfold current_time_of.
  now destruct (map float (split ":" ts)) as [| [h |] [| [m |] [| [s |] [|]]]].
Qed.


(* ================================================================= *)
(** ** The shape of the traces *)

Lemma copy_video_convert w input output pbar :
  copy_video w input output pbar =
  convert w (copy_cmd input output)
    ("Copying and converting to MP4 " ++ posixpath.basename input) input pbar.
Proof. reflexivity. Qed.

Lemma compress_video_convert w input output use_gpu pbar :
  compress_video w input output use_gpu pbar =
  convert w (compress_cmd input output use_gpu)
    ("Compressing " ++ posixpath.basename input) input pbar.
Proof. now destruct use_gpu. Qed.

Lemma get_video_duration_cases w input :
  get_video_duration w input =
  ([EvRun (duration_cmd input)],
   match subprocess_run w (duration_cmd input) with
   | None => Raise FileNotFoundError
   | Some (_, out) =>
       match float (strip out) with
       | None => Raise ValueError
       | Some x => Return x
       end
   end).
Proof.
  unfold get_video_duration, run, to_float. fold (duration_cmd input).
  destruct (subprocess_run w (duration_cmd input)) as [[code out] |]; simpl; trivial.
  now destruct (float (strip out)).
Qed.

Lemma get_video_bitrate_cases w input :
  get_video_bitrate w input =
  ([EvRun (bitrate_cmd input)],
   match subprocess_run w (bitrate_cmd input) with
   | None => Raise FileNotFoundError
   | Some (_, out) =>
       match float (strip out) with
       | None => Raise ValueError
       | Some x =>
           match fdiv x (of_Z 1000) with
           | Some y => Return y
           | None => Raise ZeroDivisionError
           end
       end
   end).
Proof.
  unfold get_video_bitrate, run, to_float, divide. fold (bitrate_cmd input).
  destruct (subprocess_run w (bitrate_cmd input)) as [[code out] |]; simpl; trivial.
  destruct (float (strip out)) as [x |]; simpl; trivial.
  now destruct (fdiv x (of_Z 1000)).
Qed.

Lemma on_line_cases line p :
  on_line line p =
  if contains line "time=" then
    match re.search time_re line with
    | Some ts =>
        match result (current_time_of ts) with
        | Return t =>
            ([EvBarUpdate (bar_of p) (fsub t (n p));
              EvBarDesc (bar_of p) ("Processing time: " ++ ts)],
             Return {| bar_of := bar_of p; total := total p;
                       n := fadd (n p) (fsub t (n p)) |})
        | Raise e => ([], Raise e)
        end
    | None => ([], Return p)
    end
  else ([], Return p).
Proof.
  unfold on_line. destruct (contains line "time="); [| reflexivity].
  destruct (re.search time_re line) as [ts |]; [| reflexivity].
  rewrite (task_eta _ (current_time_of ts)), current_time_of_events.
  now destruct (result (current_time_of ts)).
Qed.

(** The reading loop only touches the bar it is given. *)
Lemma on_line_events line p :
  Forall (bar_event (bar_of p)) (events (on_line line p)) /\
  match result (on_line line p) with
  | Return p' => bar_of p' = bar_of p /\ total p' = total p
  | Raise _ => True
  end.
Proof.
  unfold on_line.
  destruct (contains line "time="); [| now split; [constructor |]].
  destruct (re.search time_re line) as [ts |]; [| now split; [constructor |]].
  destruct (current_time_of ts) as [evs [t | e]] eqn:Ht.
  - unfold current_time_of in Ht.
    destruct (map float (split ":" ts)) as [| [h |] [| [m |] [| [s |] [|]]]];
      inversion Ht; subst; simpl.
    split; [| now split]. repeat constructor.
  - unfold current_time_of in Ht.
    destruct (map float (split ":" ts)) as [| [h |] [| [m |] [| [s |] [|]]]];
      inversion Ht; subst; simpl; split; trivial; constructor.
Qed.

Lemma read_progress_events lines : forall p,
  Forall (bar_event (bar_of p)) (events (read_progress lines p)).
Proof.
  induction lines as [| line lines IH]; intros p; simpl; [constructor |].
  rewrite events_bind. apply Forall_app. split; [apply on_line_events |].
  destruct (on_line_events line p) as [_ H].
  destruct (result (on_line line p)) as [p' | e]; [| constructor].
  destruct H as [<- _]. apply IH.
Qed.

Lemma read_progress_bar lines : forall p p',
  result (read_progress lines p) = Return p' ->
  bar_of p' = bar_of p /\ total p' = total p.
Proof.
  induction lines as [| line lines IH]; intros p p'; simpl.
  - now intros [= ->].
  - rewrite result_bind. destruct (on_line_events line p) as [_ H].
    destruct (result (on_line line p)) as [q | e]; [| discriminate].
    destruct H as [<- <-]. apply IH.
Qed.

(** The trace and the result of a conversion, case by case. *)
Lemma convert_cases w cmd desc input pbar :
  convert w cmd desc input pbar =
  match subprocess_Popen w cmd with
  | None => ([EvPopen cmd], Raise FileNotFoundError)
  | Some pr =>
      match result (get_video_duration w input) with
      | Raise e => ([EvPopen cmd; EvRun (duration_cmd input)], Raise e)
      | Return tot =>
          let rp := read_progress (readlines (universal_newlines (fst pr)))
                      {| bar_of := FileBar input; total := tot; n := of_Z 0 |} in
          match result rp with
          | Raise e =>
              (EvPopen cmd :: EvRun (duration_cmd input) ::
               EvBarNew (FileBar input) desc tot :: events rp, Raise e)
          | Return _ =>
              (EvPopen cmd :: EvRun (duration_cmd input) ::
               EvBarNew (FileBar input) desc tot :: events rp ++
               EvBarClose (FileBar input) :: EvCommunicate cmd (snd pr) ::
               (if truthy pbar
                then match pbar with
                     | Some pb => [EvBarUpdate (bar_of pb) (of_Z 1)]
                     | None => []
                     end
                else []),
               Return tt)
          end
      end
  end.
Proof.
  unfold convert, Popen.
  destruct (subprocess_Popen w cmd) as [[text status] |]; [| reflexivity].
  rewrite get_video_duration_cases. cbn [result snd].
  destruct (match subprocess_run w (duration_cmd input) with
            | Some (_, out) =>
                match float (strip out) with
                | Some x => Return x
                | None => Raise ValueError
                end
            | None => Raise FileNotFoundError
            end) as [tot | e]; [| reflexivity].
  cbn -[read_progress readlines universal_newlines truthy of_Z].
  unfold stderr_lines. cbn [stderr_text fst snd].
  pose proof (read_progress_bar (readlines (universal_newlines text))
                {| bar_of := FileBar input; total := tot; n := of_Z 0 |}) as Hbar.
  destruct (read_progress (readlines (universal_newlines text))
              {| bar_of := FileBar input; total := tot; n := of_Z 0 |})
    as [evs [p | e]]; cbn [result events fst snd] in *; [| reflexivity].
  destruct (Hbar p eq_refl) as [Hb _]. cbn [bar_of] in Hb.
  unfold bind at 1. rewrite Hb.
  destruct (truthy pbar); [destruct pbar as [pb |] |]; reflexivity.
Qed.

Lemma task_cases w input output use_gpu pbar :
  copy_or_compress_video w input output use_gpu pbar =
  match result (get_video_bitrate w input) with
  | Raise e => ([EvRun (bitrate_cmd input)], Raise e)
  | Return bitrate =>
      if fle bitrate (of_Z 1000) then
        (EvRun (bitrate_cmd input) ::
         EvPrint (LowBitrate (posixpath.basename input)) ::
         events (copy_video w input output pbar),
         result (copy_video w input output pbar))
      else
        (EvRun (bitrate_cmd input) ::
         events (compress_video w input output use_gpu pbar),
         result (compress_video w input output use_gpu pbar))
  end.
Proof.
  unfold copy_or_compress_video. rewrite get_video_bitrate_cases. cbn [result snd].
  destruct (match subprocess_run w (bitrate_cmd input) with
            | Some (_, out) =>
                match float (strip out) with
                | Some x =>
                    match fdiv x (of_Z 1000) with
                    | Some y => Return y
                    | None => Raise ZeroDivisionError
                    end
                | None => Raise ValueError
                end
            | None => Raise FileNotFoundError
            end) as [bitrate | e]; [| reflexivity].
  unfold bind at 1. destruct (fle bitrate (of_Z 1000)).
  - destruct (copy_video w input output pbar) as [evs r]. reflexivity.
  - destruct (compress_video w input output use_gpu pbar) as [evs r]. reflexivity.
Qed.

(* ----------------------------------------------------------------- *)
(** *** What a trace shows *)

Lemma batch_updates_app tr1 tr2 :
  batch_updates (tr1 ++ tr2) = batch_updates tr1 ++ batch_updates tr2.
Proof. apply flat_map_app. Qed.

Lemma launched_app tr1 tr2 : launched (tr1 ++ tr2) = launched tr1 ++ launched tr2.
Proof. apply flat_map_app. Qed.

Lemma reported_app tr1 tr2 : reported (tr1 ++ tr2) = reported tr1 ++ reported tr2.
Proof. apply flat_map_app. Qed.

Lemma bar_events_quiet f evs :
  Forall (bar_event (FileBar f)) evs ->
  batch_updates evs = [] /\ launched evs = [] /\ reported evs = [].
Proof.
  induction 1 as [| ev evs Hev _ (IH1 & IH2 & IH3)]; [easy |].
  unfold batch_updates, launched, reported in *. simpl.
  rewrite IH1, IH2, IH3.
  destruct ev as [| | | | b d | b d | |]; simpl in Hev; try contradiction;
    now subst b.
Qed.

Lemma read_progress_quiet lines f tot x :
  let evs := events (read_progress lines {| bar_of := FileBar f; total := tot; n := x |}) in
  batch_updates evs = [] /\ launched evs = [] /\ reported evs = [].
Proof.
  intros evs. apply (bar_events_quiet f).
  apply (read_progress_events lines {| bar_of := FileBar f; total := tot; n := x |}).
Qed.


(** A conversion given the batch bar moves it by one exactly when it
    returns; it starts one encoder, and reports nothing itself. *)
Lemma convert_shows w cmd desc input pb :
  bar_of pb = BatchBar -> truthy (Some pb) = true ->
  let t := convert w cmd desc input (Some pb) in
  batch_updates (events t) =
    match result t with Return _ => [of_Z 1] | Raise _ => [] end
  /\ launched (events t) = [cmd]
  /\ reported (events t) = [].
Proof.
  intros Hb Ht t. subst t. rewrite convert_cases.
  destruct (subprocess_Popen w cmd) as [pr |]; [| easy].
  destruct (result (get_video_duration w input)) as [tot | e]; [| easy].
  cbv zeta.
  destruct (read_progress_quiet (readlines (universal_newlines (fst pr))) input tot (of_Z 0))
    as (Q1 & Q2 & Q3).
  destruct (result (read_progress _ _)) as [p | e]; cbn [events result fst snd].
  - rewrite Ht, Hb.
    change (?a :: ?b :: ?c :: ?l ++ ?r) with ([a; b; c] ++ l ++ r).
    rewrite !batch_updates_app, !launched_app, !reported_app, Q1, Q2, Q3.
    easy.
  - change (?a :: ?b :: ?c :: ?l) with ([a; b; c] ++ l).
    rewrite !batch_updates_app, !launched_app, !reported_app, Q1, Q2, Q3.
    easy.
Qed.





Lemma future_shows w input output use_gpu pb :
  bar_of pb = BatchBar -> truthy (Some pb) = true ->
  let t := copy_or_compress_video w input output use_gpu (Some pb) in
  batch_updates (events t) =
    match result t with Return _ => [of_Z 1] | Raise _ => [] end
  /\ reported (events t) = []
  /\ reported (future_events t) =
       match result t with Raise e => [e] | Return _ => [] end
  /\ batch_updates (future_events t) = batch_updates (events t).
Proof.
  intros Hb Ht t.
  assert (H : batch_updates (events t) =
                match result t with Return _ => [of_Z 1] | Raise _ => [] end
              /\ reported (events t) = []).
  { subst t. rewrite task_cases.
    destruct (result (get_video_bitrate w input)) as [bitrate | e]; [| easy].
    destruct (fle bitrate (of_Z 1000)); cbn [events result fst snd].
    - rewrite copy_video_convert.
      destruct (convert_shows w (copy_cmd input output)
                  ("Copying and converting to MP4 " ++ posixpath.basename input)
                  input pb Hb Ht) as (H1 & _ & H3).
      change (?a :: ?b :: ?l) with ([a; b] ++ l).
      now rewrite batch_updates_app, reported_app, H1, H3.
    - rewrite compress_video_convert.
      destruct (convert_shows w (compress_cmd input output use_gpu)
                  ("Compressing " ++ posixpath.basename input)
                  input pb Hb Ht) as (H1 & _ & H3).
      change (?a :: ?l) with ([a] ++ l).
      now rewrite batch_updates_app, reported_app, H1, H3. }
  destruct H as [H1 H2]. repeat split; trivial.
  - unfold future_events. rewrite reported_app, H2.
    now destruct (result t).
  - unfold future_events. rewrite batch_updates_app.
    destruct (result t); cbn; now rewrite app_nil_r.
Qed.

(* ----------------------------------------------------------------- *)
(** *** The positions of a bar *)

Lemma bar_eqb_refl b : bar_eqb b b = true.
Proof. destruct b as [f |]; [| reflexivity]. now apply str_eqb_eq. Qed.




(* ================================================================= *)
(** ** Interleavings and runs of a batch *)

Lemma concat_all_nil A (ls : list (list A)) :
  Forall (fun l => l = []) ls -> concat ls = [].
Proof. induction 1 as [| l ls -> _ IH]; simpl; trivial. Qed.

Lemma interleave_Permutation A (ls : list (list A)) tr :
  interleave ls tr -> Permutation tr (concat ls).
Proof.
  induction 1 as [ls Hnil | l1 x t l2 tr _ IH].
  - now rewrite concat_all_nil.
  - rewrite concat_app in *. simpl in *. now apply Permutation_cons_app.
Qed.

Lemma interleave_skip A (ls : list (list A)) tr :
  interleave ls tr -> interleave ([] :: ls) tr.
Proof.
  induction 1 as [ls Hnil | l1 x t l2 tr _ IH].
  - constructor. now constructor.
  - apply (interleave_step ([] :: l1) x t l2 tr IH).
Qed.

Lemma interleave_concat A (ls : list (list A)) : interleave ls (concat ls).
Proof.
  induction ls as [| l ls IH]; simpl.
  - constructor. constructor.
  - induction l as [| x l IHl]; simpl.
    + now apply interleave_skip.
    + apply (interleave_step [] x l ls _ IHl).
Qed.

Lemma interleave_in_order A (ls : list (list A)) tr :
  interleave ls tr -> forall l, In l ls -> in_order l tr.
Proof.
  induction 1 as [ls Hnil | l1 x t l2 tr _ IH]; intros l Hin.
  - rewrite Forall_forall in Hnil. rewrite (Hnil l Hin). constructor.
  - apply in_app_or in Hin. destruct Hin as [Hin | [<- | Hin]].
    + apply in_order_skip, IH, in_or_app. now left.
    + apply in_order_keep, IH, in_elt.
    + apply in_order_skip, IH, in_or_app. right. now right.
Qed.

Lemma in_order_app_r A (l tr tr' : list A) : in_order l tr -> in_order l (tr ++ tr').
Proof.
  induction 1 as [tr | x l tr _ IH | x l tr _ IH]; cbn [app].
  - constructor.
  - now apply in_order_keep.
  - now apply in_order_skip.
Qed.

(** In a run, what each future does appears whole and in order. *)
Lemma process_videos_in_order w files output_dir use_gpu tr file :
  process_videos w files output_dir use_gpu tr -> In file files ->
  in_order (future_events (submit w (batch_bar files) output_dir use_gpu file)) tr.
Proof.
  intros (body & Hbody & ->) Hin.
  apply in_order_skip, in_order_app_r.
  apply (interleave_in_order _ _ _ Hbody).
  unfold futures. now apply in_map, in_map.
Qed.

Lemma process_videos_serial_run w files output_dir use_gpu :
  process_videos w files output_dir use_gpu
    (process_videos_serial w files output_dir use_gpu).
Proof.
  exists (concat (map future_events (futures w files output_dir use_gpu))).
  split; [apply interleave_concat | reflexivity].
Qed.

(** Whatever the schedule, a run holds the events of every future and
    nothing more than the opening and the closing of the batch bar. *)
Lemma process_videos_Permutation w files output_dir use_gpu tr :
  process_videos w files output_dir use_gpu tr ->
  Permutation tr
    (EvBarNew BatchBar "Processing videos" (of_Z (Z.of_nat (length files))) ::
     EvBarClose BatchBar ::
     concat (map future_events (futures w files output_dir use_gpu))).
Proof.
  intros (body & Hbody%interleave_Permutation & ->).
  constructor. rewrite <- Permutation_cons_append. now constructor.
Qed.

(* ----------------------------------------------------------------- *)
(** *** The batch bar *)

Lemma batch_bar_truthy files :
  files <> [] -> truthy (Some (batch_bar files)) = true.
Proof.
  intros Hne. unfold truthy, batch_bar, fgt, flt, of_Z, fin; cbn [total].
  apply negb_true_iff, not_true_is_false.
  rewrite Qle_bool_iff, Qred_le, <- Zle_Qle.
  destruct files; [contradiction | simpl; lia].
Qed.

Lemma bar_n_batch tr :
  bar_n BatchBar tr = fold_left fadd (batch_updates tr) (of_Z 0).
Proof.
  unfold bar_n. generalize (of_Z 0).
  induction tr as [| ev tr IH]; intros acc; [reflexivity |].
  destruct ev as [| | | | [f |] d | | |]; cbn; apply IH.
Qed.

Lemma sum_of_ones k : forall z,
  fold_left fadd (repeat (of_Z 1) k) (of_Z z) = of_Z (z + Z.of_nat k).
Proof.
  induction k as [| k IH]; intros z.
  - now rewrite Z.add_0_r.
  - cbn [repeat fold_left]. rewrite of_Z_add, IH. f_equal. lia.
Qed.

Lemma batch_updates_concat ls :
  batch_updates (concat ls) = flat_map batch_updates ls.
Proof.
  induction ls as [| l ls IH]; [reflexivity |].
  cbn [concat flat_map]. now rewrite batch_updates_app, IH.
Qed.

Lemma reported_concat ls : reported (concat ls) = flat_map reported ls.
Proof.
  induction ls as [| l ls IH]; [reflexivity |].
  cbn [concat flat_map]. now rewrite reported_app, IH.
Qed.

Lemma submit_shows w pb output_dir use_gpu file :
  bar_of pb = BatchBar -> truthy (Some pb) = true ->
  let t := submit w pb output_dir use_gpu file in
  batch_updates (future_events t) =
    match result t with Return _ => [of_Z 1] | Raise _ => [] end
  /\ reported (future_events t) =
       match result t with Raise e => [e] | Return _ => [] end.
Proof.
  intros Hb Ht. unfold submit. destruct (paths_of w output_dir file) as [input output].
  destruct (future_shows w input output use_gpu pb Hb Ht) as (H1 & _ & H3 & H4).
  cbv zeta. now rewrite H4, H1, H3.
Qed.

Lemma returned_cons t ts :
  returned (t :: ts) =
  match result t with Return _ => S (returned ts) | Raise _ => returned ts end.
Proof. unfold returned. cbn [filter]. now destruct (result t). Qed.

Lemma raised_cons t ts :
  raised (t :: ts) =
  match result t with Return _ => raised ts | Raise e => e :: raised ts end.
Proof. unfold raised. cbn [flat_map]. now destruct (result t). Qed.

Lemma submitted_show w pb output_dir use_gpu :
  bar_of pb = BatchBar -> truthy (Some pb) = true ->
  forall l,
    let fs := map (submit w pb output_dir use_gpu) l in
    flat_map batch_updates (map future_events fs) = repeat (of_Z 1) (returned fs)
    /\ flat_map reported (map future_events fs) = raised fs
    /\ returned fs + length (raised fs) = length l.
Proof.
  intros Hb Ht l. cbv zeta. induction l as [| file l (IH1 & IH2 & IH3)]; [easy |].
  cbn [map flat_map]. rewrite IH1, IH2, returned_cons, raised_cons.
  destruct (submit_shows w pb output_dir use_gpu file Hb Ht) as [-> ->].
  destruct (result (submit w pb output_dir use_gpu file)); cbn [app repeat length];
    repeat split; trivial; lia.
Qed.

(** The count that the batch bar shows at the end of a run, and the errors
    that the run reports. *)
Lemma process_videos_counts w files output_dir use_gpu tr :
  process_videos w files output_dir use_gpu tr ->
  let fs := futures w files output_dir use_gpu in
  bar_n BatchBar tr = of_Z (Z.of_nat (returned fs))
  /\ Permutation (reported tr) (raised fs)
  /\ returned fs + length (raised fs) = length files.
Proof.
  intros Hrun fs. subst fs.
  destruct files as [| file files'] eqn:Hfiles.
  - destruct Hrun as (body & Hbody%interleave_Permutation & ->).
    symmetry in Hbody. apply Permutation_nil in Hbody. subst body.
    cbn. repeat split; constructor.
  - rewrite <- Hfiles in *.
    assert (Hne : files <> []) by now rewrite Hfiles.
    destruct (submitted_show w (batch_bar files) output_dir use_gpu eq_refl
                (batch_bar_truthy files Hne) files) as (H1 & H2 & H3).
    change (map (submit w (batch_bar files) output_dir use_gpu) files)
      with (futures w files output_dir use_gpu) in H1, H2, H3.
    apply process_videos_Permutation in Hrun.
    repeat split; trivial.
    + rewrite bar_n_batch.
      assert (Hupd : batch_updates tr =
                     repeat (of_Z 1) (returned (futures w files output_dir use_gpu))).
      { apply Permutation_repeat. rewrite <- H1, <- batch_updates_concat.
        unfold batch_updates at 1. rewrite Hrun. reflexivity. }
      rewrite Hupd. apply sum_of_ones.
    + rewrite <- H2, <- reported_concat. unfold reported at 1. now rewrite Hrun.
Qed.

(* ================================================================= *)
(** ** Media prober *)

(** C7, as stated, fails.  [ffprobe] prints a number and exits with status
    1: the probe returns the number. *)
Lemma probe_status_counterexample :
  subprocess_run (uniform_world "12.5" "128000" "" 1 0) (bitrate_cmd "/in/a.mp4")
  = Some (1%Z, "128000")
  /\ get_video_bitrate (uniform_world "12.5" "128000" "" 1 0) "/in/a.mp4"
     = ([EvRun (bitrate_cmd "/in/a.mp4")], Return (of_Z 128))
  /\ get_video_duration (uniform_world "12.5" "128000" "" 1 0) "/in/a.mp4"
     = ([EvRun (duration_cmd "/in/a.mp4")], Return (fin (25 # 2))).
Proof. repeat split; vm_compute; reflexivity. Qed.

(** C7, amended.  Each probe raises [FileNotFoundError] when the tool cannot
    be started and [ValueError] when what it printed, once stripped, is not
    a float literal; otherwise it returns, whatever the exit status.  When
    a probe raises, so does the task or the conversion that issued it; and
    every run of a batch holds the events of all its tasks and reports the
    errors of those that raised. *)
Theorem probe_failures w input :
  (subprocess_run w (duration_cmd input) = None ->
   result (get_video_duration w input) = Raise FileNotFoundError)
  /\ (forall code out, subprocess_run w (duration_cmd input) = Some (code, out) ->
      match float (strip out) with
      | None => result (get_video_duration w input) = Raise ValueError
      | Some x => result (get_video_duration w input) = Return x
      end)
  /\ (subprocess_run w (bitrate_cmd input) = None ->
      result (get_video_bitrate w input) = Raise FileNotFoundError)
  /\ (forall code out, subprocess_run w (bitrate_cmd input) = Some (code, out) ->
      match float (strip out) with
      | None => result (get_video_bitrate w input) = Raise ValueError
      | Some x => exists y, fdiv x (of_Z 1000) = Some y /\
                            result (get_video_bitrate w input) = Return y
      end)
  /\ (forall e output use_gpu pbar,
      result (get_video_bitrate w input) = Raise e ->
      result (copy_or_compress_video w input output use_gpu pbar) = Raise e)
  /\ (forall e output use_gpu pbar,
      result (get_video_duration w input) = Raise e ->
      (exists e', result (copy_video w input output pbar) = Raise e')
      /\ (exists e', result (compress_video w input output use_gpu pbar) = Raise e'))
  /\ (forall files output_dir use_gpu tr,
      process_videos w files output_dir use_gpu tr ->
      Permutation tr
        (EvBarNew BatchBar "Processing videos" (of_Z (Z.of_nat (length files))) ::
         EvBarClose BatchBar ::
         concat (map future_events (futures w files output_dir use_gpu)))
      /\ Permutation (reported tr) (raised (futures w files output_dir use_gpu))).
Proof.
  assert (Hconv : forall e cmd desc pbar,
            result (get_video_duration w input) = Raise e ->
            exists e', result (convert w cmd desc input pbar) = Raise e').
  { intros e cmd desc pbar He. rewrite convert_cases, He.
    destruct (subprocess_Popen w cmd); cbn; eauto. }
  split; [| split; [| split; [| split; [| split; [| split]]]]].
  - rewrite get_video_duration_cases. cbn [result snd]. now intros ->.
  - rewrite get_video_duration_cases. cbn [result snd].
    intros code out ->. now destruct (float (strip out)).
  - rewrite get_video_bitrate_cases. cbn [result snd]. now intros ->.
  - rewrite get_video_bitrate_cases. cbn [result snd].
    intros code out ->. destruct (float (strip out)) as [x |]; [| reflexivity].
    destruct (fdiv_by_1000 x) as [y Hy]. exists y. now rewrite Hy.
  - intros e output use_gpu pbar He. now rewrite task_cases, He.
  - intros e output use_gpu pbar He.
    rewrite copy_video_convert, compress_video_convert. split; eapply Hconv, He.
  - intros files output_dir use_gpu tr Hrun. split.
    + now apply process_videos_Permutation.
    + now apply process_videos_counts.
Qed.

Lemma probe_failures_witness :
  result (get_video_bitrate picky_world "/home/user/b.avi") = Raise ValueError
  /\ result (copy_or_compress_video picky_world "/home/user/b.avi" "/out/b_s.mp4"
               false None) = Raise ValueError
  /\ Permutation
       (reported (process_videos_serial picky_world ["a.mp4"; "b.avi"] "/out" false))
       (raised (futures picky_world ["a.mp4"; "b.avi"] "/out" false)).
Proof.
  pose proof (probe_failures picky_world "/home/user/b.avi")
    as (_ & _ & _ & Hb & Ht & _ & Hrun).
  split; [exact (Hb 1%Z ("N/A" ++ [LF]) eq_refl) |].
  split; [exact (Ht ValueError "/out/b_s.mp4" false None (Hb 1%Z ("N/A" ++ [LF]) eq_refl)) |].
  exact (proj2 (Hrun ["a.mp4"; "b.avi"] "/out" false _ (process_videos_serial_run _ _ _ _))).
Defined.

(* ================================================================= *)
(** ** Conversion strategy *)

(** C4.  When the probe returns [bitrate]: at most 1000 kbps, the file is
    converted with [copy_video] (after the notice is printed); more than
    1000 kbps, with [compress_video]; exactly 1000 kbps, with [copy_video]. *)
Theorem strategy_threshold w input output use_gpu pbar evs bitrate :
  get_video_bitrate w input = (evs, Return bitrate) ->
  (fle bitrate (of_Z 1000) = true ->
   copy_or_compress_video w input output use_gpu pbar =
   ((evs, Return tt) ;;
    emit (EvPrint (LowBitrate (posixpath.basename input))) ;;
    copy_video w input output pbar))
  /\ (fgt bitrate (of_Z 1000) = true ->
      copy_or_compress_video w input output use_gpu pbar =
      ((evs, Return tt) ;; compress_video w input output use_gpu pbar))
  /\ (bitrate = of_Z 1000 ->
      copy_or_compress_video w input output use_gpu pbar =
      ((evs, Return tt) ;;
       emit (EvPrint (LowBitrate (posixpath.basename input))) ;;
       copy_video w input output pbar)).
Proof.
  intros Hprobe.
  assert (Hcopy : fle bitrate (of_Z 1000) = true ->
                  copy_or_compress_video w input output use_gpu pbar =
                  ((evs, Return tt) ;;
                   emit (EvPrint (LowBitrate (posixpath.basename input))) ;;
                   copy_video w input output pbar)).
  { intros Hle. unfold copy_or_compress_video. rewrite Hprobe.
    unfold bind at 1 4. now rewrite Hle. }
  repeat split.
  - exact Hcopy.
  - intros Hgt%fgt_not_fle. unfold copy_or_compress_video. rewrite Hprobe.
    unfold bind at 1 2. now rewrite Hgt.
  - intros ->. now apply Hcopy.
Qed.

Lemma strategy_threshold_witness :
  copy_or_compress_video
    (uniform_world "12.5" "1000000" "" 0 0) "/in/a.avi" "/out/a_s.mp4" true None =
  (([EvRun ["ffprobe"; "-v"; "error"; "-show_entries"; "format=bit_rate";
            "-of"; "default=noprint_wrappers=1:nokey=1"; "/in/a.avi"]],
    Return tt) ;;
   emit (EvPrint (LowBitrate "a.avi")) ;;
   copy_video (uniform_world "12.5" "1000000" "" 0 0)
     "/in/a.avi" "/out/a_s.mp4" None).
Proof.
  exact (proj2 (proj2 (strategy_threshold
                         (uniform_world "12.5" "1000000" "" 0 0)
                         "/in/a.avi" "/out/a_s.mp4" true None _ _ eq_refl))
               eq_refl).
Defined.

(* ================================================================= *)
(** ** Conversion executor *)

(* ----------------------------------------------------------------- *)
(** *** Reported progress *)




(* ----------------------------------------------------------------- *)
(** *** Lines without a time *)

(** A line without [time=] is skipped. *)
Lemma on_line_without_token line p :
  contains line "time=" = false -> on_line line p = ([], Return p).
Proof. intros H. now rewrite on_line_cases, H. Qed.

(** A line in which the pattern finds no match is skipped. *)
Lemma on_line_without_match line p :
  re.search time_re line = None -> on_line line p = ([], Return p).
Proof.
  intros H. rewrite on_line_cases, H. now destruct (contains line "time=").
Qed.

(** A line gives at most one update, and none when the loop raises on it. *)
Lemma on_line_updates line p :
  match result (on_line line p) with
  | Return _ => length (updates (events (on_line line p))) <= 1
  | Raise _ => events (on_line line p) = []
  end.
Proof.
  rewrite on_line_cases.
  destruct (contains line "time="); [| cbn; lia].
  destruct (re.search time_re line) as [ts |]; [| cbn; lia].
  destruct (result (current_time_of ts)); cbn; trivial.
Qed.

(** The reading loop raises on a line only when the pattern matched a text
    in which the character matched by the dot is not a dot; the exception is
    a [ValueError]. *)
Lemma on_line_raises line p e :
  result (on_line line p) = Raise e ->
  e = ValueError
  /\ exists h m s1 c s2,
       re.search time_re line = Some (h ++ ":" ++ m ++ ":" ++ s1 ++ [c] ++ s2)
       /\ digits h /\ digits m /\ digits s1 /\ digits s2
       /\ char_eqb c "." = false.
Proof.
  rewrite on_line_cases.
  destruct (contains line "time="); [| discriminate].
  destruct (re.search time_re line) as [ts |] eqn:Hts; [| discriminate].
  destruct (result (current_time_of ts)) as [t | e'] eqn:Ht; [discriminate |].
  intros [= ->]. split.
  { revert Ht. unfold current_time_of.
    destruct (map float (split ":" ts)) as [| [h |] [| [m |] [| [s |] [|]]]];
      cbn; congruence. }
  destruct (search_sound _ _ _ Hts) as (pre & pt & rest & _ & Hp).
  apply time_re_captures in Hp.
  destruct Hp as (h & m & s1 & c & s2 & -> & Hh & Hm & Hs1 & Hs2 & _).
  exists h, m, s1, c, s2. repeat split; try apply Hh; try apply Hm; try apply Hs1;
    try apply Hs2.
  destruct (char_eqb c ".") eqn:Hc; [| reflexivity].
  apply char_eqb_eq in Hc. subst c. exfalso. revert Ht.
  unfold current_time_of. cbn [app].
  rewrite (split_app_sep _ _ _ (digits_no_colon _ Hh)).
  rewrite (split_app_sep _ _ _ (digits_no_colon _ Hm)).
  rewrite split_notin.
  2: { intros [Hin | [[=] | Hin]]%in_app_or.
       - now apply (digits_no_colon _ Hs1).
       - now apply (digits_no_colon _ Hs2). }
  cbn [map].
  destruct (float_digits h Hh) as [qh ->], (float_digits m Hm) as [qm ->].
  destruct (float_digits_dot s1 s2 Hs1 Hs2) as [qs ->]. discriminate.
Qed.

(** C6: the code departs from the claim.  A line that holds [time=] followed
    by three fields of digits, the third cut by a character that is not a
    dot, is matched by the pattern, whose dot is not escaped; [float] rejects
    the third field and the loop raises [ValueError] instead of skipping the
    line.  Here the line is the one in which [ffmpeg] names its input, a
    file called [time=1:2:3x4.avi]: its conversion raises, the batch bar
    does not move and the error is reported. *)
Theorem malformed_time_raises :
  stderr_lines
    {| args := copy_cmd "/in/time=1:2:3x4.avi" "/out/time=1:2:3x4_s.mp4";
       stderr_text := "Input #0, avi, from '/in/time=1:2:3x4.avi':" ++ [LF];
       returncode := 0 |}
  = ["Input #0, avi, from '/in/time=1:2:3x4.avi':" ++ [LF]]
  /\ re.search time_re ("Input #0, avi, from '/in/time=1:2:3x4.avi':" ++ [LF])
     = Some "1:2:3x4"
  /\ float "3x4" = None
  /\ (forall p, on_line ("Input #0, avi, from '/in/time=1:2:3x4.avi':" ++ [LF]) p
                = ([], Raise ValueError))
  /\ copy_video echo_world "/in/time=1:2:3x4.avi" "/out/time=1:2:3x4_s.mp4" None
     = ([EvPopen (copy_cmd "/in/time=1:2:3x4.avi" "/out/time=1:2:3x4_s.mp4");
         EvRun (duration_cmd "/in/time=1:2:3x4.avi");
         EvBarNew (FileBar "/in/time=1:2:3x4.avi")
           "Copying and converting to MP4 time=1:2:3x4.avi" (fin (25 # 2))],
        Raise ValueError)
  /\ reported (process_videos_serial echo_world ["/in/time=1:2:3x4.avi"] "/out" false)
     = [ValueError]
  /\ bar_n BatchBar
       (process_videos_serial echo_world ["/in/time=1:2:3x4.avi"] "/out" false)
     = of_Z 0.
Proof.
  repeat split; try intros p; vm_compute; reflexivity.
Qed.

(* ----------------------------------------------------------------- *)
(** *** The exit status of the encoder *)




(* ================================================================= *)
(** ** Batch driver *)

(* ----------------------------------------------------------------- *)
(** *** File discovery *)

(** C9.  [get_all_files] returns the paths [root/filename] of the files
    found by the recursive walk whose names end, whatever the case of their
    letters, with one of the five extensions, and nothing else. *)
Theorem file_discovery tree directory p :
  In p (get_all_files tree directory) <->
  exists root filename,
    file_under directory tree root filename
    /\ has_video_extension filename
    /\ p = posixpath.join root filename.
Proof.
  unfold get_all_files. rewrite in_flat_map. split.
  - intros ([[root dirs] names] & Hwalk & Hin).
    unfold files_in in Hin. apply in_map_iff in Hin.
    destruct Hin as (filename & <- & [Hname Hext]%filter_In).
    exists root, filename. repeat split.
    + apply walk_finds. eauto.
    + now apply endswith_any_lower.
  - intros (root & filename & (dirs & names & Hwalk & Hname)%walk_finds & Hext & ->).
    exists (root, dirs, names). split; trivial.
    unfold files_in. apply in_map, filter_In. split; trivial.
    now apply endswith_any_lower.
Qed.

(* ----------------------------------------------------------------- *)
(** *** Output paths *)

(** C8.  The task of [file] reads the absolute path of [file] and writes to
    the output directory joined with the base name of that path, stripped of
    its extension and followed by [_s.mp4].  For a file [root/filename], as
    the walk gives them, that base name is [filename]. *)
Theorem output_path_derivation w output_dir file :
  fst (paths_of w output_dir file) = posixpath.abspath (getcwd w) file
  /\ snd (paths_of w output_dir file) =
     posixpath.join output_dir
       (fst (posixpath.splitext
               (posixpath.basename (fst (paths_of w output_dir file))))
        ++ "_s.mp4")
  /\ (forall root filename,
        entry_name filename -> file = posixpath.join root filename ->
        snd (paths_of w output_dir file) =
        posixpath.join output_dir (fst (posixpath.splitext filename) ++ "_s.mp4")).
Proof.
  assert (Hout : snd (paths_of w output_dir file) =
                 posixpath.join output_dir
                   (fst (posixpath.splitext
                           (posixpath.basename (fst (paths_of w output_dir file))))
                    ++ "_s.mp4")).
  { rewrite output_file_eq. now rewrite splitext_basename. }
  repeat split; trivial.
  intros root filename Hname ->. rewrite Hout. cbn [paths_of fst].
  now rewrite basename_abspath.
Qed.

Lemma output_path_derivation_witness :
  snd (paths_of bare_world "/out" (posixpath.join "videos/sub" "clip.final.MKV")) =
  posixpath.join "/out" (fst (posixpath.splitext "clip.final.MKV") ++ "_s.mp4").
Proof.
  refine (proj2 (proj2 (output_path_derivation bare_world "/out"
                          (posixpath.join "videos/sub" "clip.final.MKV")))
                "videos/sub" "clip.final.MKV" _ eq_refl).
  unfold entry_name. repeat split; try discriminate.
  cbn. intros H. repeat destruct H as [H | H]; try discriminate H. exact H.
Defined.

(** C5, as stated, fails.  Two files found by the walk, in two directories
    and with two extensions, are given the same output path. *)
Lemma output_collision_counterexample :
  get_all_files
    (os.Dir "in" false
       [os.File "a.mp4"; os.Dir "sub" false [os.File "a.avi"]]) "/in"
  = ["/in/a.mp4"; "/in/sub/a.avi"]
  /\ map (fun file => snd (paths_of bare_world "/out" file))
         ["/in/a.mp4"; "/in/sub/a.avi"]
     = ["/out/a_s.mp4"; "/out/a_s.mp4"].
Proof. split; vm_compute; reflexivity. Qed.

(** C5, amended.  The output path of a task differs from its input path;
    and two tasks have the same output path exactly when the base names of
    their input paths, stripped of their extensions, are equal. *)
Theorem output_paths w output_dir file1 file2 :
  snd (paths_of w output_dir file1) <> fst (paths_of w output_dir file1)
  /\ (snd (paths_of w output_dir file1) = snd (paths_of w output_dir file2)
      <->
      fst (posixpath.splitext (posixpath.basename (fst (paths_of w output_dir file1))))
      = fst (posixpath.splitext (posixpath.basename (fst (paths_of w output_dir file2))))).
Proof.
  split.
  - rewrite output_file_eq. set (input := fst (paths_of w output_dir file1)).
    intros Heq. apply (f_equal posixpath.basename) in Heq.
    rewrite (basename_join _ _ (output_name_no_sep _)) in Heq.
    destruct (splitext_spec input) as (Hcut & Hsep & Hext).
    rewrite <- Hcut in Heq at 2. rewrite (basename_app _ _ Hsep) in Heq.
    apply app_inv_head in Heq.
    destruct Hext as [Hext | [e Hext]]; rewrite Hext in Heq; discriminate.
  - rewrite !output_file_eq, !splitext_basename. split.
    + intros Heq. apply (f_equal posixpath.basename) in Heq.
      rewrite !(basename_join _ _ (output_name_no_sep _)) in Heq.
      now apply app_inv_tail in Heq.
    + now intros ->.
Qed.

(* ----------------------------------------------------------------- *)
(** *** The files-completed counter *)

(** C2, as stated, fails.  In [picky_world] the probe of [b.avi] raises:
    two files are attempted, the batch bar ends at 1 and one error is
    reported. *)
Lemma completed_count_counterexample :
  process_videos picky_world ["a.mp4"; "b.avi"] "/out" false
    (process_videos_serial picky_world ["a.mp4"; "b.avi"] "/out" false)
  /\ length ["a.mp4"; "b.avi"] = 2
  /\ bar_n BatchBar (process_videos_serial picky_world ["a.mp4"; "b.avi"] "/out" false)
     = of_Z 1
  /\ reported (process_videos_serial picky_world ["a.mp4"; "b.avi"] "/out" false)
     = [ValueError].
Proof.
  split; [apply process_videos_serial_run |].
  repeat split; vm_compute; reflexivity.
Qed.

(** C2, amended.  In every run of a batch, a task moves the batch bar by one
    exactly when it returns (whatever the exit status of its encoder) and
    not at all when it raises; so the bar ends at the number of tasks that
    returned, the run reports the errors of the tasks that raised, and the
    two numbers add up to the number of files. *)
Theorem completed_counts_returned_tasks w files output_dir use_gpu tr :
  process_videos w files output_dir use_gpu tr ->
  (forall file, In file files ->
     batch_updates (events (submit w (batch_bar files) output_dir use_gpu file)) =
     match result (submit w (batch_bar files) output_dir use_gpu file) with
     | Return _ => [of_Z 1]
     | Raise _ => []
     end)
  /\ bar_n BatchBar tr =
     of_Z (Z.of_nat (returned (futures w files output_dir use_gpu)))
  /\ Permutation (reported tr) (raised (futures w files output_dir use_gpu))
  /\ returned (futures w files output_dir use_gpu)
     + length (raised (futures w files output_dir use_gpu)) = length files.
Proof.
  intros Hrun. split; [| now apply process_videos_counts].
  intros file Hin. unfold submit.
  destruct (paths_of w output_dir file) as [input output].
  apply future_shows; [reflexivity |].
  apply batch_bar_truthy. now intros ->.
Qed.

Lemma completed_counts_returned_tasks_witness :
  bar_n BatchBar (process_videos_serial picky_world ["a.mp4"; "b.avi"] "/out" false) =
  of_Z (Z.of_nat (returned (futures picky_world ["a.mp4"; "b.avi"] "/out" false))).
Proof.
  exact (proj1 (proj2 (completed_counts_returned_tasks
                         picky_world ["a.mp4"; "b.avi"] "/out" false _
                         (process_videos_serial_run _ _ _ _)))).
Defined.

(* ----------------------------------------------------------------- *)
(** *** A failing probe *)

(** C10.  When the bitrate probe of a file raises [e], the task of that file
    is the probe alone: no encoder is started (so no output file is made)
    and the batch bar is not moved.  In every run of a batch that holds the
    file, [e] is reported, and all the rest of the run is, apart from the
    opening and the closing of the batch bar, what the other tasks do, each
    of them whole and in its order. *)
Theorem probe_failure_is_contained w l1 file l2 output_dir use_gpu e :
  result (get_video_bitrate w (fst (paths_of w output_dir file))) = Raise e ->
  (forall pbar,
     submit w pbar output_dir use_gpu file =
     ([EvRun (bitrate_cmd (fst (paths_of w output_dir file)))], Raise e))
  /\ (forall pbar,
        launched (events (submit w pbar output_dir use_gpu file)) = []
        /\ batch_updates (events (submit w pbar output_dir use_gpu file)) = [])
  /\ (forall tr,
        process_videos w (l1 ++ file :: l2) output_dir use_gpu tr ->
        Permutation tr
          (EvBarNew BatchBar "Processing videos"
             (of_Z (Z.of_nat (length (l1 ++ file :: l2)))) ::
           EvBarClose BatchBar ::
           EvRun (bitrate_cmd (fst (paths_of w output_dir file))) ::
           EvPrint (ErrorProcessing e) ::
           concat (map future_events
                     (map (submit w (batch_bar (l1 ++ file :: l2)) output_dir use_gpu)
                          (l1 ++ l2))))
        /\ (forall other, In other (l1 ++ l2) ->
             in_order (future_events
                         (submit w (batch_bar (l1 ++ file :: l2)) output_dir use_gpu
                            other)) tr)).
Proof.
  intros He.
  assert (Hsub : forall pbar,
            submit w pbar output_dir use_gpu file =
            ([EvRun (bitrate_cmd (fst (paths_of w output_dir file)))], Raise e)).
  { intros pbar. unfold submit.
    destruct (paths_of w output_dir file) as [input output]. cbn [fst] in *.
    now rewrite task_cases, He. }
  split; [exact Hsub |]. split; [intros pbar; now rewrite Hsub |].
  intros tr Hrun. split.
  - apply process_videos_Permutation in Hrun.
    rewrite Hrun. do 2 constructor.
    unfold futures. rewrite !map_app, !concat_app. cbn [map concat].
    rewrite Hsub. unfold future_events at 2. cbn [events result fst snd app].
    apply (Permutation_app_swap_app _ [_; _]).
  - intros other Hin. apply (process_videos_in_order _ _ _ _ _ _ Hrun).
    apply in_app_or in Hin. apply in_or_app. destruct Hin; [now left | right; now right].
Qed.

Lemma probe_failure_is_contained_witness :
  Permutation
    (process_videos_serial picky_world ["a.mp4"; "b.avi"; "c.mkv"] "/out" true)
    (EvBarNew BatchBar "Processing videos" (of_Z 3) ::
     EvBarClose BatchBar ::
     EvRun (bitrate_cmd "/home/user/b.avi") ::
     EvPrint (ErrorProcessing ValueError) ::
     concat (map future_events
               (map (submit picky_world (batch_bar ["a.mp4"; "b.avi"; "c.mkv"]) "/out" true)
                    ["a.mp4"; "c.mkv"]))).
Proof.
  exact (proj1 (proj2 (proj2 (probe_failure_is_contained
                                picky_world ["a.mp4"] "b.avi" ["c.mkv"] "/out" true
                                ValueError eq_refl))
                      _ (process_videos_serial_run _ _ _ _))).
Defined.

(* ================================================================= *)
(** * Further properties of the script *)

(* ================================================================= *)
(** ** The GPU check *)

Lemma contains_iff s p : contains s p = true <-> exists a b, s = a ++ p ++ b.
Proof.
  induction s as [| c s IH]; cbn [contains]; rewrite orb_true_iff, startswith_iff.
  - split.
    + intros [[r H] | [=]]. now exists [], r.
    + intros (a & b & H). left. destruct a as [| x a]; [now exists b | discriminate].
  - rewrite IH. split.
    + intros [[r H] | (a & b & ->)]; [now exists [], r | now exists (c :: a), b].
    + intros (a & b & H). destruct a as [| x a]; [left; now exists b |].
      right. injection H as -> ->. now exists a, b.
Qed.

Lemma lower_char_cuda x :
  (lower_char x = "c"%char <-> x = "c"%char \/ x = "C"%char)
  /\ (lower_char x = "u"%char <-> x = "u"%char \/ x = "U"%char)
  /\ (lower_char x = "d"%char <-> x = "d"%char \/ x = "D"%char)
  /\ (lower_char x = "a"%char <-> x = "a"%char \/ x = "A"%char).
Proof.
  destruct x as [[] [] [] [] [] [] [] []]; cbv;
    repeat split; intros H; try discriminate H; auto;
    destruct H as [H | H]; discriminate H.
Qed.

(** X1.  [check_gpu_support] runs [ffmpeg -hide_banner -hwaccels] once.  It
    raises [FileNotFoundError] when the program cannot be started; else it
    returns, whatever the exit status, and the answer is [True] exactly
    when the output holds the letters c, u, d, a in a row, each in either
    case. *)
Theorem gpu_support_reads_cuda w :
  match subprocess_run w hwaccels_cmd with
  | None => check_gpu_support w = ([EvRun hwaccels_cmd], Raise FileNotFoundError)
  | Some (status, out) =>
      exists answer,
        check_gpu_support w = ([EvRun hwaccels_cmd], Return answer)
        /\ (answer = true <->
            exists pre c u d a post,
              out = pre ++ [c; u; d; a] ++ post
              /\ (c = "c"%char \/ c = "C"%char) /\ (u = "u"%char \/ u = "U"%char)
              /\ (d = "d"%char \/ d = "D"%char) /\ (a = "a"%char \/ a = "A"%char))
  end.
Proof.
  unfold check_gpu_support, run. fold hwaccels_cmd.
  destruct (subprocess_run w hwaccels_cmd) as [[status out] |]; [| reflexivity].
  exists (contains (lower out) "cuda"). split; [reflexivity |].
  rewrite contains_iff. split.
  - intros (x & y & H). unfold lower in H.
    apply map_eq_app_inv in H. destruct H as (pre & rest & -> & _ & H).
    apply map_eq_app_inv in H. destruct H as (mid & post & -> & H & _).
    destruct mid as [| c [| u [| d [| a [|]]]]]; try discriminate H.
    injection H as Hc Hu Hd Ha.
    exists pre, c, u, d, a, post. split; [reflexivity |].
    pose proof (lower_char_cuda c) as (Ec & _).
    pose proof (lower_char_cuda u) as (_ & Eu & _).
    pose proof (lower_char_cuda d) as (_ & _ & Ed & _).
    pose proof (lower_char_cuda a) as (_ & _ & _ & Ea).
    tauto.
  - intros (pre & c & u & d & a & post & -> & Hc & Hu & Hd & Ha).
    exists (lower pre), (lower post). unfold lower. rewrite !map_app. cbn [map].
    pose proof (lower_char_cuda c) as (Ec & _).
    pose proof (lower_char_cuda u) as (_ & Eu & _).
    pose proof (lower_char_cuda d) as (_ & _ & Ed & _).
    pose proof (lower_char_cuda a) as (_ & _ & _ & Ea).
    apply Ec in Hc. apply Eu in Hu. apply Ed in Hd. apply Ea in Ha.
    now rewrite Hc, Hu, Hd, Ha.
Qed.

(* ================================================================= *)
(** ** What [float] reads *)

Lemma fin_eq a b : (a == b)%Q -> fin a = fin b.
Proof. intros H. unfold fin. f_equal. now apply Qred_complete. Qed.

Lemma fadd_fin a b : fadd (fin a) (fin b) = fin (a + b).
Proof. unfold fin at 1 2. cbn [fadd]. apply fin_eq. now rewrite !Qred_correct. Qed.

Lemma fmul_fin a b : fmul (fin a) (fin b) = fin (a * b).
Proof. unfold fin at 1 2. cbn [fmul]. apply fin_eq. now rewrite !Qred_correct. Qed.

Lemma digits_last s : digits s -> exists r d, s = r ++ [d] /\ isdecimal d = true.
Proof.
  intros [Hne Hall]. destruct (exists_last Hne) as (r & d & ->).
  exists r, d. split; [reflexivity |].
  rewrite forallb_app in Hall. apply andb_true_iff in Hall. cbn in Hall.
  now destruct (isdecimal d).
Qed.

Lemma digits_app s1 s2 : digits s1 -> digits s2 -> digits (s1 ++ s2).
Proof.
  intros [Hne1 H1] [_ H2]. split; [now destruct s1 |].
  now rewrite forallb_app, H1, H2.
Qed.

(** [float] on a string that starts with a digit and does not end with a
    blank: the underscores are dropped and the rest is read as a number. *)
Lemma float_digit_ends d rest :
  isdecimal d = true ->
  match rev rest with c :: _ => float_blank c = false | [] => True end ->
  float (d :: rest) =
  match drop_underscores d rest with
  | Some u => option_map fin (parse_number (d :: u))
  | None => None
  end.
Proof.
  intros Hd Hlast.
  destruct (digit_facts d Hd) as (Hsp & Hu & Hm & Hp & _ & Hlow & Hi & Hn).
  unfold float.
  assert (Hstrip : strip_by float_blank (d :: rest) = d :: rest).
  { unfold strip_by. cbn [lstrip_by]. rewrite Hsp. cbn [rev].
    rewrite lstrip_id; [now rewrite rev_app_distr, rev_involutive |].
    destruct (rev rest) as [| c r]; cbn [app]; trivial. }
  rewrite Hstrip. cbn [drop_underscores]. rewrite Hu.
  change (char_eqb (chr 0) "_") with false. cbn [andb].
  destruct (drop_underscores d rest) as [u |]; [| reflexivity].
  cbn [option_map split_sign]. rewrite Hm, Hp. cbn [lower map]. rewrite Hlow.
  unfold str_eqb.
  destruct (list_eq_dec ascii_dec (d :: map lower_char u) "inf") as [[= -> _] |];
    [discriminate Hi |].
  destruct (list_eq_dec ascii_dec (d :: map lower_char u) "infinity") as [[= -> _] |];
    [discriminate Hi |].
  destruct (list_eq_dec ascii_dec (d :: map lower_char u) "nan") as [[= -> _] |];
    [discriminate Hn |].
  cbn [orb]. now destruct (parse_number (d :: u)).
Qed.

Lemma drop_underscores_absent s : forall prev,
  char_eqb prev "_" = false -> ~ In "_"%char s -> drop_underscores prev s = Some s.
Proof.
  induction s as [| c s IH]; intros prev Hprev Hnot; cbn [drop_underscores].
  - now rewrite Hprev.
  - assert (Hc : char_eqb c "_" = false).
    { apply char_eqb_neq. intros ->. apply Hnot. now left. }
    rewrite Hc, Hprev. cbn [andb]. rewrite (IH c Hc); [reflexivity |].
    intros Hin. apply Hnot. now right.
Qed.

Lemma digits_no_underscore s : forallb isdecimal s = true -> ~ In "_"%char s.
Proof.
  intros Hall Hin. rewrite forallb_forall in Hall.
  apply Hall, digit_facts in Hin. now destruct Hin as (_ & [=] & _).
Qed.

(** One underscore between two runs of digits is dropped. *)
Lemma drop_underscores_between r s2 : forall prev,
  isdecimal prev = true -> forallb isdecimal r = true -> digits s2 ->
  drop_underscores prev (r ++ "_"%char :: s2) = Some (r ++ s2).
Proof.
  induction r as [| c r IH]; intros prev Hprev Hr Hs2; cbn [app drop_underscores].
  - rewrite char_eqb_refl, Hprev.
    destruct (digits_head _ Hs2) as (d2 & r2 & -> & Hd2). cbn [drop_underscores].
    destruct (digit_facts d2 Hd2) as (_ & Hu & _). rewrite Hu, Hd2, char_eqb_refl.
    cbn [negb andb].
    rewrite (drop_underscores_absent r2 d2 Hu); [reflexivity |].
    destruct Hs2 as [_ Hall]. cbn in Hall. apply andb_true_iff in Hall.
    now apply digits_no_underscore.
  - cbn in Hr. apply andb_true_iff in Hr. destruct Hr as [Hc Hr].
    destruct (digit_facts c Hc) as (_ & Hu & _). destruct (digit_facts prev Hprev) as (_ & Hpu & _).
    rewrite Hu, Hpu. cbn [andb]. now rewrite (IH c Hc Hr Hs2).
Qed.

Lemma parse_number_digits s :
  digits s -> parse_number s = Some (inject_Z (int_of_digits s) * 1)%Q.
Proof.
  intros [Hne Hall]. unfold parse_number. rewrite (span_digits_all _ Hall), app_nil_r.
  now destruct s.
Qed.

Lemma parse_number_decimal s f :
  digits s -> digits f ->
  parse_number (s ++ "."%char :: f) =
  Some (inject_Z (int_of_digits (s ++ f)) * Qpower 10 (- Z.of_nat (length f)))%Q.
Proof.
  intros [Hne Hs] [_ Hf]. unfold parse_number.
  rewrite (span_digits_app _ "." f Hs eq_refl), char_eqb_refl, (span_digits_all _ Hf).
  destruct s as [| d r]; [contradiction | reflexivity].
Qed.

Lemma parse_number_exponent s e x :
  digits s -> is_exponent_mark e = true -> digits x ->
  parse_number (s ++ e :: x) =
  Some (inject_Z (int_of_digits s) * Qpower 10 (int_of_digits x + 0))%Q.
Proof.
  intros [Hne Hs] He Hx.
  assert (He' : isdecimal e = false /\ char_eqb e "." = false).
  { unfold is_exponent_mark in He. apply orb_true_iff in He.
    destruct He as [->%char_eqb_eq | ->%char_eqb_eq]; split; reflexivity. }
  destruct He' as [Hed Hedot].
  unfold parse_number. rewrite (span_digits_app _ e x Hs Hed), Hedot, app_nil_r, He.
  destruct (digits_head _ Hx) as (d & r & -> & Hd).
  destruct (digit_facts d Hd) as (_ & _ & Hm & Hp & _).
  cbn [split_sign]. rewrite Hm, Hp.
  destruct Hx as [_ Hall]. rewrite (span_digits_all _ Hall).
  destruct s as [| d0 r0]; [contradiction | reflexivity].
Qed.

(** A character between two runs of digits that [float] does not accept
    there. *)
Lemma parse_number_rejects s c x :
  digits s -> joins_digits c = false ->
  parse_number (s ++ c :: x) = None.
Proof.
  intros [Hne Hs] Hc. unfold joins_digits in Hc.
  apply orb_false_iff in Hc. destruct Hc as [Hc He].
  apply orb_false_iff in Hc. destruct Hc as [Hc Hu].
  apply orb_false_iff in Hc. destruct Hc as [Hd Hdot].
  unfold parse_number. rewrite (span_digits_app _ c x Hs Hd), Hdot, app_nil_r, He.
  destruct s as [| d0 r0]; [contradiction | reflexivity].
Qed.

Lemma blank_not_digit d : isdecimal d = true -> float_blank d = false.
Proof. intros Hd. now destruct (digit_facts d Hd). Qed.

(** The last character of [r ++ c :: s2] is the last one of [s2], a digit. *)
Lemma ends_with_digit r c s2 :
  digits s2 ->
  match rev (r ++ c :: s2) with x :: _ => float_blank x = false | [] => True end.
Proof.
  intros Hs2. destruct (digits_last _ Hs2) as (r2 & d2 & -> & Hd2).
  rewrite app_comm_cons, app_assoc, rev_app_distr. cbn [rev app].
  now apply blank_not_digit.
Qed.

(** What [float] makes of two runs of digits joined by one character. *)
Lemma float_joined s1 c s2 :
  digits s1 -> digits s2 ->
  (joins_digits c = true -> exists q, float (s1 ++ c :: s2) = Some (fin q))
  /\ (joins_digits c = false -> float (s1 ++ c :: s2) = None).
Proof.
  intros Hs1 Hs2.
  destruct (digits_head _ Hs1) as (d & r & E & Hd).
  pose proof Hs1 as [_ Hall1]. pose proof Hs2 as [_ Hall2].
  assert (Hr : forallb isdecimal r = true).
  { rewrite E in Hall1. cbn in Hall1. now apply andb_true_iff in Hall1. }
  assert (Hfloat : float (s1 ++ c :: s2) =
                   match drop_underscores d (r ++ c :: s2) with
                   | Some u => option_map fin (parse_number (d :: u))
                   | None => None
                   end).
  { rewrite E. cbn [app]. apply float_digit_ends; trivial. now apply ends_with_digit. }
  rewrite Hfloat. clear Hfloat.
  assert (Hkeep : char_eqb c "_" = false ->
                  drop_underscores d (r ++ c :: s2) = Some (r ++ c :: s2)).
  { intros Hc. apply drop_underscores_absent; [now destruct (digit_facts d Hd) |].
    intros [Hin | [-> | Hin]]%in_app_or.
    - now apply (digits_no_underscore r).
    - discriminate Hc.
    - now apply (digits_no_underscore s2). }
  split.
  - intros Hc. unfold joins_digits in Hc.
    apply orb_true_iff in Hc. destruct Hc as [Hc | He].
    apply orb_true_iff in Hc. destruct Hc as [Hc | Hu].
    apply orb_true_iff in Hc. destruct Hc as [Hdig | Hdot].
    + rewrite Hkeep by now destruct (digit_facts c Hdig).
      assert (Hall : digits (d :: r ++ c :: s2)).
      { split; [discriminate |]. cbn. rewrite Hd, forallb_app, Hr. cbn. now rewrite Hdig, Hall2. }
      rewrite (parse_number_digits _ Hall). cbn. eauto.
    + apply char_eqb_eq in Hdot. subst c. rewrite Hkeep by reflexivity.
      change (d :: r ++ "."%char :: s2) with ((d :: r) ++ "."%char :: s2).
      rewrite <- E, (parse_number_decimal _ _ Hs1 Hs2). cbn. eauto.
    + apply char_eqb_eq in Hu. subst c.
      rewrite (drop_underscores_between r s2 d Hd Hr Hs2).
      change (d :: r ++ s2) with ((d :: r) ++ s2). rewrite <- E.
      rewrite (parse_number_digits _ (digits_app _ _ Hs1 Hs2)). cbn. eauto.
    + assert (Hc : char_eqb c "_" = false).
      { unfold is_exponent_mark in He. apply orb_true_iff in He.
        now destruct He as [->%char_eqb_eq | ->%char_eqb_eq]. }
      rewrite (Hkeep Hc).
      change (d :: r ++ c :: s2) with ((d :: r) ++ c :: s2).
      rewrite <- E, (parse_number_exponent _ _ _ Hs1 He Hs2). cbn. eauto.
  - intros Hc.
    assert (Hu : char_eqb c "_" = false).
    { unfold joins_digits in Hc. destruct (char_eqb c "_"); trivial.
      now rewrite !orb_true_r in Hc. }
    rewrite (Hkeep Hu).
    change (d :: r ++ c :: s2) with ((d :: r) ++ c :: s2).
    rewrite <- E, (parse_number_rejects _ _ _ Hs1 Hc). reflexivity.
Qed.

Lemma float_of_digits s : digits s -> float s = Some (of_Z (int_of_digits s)).
Proof.
  intros Hs. destruct (digits_head _ Hs) as (d & r & -> & Hd).
  rewrite (float_numeric d r _ Hd (digits_numeric _ (proj2 Hs)) (parse_number_digits _ Hs)).
  f_equal. apply fin_eq. ring.
Qed.

Lemma int_of_digits_from f : forall acc,
  fold_left (fun acc c => 10 * acc + digit_value c)%Z f acc =
  (acc * 10 ^ Z.of_nat (length f) + int_of_digits f)%Z.
Proof.
  unfold int_of_digits. induction f as [| c f IH]; intros acc.
  - cbn. lia.
  - cbn [fold_left length]. rewrite IH, (IH (10 * 0 + digit_value c)%Z).
    rewrite Nat2Z.inj_succ, Z.pow_succ_r by lia. ring.
Qed.

Lemma int_of_digits_app s f :
  int_of_digits (s ++ f) =
  (int_of_digits s * 10 ^ Z.of_nat (length f) + int_of_digits f)%Z.
Proof.
  unfold int_of_digits at 1. rewrite fold_left_app. apply int_of_digits_from.
Qed.

(** The value of a decimal literal: its integer part plus its fraction. *)
Lemma decimal_value a b k :
  (inject_Z (a * 10 ^ Z.of_nat k + b) * Qpower 10 (- Z.of_nat k)
   == inject_Z a + inject_Z b / inject_Z (10 ^ Z.of_nat k))%Q.
Proof.
  assert (Hpos : (0 < 10 ^ Z.of_nat k)%Z) by (apply Z.pow_pos_nonneg; lia).
  assert (Hne : ~ (inject_Z (10 ^ Z.of_nat k) == 0)%Q).
  { unfold Qeq. cbn [Qnum Qden inject_Z]. lia. }
  rewrite Qpower_opp.
  change 10%Q with (inject_Z 10).
  rewrite <- Zpower_Qpower by lia.
  rewrite inject_Z_plus, inject_Z_mult. now field.
Qed.

Lemma float_of_decimal s f :
  digits s -> digits f ->
  float (s ++ "."%char :: f) =
  Some (fin (inject_Z (int_of_digits s)
             + inject_Z (int_of_digits f) / inject_Z (10 ^ Z.of_nat (length f)))).
Proof.
  intros Hs Hf. destruct (digits_head _ Hs) as (d & r & E & Hd).
  assert (Hnum : forallb numeric (s ++ "."%char :: f) = true).
  { rewrite forallb_app, (digits_numeric _ (proj2 Hs)). cbn [forallb andb].
    now rewrite (digits_numeric _ (proj2 Hf)). }
  pose proof (parse_number_decimal _ _ Hs Hf) as Hparse.
  rewrite E in Hnum, Hparse |- *. cbn [app] in Hnum, Hparse |- *.
  rewrite (float_numeric d _ _ Hd Hnum Hparse). f_equal. apply fin_eq.
  change (d :: r ++ f) with ((d :: r) ++ f). rewrite int_of_digits_app.
  apply decimal_value.
Qed.

(* ================================================================= *)
(** ** What the probes read *)

Lemma lstrip_all f s : forallb f s = true -> lstrip_by f s = [].
Proof.
  induction s as [| c s IH]; [reflexivity |]. cbn.
  intros [-> H]%andb_true_iff. now apply IH.
Qed.

Lemma lstrip_app f pre s : forallb f pre = true -> lstrip_by f (pre ++ s) = lstrip_by f s.
Proof.
  induction pre as [| c pre IH]; [reflexivity |]. cbn.
  intros [-> H]%andb_true_iff. now apply IH.
Qed.

Lemma forallb_rev_true (f : ascii -> bool) l :
  forallb f l = true -> forallb f (rev l) = true.
Proof. rewrite !forallb_forall. intros H x Hx. apply H. now apply in_rev. Qed.

(** Stripping removes the padding around a text that neither starts nor
    ends with a character to strip. *)
Lemma strip_padded f pre s post :
  forallb f pre = true -> forallb f post = true ->
  match s with c :: _ => f c = false | [] => True end ->
  match rev s with c :: _ => f c = false | [] => True end ->
  strip_by f (pre ++ s ++ post) = s.
Proof.
  intros Hpre Hpost Hfirst Hlast. unfold strip_by. rewrite (lstrip_app _ _ _ Hpre).
  destruct s as [| c s].
  - cbn [app]. now rewrite (lstrip_all _ _ Hpost).
  - rewrite (lstrip_id f ((c :: s) ++ post) Hfirst), rev_app_distr.
    rewrite (lstrip_app f (rev post)) by now apply forallb_rev_true.
    rewrite (lstrip_id f (rev (c :: s)) Hlast). apply rev_involutive.
Qed.

Lemma space_not_digit d : isdecimal d = true -> isspace d = false.
Proof. destruct d as [[] [] [] [] [] [] [] []]; intros H; try discriminate H; reflexivity. Qed.

(** A number between blanks, as a probe prints it, is stripped to the
    number. *)
Lemma strip_number pre s post :
  forallb isspace pre = true -> forallb isspace post = true ->
  (exists d r, s = d :: r /\ isdecimal d = true) ->
  (exists r d, s = r ++ [d] /\ isdecimal d = true) ->
  strip (pre ++ s ++ post) = s.
Proof.
  intros Hpre Hpost (d & r & -> & Hd) (r' & d' & E & Hd').
  apply strip_padded; trivial.
  - now apply space_not_digit.
  - rewrite E, rev_app_distr. now apply space_not_digit.
Qed.

Lemma fle_thousandth z :
  fle (fin (inject_Z z / 1000)) (of_Z 1000) = (z <=? 1000000)%Z.
Proof.
  unfold fle, of_Z, fin. apply eq_true_iff_eq.
  rewrite Qle_bool_iff, !Qred_correct, Z.leb_le.
  unfold Qle, Qdiv, Qmult, Qinv, inject_Z. cbn [Qnum Qden]. lia.
Qed.

Lemma fdiv_thousand z :
  fdiv (of_Z z) (of_Z 1000) = Some (fin (inject_Z z / 1000)).
Proof.
  unfold of_Z, fin. cbn [fdiv].
  change (Qzero_bool (Qred (inject_Z 1000))) with false. cbn iota.
  f_equal. apply fin_eq. now rewrite !Qred_correct.
Qed.

(** X2.  [get_video_duration] returns the decimal number that [ffprobe]
    prints, whatever blanks surround it (the final line feed among them)
    and whatever the exit status. *)
Theorem duration_is_the_number_printed w input status pre s f post :
  subprocess_run w (duration_cmd input) = Some (status, pre ++ (s ++ "." ++ f) ++ post) ->
  forallb isspace pre = true -> forallb isspace post = true ->
  digits s -> digits f ->
  get_video_duration w input =
  ([EvRun (duration_cmd input)],
   Return (fin (inject_Z (int_of_digits s)
                + inject_Z (int_of_digits f) / inject_Z (10 ^ Z.of_nat (length f))))).
Proof.
  intros Hrun Hpre Hpost Hs Hf. rewrite get_video_duration_cases, Hrun.
  rewrite strip_number; trivial.
  - cbn [app]. now rewrite (float_of_decimal _ _ Hs Hf).
  - destruct (digits_head _ Hs) as (d & r & -> & Hd). cbn [app]. eauto.
  - destruct (digits_last _ Hf) as (r & d & -> & Hd).
    exists (s ++ "." ++ r), d. split; [now rewrite <- !app_assoc | exact Hd].
Qed.

Lemma duration_is_the_number_printed_witness :
  get_video_duration (uniform_world (" 12.50" ++ [LF]) "128000" "" 1 0) "/in/a.mp4" =
  ([EvRun (duration_cmd "/in/a.mp4")], Return (fin (25 # 2))).
Proof.
  refine (duration_is_the_number_printed
            (uniform_world (" 12.50" ++ [LF]) "128000" "" 1 0) "/in/a.mp4"
            1%Z " " "12" "50" [LF] eq_refl eq_refl eq_refl _ _);
    (split; [discriminate | reflexivity]).
Defined.

(** X3.  The threshold in the unit of the probe: when [ffprobe] prints the
    bit rate as a whole number of bits per second, with blanks around it
    or not, [get_video_bitrate] returns its thousandth, and the file is
    converted with [copy_video] when the number is at most 1000000 and with
    [compress_video] when it is more. *)
Theorem threshold_in_bits_per_second w input output use_gpu pbar status pre s post :
  subprocess_run w (bitrate_cmd input) = Some (status, pre ++ s ++ post) ->
  forallb isspace pre = true -> forallb isspace post = true -> digits s ->
  get_video_bitrate w input =
  ([EvRun (bitrate_cmd input)], Return (fin (inject_Z (int_of_digits s) / 1000)))
  /\ copy_or_compress_video w input output use_gpu pbar =
     if (int_of_digits s <=? 1000000)%Z
     then (emit (EvRun (bitrate_cmd input)) ;;
           emit (EvPrint (LowBitrate (posixpath.basename input))) ;;
           copy_video w input output pbar)
     else (emit (EvRun (bitrate_cmd input)) ;;
           compress_video w input output use_gpu pbar).
Proof.
  intros Hrun Hpre Hpost Hs.
  assert (Hprobe : get_video_bitrate w input =
                   ([EvRun (bitrate_cmd input)],
                    Return (fin (inject_Z (int_of_digits s) / 1000)))).
  { rewrite get_video_bitrate_cases, Hrun.
    rewrite strip_number; trivial; [| now apply digits_head | now apply digits_last].
    now rewrite (float_of_digits _ Hs), fdiv_thousand. }
  split; [exact Hprobe |].
  unfold copy_or_compress_video. rewrite Hprobe. unfold bind at 1.
  rewrite fle_thousandth. now destruct (int_of_digits s <=? 1000000)%Z.
Qed.

Lemma threshold_in_bits_per_second_witness :
  copy_or_compress_video (uniform_world "12.5" ("1000001" ++ [LF]) "" 0 0)
    "/in/a.mp4" "/out/a_s.mp4" false None =
  (emit (EvRun (bitrate_cmd "/in/a.mp4")) ;;
   compress_video (uniform_world "12.5" ("1000001" ++ [LF]) "" 0 0)
     "/in/a.mp4" "/out/a_s.mp4" false None).
Proof.
  refine (proj2 (threshold_in_bits_per_second
                   (uniform_world "12.5" ("1000001" ++ [LF]) "" 0 0)
                   "/in/a.mp4" "/out/a_s.mp4" false None
                   0%Z "" "1000001" [LF] eq_refl eq_refl eq_refl _)).
  split; [discriminate | reflexivity].
Defined.

(* ================================================================= *)
(** ** The matcher misses no match of the pattern *)

Lemma plus_digit_complete R (k : re.cont R) g p :
  digits p -> forall fuel rest,
  length (p ++ rest) <= fuel -> k g rest <> None ->
  re.plus_loop (re.attempt re.Digit) k fuel g (p ++ rest) <> None.
Proof.
  intros [Hne Hall]. induction p as [| d p IH]; [contradiction |].
  intros fuel rest Hfuel Hk.
  cbn in Hall. apply andb_true_iff in Hall. destruct Hall as [Hd Hall].
  destruct fuel as [| fuel]; [cbn in Hfuel; lia |].
  cbn [app re.plus_loop re.attempt]. rewrite Hd.
  replace (length (p ++ rest) <? length (d :: p ++ rest)) with true
    by (symmetry; apply Nat.ltb_lt; cbn; lia).
  destruct p as [| d' p'].
  - cbn [app]. destruct (re.plus_loop _ _ _ _ _); [discriminate | exact Hk].
  - assert (H : re.plus_loop (re.attempt re.Digit) k fuel g ((d' :: p') ++ rest) <> None).
    { apply IH; trivial; [discriminate | cbn in *; lia]. }
    destruct (re.plus_loop _ _ _ _ _); [discriminate | contradiction].
Qed.

Lemma time_re_complete h m s1 c s2 post :
  digits h -> digits m -> digits s1 -> digits s2 -> char_eqb c LF = false ->
  re.match_ time_re ("time=" ++ h ++ ":" ++ m ++ ":" ++ s1 ++ [c] ++ s2 ++ post) <> None.
Proof.
  intros Hh Hm Hs1 Hs2 Hc. unfold re.match_, time_re.
  cbn [re.attempt app startswith length skipn].
  rewrite !char_eqb_refl. cbn [andb].
  apply (plus_digit_complete _ _ _ h Hh); [reflexivity |].
  rewrite char_eqb_refl.
  apply (plus_digit_complete _ _ _ m Hm); [reflexivity |].
  rewrite char_eqb_refl.
  apply (plus_digit_complete _ _ _ s1 Hs1); [reflexivity |].
  rewrite Hc.
  apply (plus_digit_complete _ _ _ s2 Hs2); [reflexivity |].
  discriminate.
Qed.

Lemma search_complete r pre s :
  re.match_ r s <> None -> re.search r (pre ++ s) <> None.
Proof.
  intros Hs. induction pre as [| a pre IH].
  - destruct s as [| a s]; cbn [app re.search];
      destruct (re.match_ r _); try discriminate; contradiction.
  - cbn [app re.search]. destruct (re.match_ r (a :: pre ++ s)); [discriminate | exact IH].
Qed.

(** The pattern finds a match in a line exactly when the line holds a time
    stamp. *)
Lemma search_time_stamp line :
  (exists ts, re.search time_re line = Some ts) <-> has_time_stamp line.
Proof.
  split.
  - intros [ts Hts]. destruct (search_sound _ _ _ Hts) as (pre & p & rest & -> & Hp).
    pose proof (time_re_captures _ _ _ Hp) as Hcap.
    destruct Hcap as (h & m & s1 & c & s2 & Hts' & Hh & Hm & Hs1 & Hs2 & Hc).
    unfold time_re in Hp. inv Hp.
    match goal with H : re_matches (re.Str _) _ _ _ |- _ => inv H end.
    match goal with H : re_matches (re.Group _) _ _ _ |- _ => inv H end.
    exists pre, h, m, s1, c, s2, rest. split; [| tauto].
    cbn [app]. repeat (rewrite <- app_assoc; cbn [app]). reflexivity.
  - intros (pre & h & m & s1 & c & s2 & post & -> & Hh & Hm & Hs1 & Hs2 & Hc).
    pose proof (search_complete time_re pre _
                  (time_re_complete h m s1 c s2 post Hh Hm Hs1 Hs2 Hc)) as H.
    destruct (re.search time_re _) as [ts |]; [now exists ts | contradiction].
Qed.

(* ================================================================= *)
(** ** The time stamps of the progress lines *)

Lemma split_time h m rest :
  digits h -> digits m ->
  split ":" (h ++ ":" ++ m ++ ":" ++ rest) = h :: m :: split ":" rest.
Proof.
  intros Hh Hm. cbn [app].
  rewrite (split_app_sep _ _ _ (digits_no_colon _ Hh)).
  now rewrite (split_app_sep _ _ _ (digits_no_colon _ Hm)).
Qed.

Lemma current_time_of_joined h m s1 c s2 :
  digits h -> digits m -> digits s1 -> digits s2 ->
  (joins_digits c = true ->
   exists t, current_time_of (h ++ ":" ++ m ++ ":" ++ s1 ++ [c] ++ s2) = ([], Return t))
  /\ (joins_digits c = false ->
      current_time_of (h ++ ":" ++ m ++ ":" ++ s1 ++ [c] ++ s2) = ([], Raise ValueError)).
Proof.
  intros Hh Hm Hs1 Hs2. unfold current_time_of.
  rewrite (split_time _ _ _ Hh Hm). cbn [map app].
  rewrite (float_of_digits _ Hh), (float_of_digits _ Hm).
  destruct (float_joined s1 c s2 Hs1 Hs2) as [Hyes Hno].
  destruct (char_eqb c ":") eqn:Hc.
  - apply char_eqb_eq in Hc. subst c.
    rewrite (split_app_sep _ _ _ (digits_no_colon _ Hs1)).
    rewrite (split_notin _ _ (digits_no_colon _ Hs2)). cbn [map].
    split; [discriminate |]. intros _.
    now destruct (float s1), (float s2).
  - rewrite split_notin.
    2: { intros [Hin | [-> | Hin]]%in_app_or.
         - now apply (digits_no_colon _ Hs1).
         - now rewrite char_eqb_refl in Hc.
         - now apply (digits_no_colon _ Hs2). }
    cbn [map]. split; intros Hj.
    + destruct (Hyes Hj) as [q ->]. eexists. reflexivity.
    + now rewrite (Hno Hj).
Qed.

Lemma time_stamp_contains line ts :
  re.search time_re line = Some ts -> contains line "time=" = true.
Proof.
  intros Hts.
  assert (Hstamp : has_time_stamp line) by (apply search_time_stamp; eauto).
  destruct Hstamp as (pre & h & m & s1 & c & s2 & post & -> & _).
  apply contains_iff. eauto.
Qed.

(** X4.  The reading loop acts on a line exactly when the line holds a time
    stamp, that is [time=] followed by three runs of digits separated by
    colons, one character that is not a line feed, and one more run of
    digits; every other line is passed over without an event and without
    an error. *)
Theorem lines_without_time_stamp_are_passed_over line progress :
  (on_line line progress = ([], Return progress) <-> re.search time_re line = None)
  /\ ((exists time_str, re.search time_re line = Some time_str) <-> has_time_stamp line).
Proof.
  split; [| apply search_time_stamp]. split.
  - intros Hskip. destruct (re.search time_re line) as [ts |] eqn:Hts; trivial.
    rewrite on_line_cases, (time_stamp_contains _ _ Hts), Hts in Hskip.
    destruct (result (current_time_of ts)); discriminate Hskip.
  - apply on_line_without_match.
Qed.

(** X5.  When the pattern has matched a text in a line, the loop goes on or
    raises according to the character [c] that the unescaped dot matched
    between the two last runs of digits: [float] reads the third field when
    [c] is a digit, a dot, an underscore or the mark of an exponent, and the
    bar is updated; for every other [c], the colon included, the line
    raises [ValueError] and leaves no event. *)
Theorem reading_raises_on_a_misjoined_time line progress h m s1 c s2 :
  re.search time_re line = Some (h ++ ":" ++ m ++ ":" ++ s1 ++ [c] ++ s2) ->
  digits h -> digits m -> digits s1 -> digits s2 ->
  (joins_digits c = true ->
   exists t,
     on_line line progress =
     ([EvBarUpdate (bar_of progress) (fsub t (n progress));
       EvBarDesc (bar_of progress)
         ("Processing time: " ++ h ++ ":" ++ m ++ ":" ++ s1 ++ [c] ++ s2)],
      Return {| bar_of := bar_of progress; total := total progress;
                n := fadd (n progress) (fsub t (n progress)) |}))
  /\ (joins_digits c = false -> on_line line progress = ([], Raise ValueError)).
Proof.
  intros Hts Hh Hm Hs1 Hs2.
  rewrite on_line_cases, (time_stamp_contains _ _ Hts), Hts.
  destruct (current_time_of_joined h m s1 c s2 Hh Hm Hs1 Hs2) as [Hyes Hno].
  split; intros Hj.
  - destruct (Hyes Hj) as [t ->]. now exists t.
  - now rewrite (Hno Hj).
Qed.

Lemma reading_raises_on_a_misjoined_time_witness :
  on_line "time=1:2:3x4" (batch_bar []) = ([], Raise ValueError).
Proof.
  refine (proj2 (reading_raises_on_a_misjoined_time
                   "time=1:2:3x4" (batch_bar []) "1" "2" "3" "x" "4" eq_refl _ _ _ _)
                eq_refl);
    (split; [discriminate | reflexivity]).
Defined.

(** A time stamp [h:m:s.f] is read as [3600 h + 60 m + s.f] seconds, the
    fields being decimal numbers of any length. *)
Lemma current_time_of_stamp h m s f :
  digits h -> digits m -> digits s -> digits f ->
  current_time_of (h ++ ":" ++ m ++ ":" ++ s ++ "." ++ f) =
  ([], Return
         (fin (inject_Z (3600 * int_of_digits h + 60 * int_of_digits m + int_of_digits s)
               + inject_Z (int_of_digits f) / inject_Z (10 ^ Z.of_nat (length f))))).
Proof.
  intros Hh Hm Hs Hf. unfold current_time_of.
  rewrite (split_time _ _ _ Hh Hm). cbn [map app].
  rewrite split_notin.
  2: { intros [Hin | [[=] | Hin]]%in_app_or.
       - now apply (digits_no_colon _ Hs).
       - now apply (digits_no_colon _ Hf). }
  cbn [map].
  rewrite (float_of_digits _ Hh), (float_of_digits _ Hm), (float_of_decimal _ _ Hs Hf).
  unfold ret, of_Z. rewrite !fmul_fin, !fadd_fin. do 2 f_equal. apply fin_eq.
  rewrite !inject_Z_plus, !inject_Z_mult. ring.
Qed.

(* ----------------------------------------------------------------- *)
(** *** The line that the encoder prints *)

(** The matcher is greedy: a run of digits that no digit follows is taken
    whole when what comes after it is accepted. *)
Lemma plus_digit_greedy R (k : re.cont R) g p x :
  digits p -> forall fuel rest,
  length (p ++ rest) <= fuel ->
  match rest with c :: _ => isdecimal c = false | [] => True end ->
  k g rest = Some x ->
  re.plus_loop (re.attempt re.Digit) k fuel g (p ++ rest) = Some x.
Proof.
  intros [Hne Hall]. induction p as [| d p IH]; [contradiction |].
  intros fuel rest Hfuel Hrest Hk.
  cbn in Hall. apply andb_true_iff in Hall. destruct Hall as [Hd Hall].
  destruct fuel as [| fuel]; [cbn in Hfuel; lia |].
  cbn [app re.plus_loop re.attempt]. rewrite Hd.
  replace (length (p ++ rest) <? length (d :: p ++ rest)) with true
    by (symmetry; apply Nat.ltb_lt; cbn; lia).
  destruct p as [| d' p'].
  - cbn [app].
    match goal with
    | |- match ?l with Some _ => _ | None => _ end = _ => assert (Hstop : l = None)
    end.
    { destruct fuel; cbn [re.plus_loop];
        destruct rest as [| c rest']; trivial; now rewrite Hrest. }
    now rewrite Hstop.
  - assert (Hrec : re.plus_loop (re.attempt re.Digit) k fuel g ((d' :: p') ++ rest)
                   = Some x).
    { apply IH; trivial; [discriminate | cbn in *; lia]. }
    match goal with
    | |- match ?l with Some _ => _ | None => _ end = _ =>
        change l with (re.plus_loop (re.attempt re.Digit) k fuel g ((d' :: p') ++ rest))
    end.
    now rewrite Hrec.
Qed.

Lemma time_re_greedy h m s f post :
  digits h -> digits m -> digits s -> digits f ->
  match post with c :: _ => isdecimal c = false | [] => True end ->
  re.match_ time_re ("time=" ++ h ++ ":" ++ m ++ ":" ++ s ++ "." ++ f ++ post) =
  Some (h ++ ":" ++ m ++ ":" ++ s ++ "." ++ f).
Proof.
  intros Hh Hm Hs Hf Hpost. unfold re.match_, time_re.
  cbn [re.attempt app startswith length skipn].
  rewrite !char_eqb_refl. cbn [andb].
  apply (plus_digit_greedy _ _ _ h _ Hh); [reflexivity | reflexivity |].
  rewrite char_eqb_refl.
  apply (plus_digit_greedy _ _ _ m _ Hm); [reflexivity | reflexivity |].
  rewrite char_eqb_refl.
  apply (plus_digit_greedy _ _ _ s _ Hs); [reflexivity | reflexivity |].
  change (char_eqb "." LF) with false. cbv iota.
  apply (plus_digit_greedy _ _ _ f _ Hf); [reflexivity | exact Hpost |].
  f_equal.
  replace (h ++ ":"%char :: m ++ ":"%char :: s ++ "."%char :: f ++ post)
    with ((h ++ ":"%char :: m ++ ":"%char :: s ++ "."%char :: f) ++ post).
  2: { repeat (rewrite <- app_assoc; cbn [app]). reflexivity. }
  rewrite length_app, Nat.add_sub. apply firstn_at.
Qed.

(** Before the first [time=] of a line, the pattern matches nowhere. *)
Lemma search_skips pre rest :
  contains pre "time=" = false ->
  re.search time_re (pre ++ "time=" ++ rest) = re.search time_re ("time=" ++ rest).
Proof.
  induction pre as [| c pre IH]; intros Hpre; [reflexivity |].
  cbn [contains] in Hpre. apply orb_false_iff in Hpre. destruct Hpre as [Hhere Hpre].
  change ((c :: pre) ++ "time=" ++ rest) with (c :: pre ++ "time=" ++ rest).
  cbn [re.search].
  assert (Hno : re.match_ time_re (c :: pre ++ "time=" ++ rest) = None).
  { unfold re.match_, time_re. cbn [re.attempt].
    assert (Hs : startswith (c :: pre ++ "time=" ++ rest) "time=" = false).
    { clear IH Hpre. revert Hhere. cbn [app].
      destruct pre as [| c1 [| c2 [| c3 [| c4 pre]]]]; cbn [startswith app];
        intros Hhere;
        repeat match goal with
               | |- context [char_eqb ?a ?b] =>
                   lazymatch a with
                   | Ascii _ _ _ _ _ _ _ _ => fail
                   | _ => destruct (char_eqb a b) eqn:?
                   end
               end;
        cbn [andb] in *; try reflexivity; try discriminate;
        repeat match goal with
               | H : char_eqb _ _ = true |- _ => apply char_eqb_eq in H; subst
               end;
        try reflexivity; try discriminate. }
    now rewrite Hs. }
  rewrite Hno. now apply IH.
Qed.

(** X6.  The line that the encoder prints for its progress moves the bar to
    the time it states.  When the first [time=] of a line is followed by
    [h:m:s.f], four runs of digits, and then by something other than a
    digit, the bar of the file is moved by the difference between
    [3600 h + 60 m + s.f] seconds and its position (minutes and seconds are
    not bound by 60), and its description becomes that time stamp. *)
Theorem progress_line_moves_the_bar_to_its_time pre h m s f post progress :
  contains pre "time=" = false ->
  digits h -> digits m -> digits s -> digits f ->
  match post with c :: _ => isdecimal c = false | [] => True end ->
  let time_str := h ++ ":" ++ m ++ ":" ++ s ++ "." ++ f in
  let current_time :=
    fin (inject_Z (3600 * int_of_digits h + 60 * int_of_digits m + int_of_digits s)
         + inject_Z (int_of_digits f) / inject_Z (10 ^ Z.of_nat (length f))) in
  on_line (pre ++ "time=" ++ time_str ++ post) progress =
  ([EvBarUpdate (bar_of progress) (fsub current_time (n progress));
    EvBarDesc (bar_of progress) ("Processing time: " ++ time_str)],
   Return {| bar_of := bar_of progress; total := total progress;
             n := fadd (n progress) (fsub current_time (n progress)) |}).
Proof.
  intros Hpre Hh Hm Hs Hf Hpost time_str current_time.
  assert (Hsearch : re.search time_re (pre ++ "time=" ++ time_str ++ post)
                    = Some time_str).
  { rewrite (search_skips _ _ Hpre). subst time_str. cbn [app re.search].
    pose proof (time_re_greedy h m s f post Hh Hm Hs Hf Hpost) as Hmatch.
    cbn [app] in Hmatch.
    repeat (rewrite <- app_assoc; cbn [app]). now rewrite Hmatch. }
  rewrite on_line_cases, (time_stamp_contains _ _ Hsearch), Hsearch.
  subst time_str. now rewrite (current_time_of_stamp _ _ _ _ Hh Hm Hs Hf).
Qed.

Lemma progress_line_moves_the_bar_to_its_time_witness :
  on_line
    ("frame=  100 fps= 25 q=-1.0 size=    1024kB time=00:01:02.50 bitrate= 134.2kbits/s"
     ++ [LF])
    {| bar_of := FileBar "/in/a.mp4"; total := of_Z 90; n := of_Z 60 |}
  = ([EvBarUpdate (FileBar "/in/a.mp4") (fin (5 # 2));
      EvBarDesc (FileBar "/in/a.mp4") "Processing time: 00:01:02.50"],
     Return {| bar_of := FileBar "/in/a.mp4"; total := of_Z 90; n := fin (125 # 2) |}).
Proof.
  refine (progress_line_moves_the_bar_to_its_time
            "frame=  100 fps= 25 q=-1.0 size=    1024kB " "00" "01" "02" "50"
            (" bitrate= 134.2kbits/s" ++ [LF])
            {| bar_of := FileBar "/in/a.mp4"; total := of_Z 90; n := of_Z 60 |}
            eq_refl _ _ _ _ eq_refl);
    (split; [discriminate | reflexivity]).
Defined.

(* ================================================================= *)
(** ** The reading loop and the stream *)

(** Reading the lines [l1 ++ l2] is reading [l1], then [l2]. *)
Lemma read_progress_app l1 l2 : forall p,
  read_progress (l1 ++ l2) p = (p1 <- read_progress l1 p ;; read_progress l2 p1).
Proof.
  induction l1 as [| line l1 IH]; intros p; cbn [app read_progress].
  - unfold ret, bind. now destruct (read_progress l2 p).
  - destruct (on_line line p) as [evs [q | e]]; [| reflexivity].
    unfold bind at 1 3. rewrite IH.
    destruct (read_progress l1 q) as [evs1 [q1 | e]]; [| reflexivity].
    unfold bind. destruct (read_progress l2 q1) as [evs2 r]. now rewrite app_assoc.
Qed.

Lemma on_line_raise_events line p e :
  result (on_line line p) = Raise e -> on_line line p = ([], Raise e).
Proof.
  intros H. pose proof (on_line_updates line p) as Hupd. rewrite H in Hupd.
  now rewrite (task_eta _ (on_line line p)), Hupd, H.
Qed.

(** X7.  The reading loop stops at the first line on which it raises: the
    bar has been moved by the lines before it, the exception leaves the
    loop, and nothing of what the encoder writes after that line is read. *)
Theorem reading_stops_at_the_first_error before line after progress progress' e :
  result (read_progress before progress) = Return progress' ->
  result (on_line line progress') = Raise e ->
  read_progress (before ++ line :: after) progress =
  (events (read_progress before progress), Raise e).
Proof.
  intros Hbefore Hline. rewrite read_progress_app.
  rewrite (task_eta _ (read_progress before progress)), Hbefore.
  cbn [read_progress bind]. rewrite (on_line_raise_events _ _ _ Hline).
  cbn. now rewrite app_nil_r.
Qed.

Lemma reading_stops_at_the_first_error_witness :
  read_progress
    ["time=00:00:01.00 x" ++ [LF]; "time=1:2:3x4" ++ [LF]; "time=00:00:02.00 x" ++ [LF]]
    {| bar_of := FileBar "/in/a.mp4"; total := of_Z 9; n := of_Z 0 |}
  = ([EvBarUpdate (FileBar "/in/a.mp4") (of_Z 1);
      EvBarDesc (FileBar "/in/a.mp4") "Processing time: 00:00:01.00"],
     Raise ValueError).
Proof.
  exact (reading_stops_at_the_first_error
           ["time=00:00:01.00 x" ++ [LF]] ("time=1:2:3x4" ++ [LF])
           ["time=00:00:02.00 x" ++ [LF]]
           {| bar_of := FileBar "/in/a.mp4"; total := of_Z 9; n := of_Z 0 |}
           _ ValueError eq_refl eq_refl).
Defined.

Lemma universal_newlines_no_CR s : ~ In CR (universal_newlines s).
Proof.
  assert (H : forall k s, length s <= k -> ~ In CR (universal_newlines s)).
  { clear s. induction k as [| k IH]; intros s Hlen.
    - destruct s; [intros [] | cbn in Hlen; lia].
    - destruct s as [| c s]; [intros [] |]. cbn [universal_newlines].
      cbn in Hlen. destruct (char_eqb c CR) eqn:Hc.
      + destruct s as [| d s]; [now intros [[=] | []] |].
        cbn in Hlen. destruct (char_eqb d LF).
        * intros [[=] | Hin]. revert Hin. apply IH. lia.
        * intros [[=] | Hin]. revert Hin. apply IH. cbn. lia.
      + intros [-> | Hin]; [now rewrite char_eqb_refl in Hc |].
        revert Hin. apply IH. lia. }
  now apply (H (length s)).
Qed.

(** What [readline] returns, one line after the other: the lines make up
    the text; each is a body without line feed, followed by a line feed
    unless the text ends there, and is not empty. *)
Lemma readlines_spec s :
  concat (readlines s) = s
  /\ Forall (fun line => exists body,
               ~ In LF body /\ (line = body ++ [LF] \/ (line = body /\ body <> [])))
            (readlines s).
Proof.
  induction s as [| c s [IHcat IHall]]; [now split; [| constructor] |].
  cbn [readlines]. destruct (char_eqb c LF) eqn:Hc.
  - apply char_eqb_eq in Hc. subst c. split; [cbn; now rewrite IHcat |].
    constructor; trivial. exists []. split; [intros [] | now left].
  - apply char_eqb_neq in Hc.
    destruct (readlines s) as [| l ls].
    + cbn in IHcat. subst s. split; [reflexivity |].
      constructor; [| constructor]. exists [c]. split; [| right; now split].
      intros [-> | []]. now apply Hc.
    + split; [cbn in *; now rewrite IHcat |].
      inversion IHall as [| ? ? (body & Hbody & Hline) Hrest]; subst.
      constructor; trivial. exists (c :: body). split.
      * intros [-> | Hin]; [now apply Hc | now apply Hbody].
      * destruct Hline as [-> | [-> _]]; [now left | right; now split].
Qed.

(** X8.  The lines that the loop gets from the encoder's stream make up the
    whole stream, with every line end (CR LF, CR or LF) turned into a line
    feed: a line is never empty, so that the loop ends at the end of the
    stream and not on a blank line; it holds no carriage return, and a
    line feed only as its last character. *)
Theorem stream_is_read_line_by_line p :
  concat (stderr_lines p) = universal_newlines (stderr_text p)
  /\ Forall (fun line =>
               line <> []
               /\ ~ In CR line
               /\ exists body,
                    ~ In LF body /\ (line = body ++ [LF] \/ line = body))
            (stderr_lines p).
Proof.
  unfold stderr_lines.
  destruct (readlines_spec (universal_newlines (stderr_text p))) as [Hcat Hall].
  split; [exact Hcat |].
  rewrite Forall_forall in *. intros line Hin.
  destruct (Hall line Hin) as (body & Hbody & Hline). repeat split.
  - destruct Hline as [-> | [-> Hne]]; [now destruct body | exact Hne].
  - intros Hcr. apply (universal_newlines_no_CR (stderr_text p)).
    rewrite <- Hcat. apply in_concat. eauto.
  - exists body. split; [exact Hbody | tauto].
Qed.

(* ================================================================= *)
(** ** What a conversion leaves behind when it raises *)

Lemma bar_events_no_close b evs b' :
  Forall (bar_event b) evs -> ~ In (EvBarClose b') evs.
Proof.
  intros Hall Hin. rewrite Forall_forall in Hall. exact (Hall _ Hin).
Qed.

Lemma convert_closes w cmd desc input pbar :
  In (EvBarClose (FileBar input)) (events (convert w cmd desc input pbar))
  <-> result (convert w cmd desc input pbar) = Return tt.
Proof.
  rewrite convert_cases.
  destruct (subprocess_Popen w cmd) as [[text status] |].
  2: { cbn. split; [now intros [[=] | []] | discriminate]. }
  destruct (result (get_video_duration w input)) as [tot | e].
  2: { cbn. split; [now intros [[=] | [[=] | []]] | discriminate]. }
  cbv zeta.
  pose proof (read_progress_events (readlines (universal_newlines (fst (text, status))))
                {| bar_of := FileBar input; total := tot; n := of_Z 0 |}) as Hbar.
  destruct (result (read_progress _ _)) as [p | e]; cbn [events result fst snd].
  - split; [reflexivity |]. intros _. do 3 right. apply in_or_app. right. now left.
  - split; [| discriminate]. intros [[=] | [[=] | [[=] | Hin]]].
    now apply (bar_events_no_close _ _ (FileBar input)) in Hbar.
Qed.

(** X9.  The bar of the file is closed exactly when the conversion returns:
    when [copy_video] or [compress_video] raises, on a progress line or on
    the probe, the bar, if it was made, is left open. *)
Theorem file_bar_is_closed_only_on_return w input output use_gpu pbar :
  (In (EvBarClose (FileBar input)) (events (copy_video w input output pbar))
   <-> result (copy_video w input output pbar) = Return tt)
  /\ (In (EvBarClose (FileBar input)) (events (compress_video w input output use_gpu pbar))
      <-> result (compress_video w input output use_gpu pbar) = Return tt).
Proof.
  rewrite copy_video_convert, compress_video_convert. split; apply convert_closes.
Qed.

Lemma convert_probe_fails w cmd desc input pbar :
  (subprocess_Popen w cmd = None ->
   convert w cmd desc input pbar = ([EvPopen cmd], Raise FileNotFoundError))
  /\ (forall text code e,
        subprocess_Popen w cmd = Some (text, code) ->
        result (get_video_duration w input) = Raise e ->
        convert w cmd desc input pbar =
        ([EvPopen cmd; EvRun (duration_cmd input)], Raise e)).
Proof.
  split.
  - intros H. now rewrite convert_cases, H.
  - intros text code e H He. now rewrite convert_cases, H, He.
Qed.

(** X10.  A conversion starts the encoder first and asks for the duration
    afterwards.  When the encoder cannot be started, [ffprobe] is not run;
    when the encoder was started and the duration probe raises, the
    conversion ends there with the exception of the probe: the encoder is
    left running, its stream is not read and it is not waited for. *)
Theorem encoder_is_started_before_the_duration_probe w input output use_gpu pbar :
  (subprocess_Popen w (copy_cmd input output) = None ->
   copy_video w input output pbar =
   ([EvPopen (copy_cmd input output)], Raise FileNotFoundError))
  /\ (forall text code e,
        subprocess_Popen w (copy_cmd input output) = Some (text, code) ->
        result (get_video_duration w input) = Raise e ->
        copy_video w input output pbar =
        ([EvPopen (copy_cmd input output); EvRun (duration_cmd input)], Raise e))
  /\ (subprocess_Popen w (compress_cmd input output use_gpu) = None ->
      compress_video w input output use_gpu pbar =
      ([EvPopen (compress_cmd input output use_gpu)], Raise FileNotFoundError))
  /\ (forall text code e,
        subprocess_Popen w (compress_cmd input output use_gpu) = Some (text, code) ->
        result (get_video_duration w input) = Raise e ->
        compress_video w input output use_gpu pbar =
        ([EvPopen (compress_cmd input output use_gpu); EvRun (duration_cmd input)],
         Raise e)).
Proof.
  rewrite copy_video_convert, compress_video_convert.
  destruct (convert_probe_fails w (copy_cmd input output)
              ("Copying and converting to MP4 " ++ posixpath.basename input) input pbar).
  destruct (convert_probe_fails w (compress_cmd input output use_gpu)
              ("Compressing " ++ posixpath.basename input) input pbar).
  auto.
Qed.

Lemma encoder_is_started_before_the_duration_probe_witness :
  copy_video picky_world "/in/b.avi" "/out/b_s.mp4" None =
  ([EvPopen (copy_cmd "/in/b.avi" "/out/b_s.mp4"); EvRun (duration_cmd "/in/b.avi")],
   Raise ValueError).
Proof.
  exact (proj1 (proj2 (encoder_is_started_before_the_duration_probe
                         picky_world "/in/b.avi" "/out/b_s.mp4" false None))
               "" 0%Z ValueError eq_refl eq_refl).
Defined.

(* ----------------------------------------------------------------- *)
(** *** The end of a task *)

Lemma convert_ends w cmd desc input pb :
  truthy (Some pb) = true ->
  result (convert w cmd desc input (Some pb)) = Return tt ->
  exists before text code,
    subprocess_Popen w cmd = Some (text, code)
    /\ events (convert w cmd desc input (Some pb)) =
       before ++ [EvBarClose (FileBar input); EvCommunicate cmd code;
                  EvBarUpdate (bar_of pb) (of_Z 1)].
Proof.
  intros Ht. rewrite convert_cases.
  destruct (subprocess_Popen w cmd) as [[text code] |]; [| discriminate].
  destruct (result (get_video_duration w input)) as [tot | e]; [| discriminate].
  cbv zeta. destruct (result (read_progress _ _)) as [p | e]; [| discriminate].
  intros _. rewrite Ht. cbn [events fst snd].
  eexists (_ :: _ :: _ :: _), text, code. split; [reflexivity |].
  cbn [app]. reflexivity.
Qed.

(** X11.  A task counts its file as completed only at its very end: when
    it returns, given the batch bar, the last things it did are closing the
    bar of the file, waiting for the encoder it had started to end, and then
    moving the batch bar by one. *)
Theorem completion_is_counted_after_the_encoder_ended w input output use_gpu pb :
  truthy (Some pb) = true ->
  result (copy_or_compress_video w input output use_gpu (Some pb)) = Return tt ->
  exists before cmd text code,
    (cmd = copy_cmd input output \/ cmd = compress_cmd input output use_gpu)
    /\ subprocess_Popen w cmd = Some (text, code)
    /\ events (copy_or_compress_video w input output use_gpu (Some pb)) =
       before ++ [EvBarClose (FileBar input); EvCommunicate cmd code;
                  EvBarUpdate (bar_of pb) (of_Z 1)].
Proof.
  intros Ht. rewrite task_cases.
  destruct (result (get_video_bitrate w input)) as [bitrate | e]; [| discriminate].
  destruct (fle bitrate (of_Z 1000)); cbn [events result fst snd].
  - rewrite copy_video_convert. intros Hres.
    destruct (convert_ends _ _ _ _ _ Ht Hres) as (before & text & code & Hp & ->).
    exists (EvRun (bitrate_cmd input) ::
            EvPrint (LowBitrate (posixpath.basename input)) :: before),
      (copy_cmd input output), text, code. auto.
  - rewrite compress_video_convert. intros Hres.
    destruct (convert_ends _ _ _ _ _ Ht Hres) as (before & text & code & Hp & ->).
    exists (EvRun (bitrate_cmd input) :: before),
      (compress_cmd input output use_gpu), text, code. auto.
Qed.

Lemma completion_is_counted_after_the_encoder_ended_witness :
  exists before cmd text code,
    (cmd = copy_cmd "/in/a.mp4" "/out/a_s.mp4"
     \/ cmd = compress_cmd "/in/a.mp4" "/out/a_s.mp4" false)
    /\ subprocess_Popen (uniform_world "12.5" "500000" "" 0 1) cmd = Some (text, code)
    /\ events (copy_or_compress_video (uniform_world "12.5" "500000" "" 0 1)
                 "/in/a.mp4" "/out/a_s.mp4" false (Some (batch_bar ["/in/a.mp4"]))) =
       before ++ [EvBarClose (FileBar "/in/a.mp4"); EvCommunicate cmd code;
                  EvBarUpdate (bar_of (batch_bar ["/in/a.mp4"])) (of_Z 1)].
Proof.
  exact (completion_is_counted_after_the_encoder_ended
           (uniform_world "12.5" "500000" "" 0 1) "/in/a.mp4" "/out/a_s.mp4" false
           (batch_bar ["/in/a.mp4"]) eq_refl eq_refl).
Defined.

(* ================================================================= *)
(** ** The files that the walk lists *)

Lemma entry_name_relative name : entry_name name -> startswith name [posixpath.sep] = false.
Proof.
  intros (_ & Hsep & _). destruct (startswith name [posixpath.sep]) eqn:E; trivial.
  apply startswith_iff in E. destruct E as [r ->]. exfalso. apply Hsep. now left.
Qed.

Lemma join_under top name :
  startswith name [posixpath.sep] = false -> posixpath.join top name = under top ++ name.
Proof.
  intros H. unfold posixpath.join, under. rewrite H.
  destruct (match top with [] => true | _ => endswith top [posixpath.sep] end);
    [reflexivity | now rewrite <- app_assoc].
Qed.

Lemma under_join top sub :
  entry_name sub ->
  under (posixpath.join top sub) = under top ++ sub ++ [posixpath.sep].
Proof.
  intros Hsub. rewrite (join_under _ _ (entry_name_relative _ Hsub)).
  destruct Hsub as (Hne & Hsep & _).
  destruct (exists_last Hne) as (r & d & ->).
  unfold under at 1.
  destruct (under top ++ r ++ [d]) as [| c x] eqn:E.
  { exfalso. destruct (under top); [now destruct r | discriminate]. }
  destruct (endswith (c :: x) [posixpath.sep]) eqn:Hend;
    [| now rewrite <- E, <- !app_assoc].
  exfalso. apply endswith_iff in Hend. destruct Hend as [y Hy].
  rewrite <- E, app_assoc in Hy. apply app_inj_tail in Hy. destruct Hy as [_ ->].
  apply Hsep, in_or_app. right. now left.
Qed.

Lemma get_all_files_dir name is_link entries top :
  get_all_files (os.Dir name is_link entries) top =
  files_in top (os.filenames entries) ++ flat_map (files_below top) entries.
Proof.
  unfold get_all_files. cbn [os.walk flat_map]. f_equal.
  induction entries as [| e entries IH]; [reflexivity |].
  cbn [flat_map]. rewrite flat_map_app, IH. f_equal.
  destruct e as [| sub [|] es]; reflexivity.
Qed.

Lemma well_formed_entry name is_link entries e :
  well_formed (os.Dir name is_link entries) -> In e entries ->
  entry_name (os.name_of e) /\ well_formed e.
Proof. intros H. inv H. auto. Qed.

(** Every path listed for the tree found at [top] is [top], a separator
    unless [top] ends with one or is empty, and a relative path. *)
Lemma listed_under n :
  well_formed n -> forall top p,
  In p (get_all_files n top) -> exists rel, p = under top ++ rel.
Proof.
  induction n as [name | name is_link entries IH] using node_tree_ind;
    intros Hwf top p Hin; [contradiction |].
  rewrite get_all_files_dir in Hin. apply in_app_or in Hin. destruct Hin as [Hin | Hin].
  - unfold files_in in Hin. apply in_map_iff in Hin.
    destruct Hin as (f & <- & [Hf _]%filter_In). apply in_filenames in Hf.
    destruct (well_formed_entry _ _ _ _ Hwf Hf) as [Hname _].
    exists f. now apply join_under, entry_name_relative.
  - apply in_flat_map in Hin. destruct Hin as (e & He & Hin).
    destruct (well_formed_entry _ _ _ _ Hwf He) as [Hname Hwfe].
    rewrite Forall_forall in IH.
    destruct e as [| sub [|] es]; try contradiction. cbn [files_below os.name_of] in *.
    destruct (IH _ He Hwfe _ _ Hin) as [rel ->].
    rewrite (under_join _ _ Hname). exists (sub ++ [posixpath.sep] ++ rel).
    now rewrite <- !app_assoc.
Qed.

Lemma listed_below top e p :
  entry_name (os.name_of e) -> well_formed e -> In p (files_below top e) ->
  exists rel, p = under top ++ os.name_of e ++ posixpath.sep :: rel.
Proof.
  intros Hname Hwf Hin. destruct e as [| sub [|] es]; try contradiction.
  cbn [files_below os.name_of] in *.
  destruct (listed_under _ Hwf _ _ Hin) as [rel ->].
  rewrite (under_join _ _ Hname). exists rel. now rewrite <- !app_assoc.
Qed.

Lemma first_component a : forall b x y,
  ~ In posixpath.sep a -> ~ In posixpath.sep b ->
  a ++ posixpath.sep :: x = b ++ posixpath.sep :: y -> a = b.
Proof.
  induction a as [| c a IH]; intros [| d b] x y Ha Hb H; cbn in H.
  - reflexivity.
  - injection H as <- _. exfalso. apply Hb. now left.
  - injection H as -> _. exfalso. apply Ha. now left.
  - injection H as -> H. f_equal. apply (IH b x y); trivial.
    + intros Hin. apply Ha. now right.
    + intros Hin. apply Hb. now right.
Qed.

Lemma below_NoDup top es :
  NoDup (map os.name_of es) ->
  (forall e, In e es ->
     entry_name (os.name_of e) /\ well_formed e
     /\ forall top', NoDup (get_all_files e top')) ->
  NoDup (flat_map (files_below top) es).
Proof.
  induction es as [| e es IH]; intros Hnames Hes; [constructor |].
  cbn [flat_map map] in *. inv Hnames.
  destruct (Hes e (or_introl eq_refl)) as (Hname & Hwf & Hnodup).
  apply NoDup_app.
  - destruct e as [| sub [|] sub_entries]; try constructor. apply Hnodup.
  - apply IH; trivial. intros e' He'. apply Hes. now right.
  - intros p Hp Hp'. apply in_flat_map in Hp'. destruct Hp' as (e' & He' & Hp').
    destruct (Hes e' (or_intror He')) as (Hname' & Hwf' & _).
    destruct (listed_below _ _ _ Hname Hwf Hp) as [rel E].
    destruct (listed_below _ _ _ Hname' Hwf' Hp') as [rel' E'].
    rewrite E in E'. apply app_inv_head in E'.
    apply first_component in E'; [| apply Hname | apply Hname'].
    match goal with H : ~ In (os.name_of e) _ |- _ => apply H end.
    rewrite E'. now apply in_map.
Qed.

Lemma filenames_NoDup entries :
  NoDup (map os.name_of entries) -> NoDup (os.filenames entries).
Proof.
  unfold os.filenames. induction entries as [| e entries IH]; [constructor |].
  cbn [map filter]. intros H. inv H.
  destruct (negb (os.is_dir e)); cbn [map]; [| now apply IH].
  constructor; [| now apply IH].
  intros Hin. apply in_map_iff in Hin. destruct Hin as (e' & E & [He' _]%filter_In).
  match goal with H : ~ In _ _ |- _ => apply H end. rewrite <- E. now apply in_map.
Qed.

(** X12.  In a directory tree in which the entries of a directory bear
    different names, [get_all_files] lists no path twice: a batch made of
    its result holds every file once. *)
Theorem no_file_is_listed_twice tree :
  well_formed tree -> forall directory, NoDup (get_all_files tree directory).
Proof.
  induction tree as [name | name is_link entries IH] using node_tree_ind;
    intros Hwf top; [constructor |].
  rewrite get_all_files_dir. rewrite Forall_forall in IH.
  pose proof Hwf as Hwf'. inv Hwf'.
  apply NoDup_app.
  - unfold files_in. apply NoDup_map_NoDup_ForallPairs.
    + intros f1 f2 [Hf1 _]%filter_In [Hf2 _]%filter_In E.
      apply in_filenames in Hf1, Hf2.
      destruct (well_formed_entry _ _ _ _ Hwf Hf1) as [Hn1 _].
      destruct (well_formed_entry _ _ _ _ Hwf Hf2) as [Hn2 _].
      rewrite (join_under _ _ (entry_name_relative _ Hn1)) in E.
      rewrite (join_under _ _ (entry_name_relative _ Hn2)) in E.
      now apply app_inv_head in E.
    + now apply NoDup_filter, filenames_NoDup.
  - apply below_NoDup; trivial. intros e He.
    destruct (well_formed_entry _ _ _ _ Hwf He) as [Hname Hwfe].
    split; [exact Hname | split; [exact Hwfe | intros top'; now apply IH]].
  - intros p Hp Hp'. unfold files_in in Hp. apply in_map_iff in Hp.
    destruct Hp as (f & <- & [Hf _]%filter_In). apply in_filenames in Hf.
    destruct (well_formed_entry _ _ _ _ Hwf Hf) as [Hname _].
    apply in_flat_map in Hp'. destruct Hp' as (e & He & Hp').
    destruct (well_formed_entry _ _ _ _ Hwf He) as [Hname' Hwfe].
    destruct (listed_below _ _ _ Hname' Hwfe Hp') as [rel E].
    rewrite (join_under _ _ (entry_name_relative _ Hname)) in E.
    apply app_inv_head in E. destruct Hname as (_ & Hsep & _).
    apply Hsep. rewrite E. apply in_or_app. right. now left.
Qed.

Lemma example_tree_well_formed : well_formed example_tree.
Proof.
  unfold example_tree. constructor.
  - cbn. repeat constructor; cbn; intros H;
      repeat destruct H as [H | H]; try discriminate H; exact H.
  - entries_tac; entry_name_tac.
  - entries_tac; try constructor.
    + cbn. repeat constructor; cbn; intros H;
        repeat destruct H as [H | H]; try discriminate H; exact H.
    + entries_tac; entry_name_tac.
    + entries_tac; constructor.
    + cbn. repeat constructor; cbn; intros H;
        repeat destruct H as [H | H]; try discriminate H; exact H.
    + entries_tac; entry_name_tac.
    + entries_tac; constructor.
Qed.

Lemma no_file_is_listed_twice_witness :
  NoDup ["/in/a.mp4"; "/in/sub/a.mp4"; "/in/sub/B.MKV"].
Proof.
  exact (no_file_is_listed_twice example_tree example_tree_well_formed "/in").
Defined.

Lemma file_under_entry top n root filename :
  file_under top n root filename -> well_formed n -> entry_name filename.
Proof.
  induction 1 as [top name l entries filename Hin
                 | top name l entries sub subentries root filename Hin _ IH];
    intros Hwf.
  - exact (proj1 (well_formed_entry _ _ _ _ Hwf Hin)).
  - exact (IH (proj2 (well_formed_entry _ _ _ _ Hwf Hin))).
Qed.

Lemma under_prefix top : exists r, under top = top ++ r.
Proof.
  unfold under. destruct (match top with [] => true | _ => endswith top _ end).
  - exists []. now rewrite app_nil_r.
  - now exists [posixpath.sep].
Qed.

(** X13.  Every path that [get_all_files] lists starts with the directory
    it was given, as it was written (relative when the directory is), and
    ends with the name of a file that bears one of the extensions. *)
Theorem listed_files_are_below_the_directory tree directory p :
  well_formed tree -> In p (get_all_files tree directory) ->
  startswith p directory = true
  /\ has_video_extension (posixpath.basename p).
Proof.
  intros Hwf Hin. split.
  - destruct (listed_under _ Hwf _ _ Hin) as [rel ->].
    destruct (under_prefix directory) as [r ->].
    apply startswith_iff. exists (r ++ rel). now rewrite app_assoc.
  - unfold get_all_files in Hin. apply in_flat_map in Hin.
    destruct Hin as ([[root dirs] names] & Hwalk & Hin).
    unfold files_in in Hin. apply in_map_iff in Hin.
    destruct Hin as (filename & <- & [Hname Hext]%filter_In).
    assert (Hunder : file_under directory tree root filename)
      by (apply walk_finds; eauto).
    destruct (file_under_entry _ _ _ _ Hunder Hwf) as (_ & Hsep & _).
    rewrite (basename_join _ _ Hsep). now apply endswith_any_lower.
Qed.

Lemma listed_files_are_below_the_directory_witness :
  startswith "videos/in/sub/B.MKV" "videos/in" = true
  /\ has_video_extension (posixpath.basename "videos/in/sub/B.MKV").
Proof.
  apply (listed_files_are_below_the_directory example_tree "videos/in"
           "videos/in/sub/B.MKV" example_tree_well_formed).
  cbn. right. right. now left.
Defined.

(* ================================================================= *)
(** ** From the name of a file to the name of its output *)

Lemma lower_char_dot_sep x :
  (lower_char x = "."%char -> x = "."%char) /\ (lower_char x = "/"%char -> x = "/"%char).
Proof.
  destruct x as [[] [] [] [] [] [] [] []]; cbv; split; intros H;
    try discriminate H; reflexivity.
Qed.

(** A suffix that is, in lower case, one of the extensions: a dot followed
    by characters that are neither dots nor separators. *)
Lemma extension_shape suf :
  In (lower suf) extensions ->
  exists e, suf = posixpath.extsep :: e
            /\ ~ In posixpath.extsep e /\ ~ In posixpath.sep e.
Proof.
  intros Hin.
  assert (H : exists ext, lower suf = "."%char :: ext
                          /\ ~ In "."%char ext /\ ~ In "/"%char ext).
  { unfold extensions in Hin. cbn [In] in Hin.
    repeat destruct Hin as [Hin | Hin]; try contradiction; rewrite <- Hin;
      eexists; (split; [reflexivity |]); split; cbn; intros H;
      repeat destruct H as [H | H]; try discriminate H; exact H. }
  destruct H as (ext & E & Hdot & Hsep).
  destruct suf as [| c e]; [discriminate |]. cbn [lower map] in E.
  injection E as Hc He. exists e.
  apply (proj1 (lower_char_dot_sep c)) in Hc. subst c. split; [reflexivity |].
  split; intros H%(in_map lower_char); rewrite He in H.
  - now apply Hdot.
  - now apply Hsep.
Qed.

Lemma splitext_extension pre e :
  ~ In posixpath.sep pre -> ~ In posixpath.sep e -> ~ In posixpath.extsep e ->
  posixpath.splitext (pre ++ posixpath.extsep :: e) =
  if forallb (fun c => char_eqb c posixpath.extsep) pre
  then (pre ++ posixpath.extsep :: e, [])
  else (pre, posixpath.extsep :: e).
Proof.
  intros Hpre He Hdot. unfold posixpath.splitext.
  rewrite (after_last_notin posixpath.sep).
  2: { intros [H | [[=] | H]]%in_app_or; auto. }
  rewrite (after_last_app_cons _ _ _ Hdot).
  replace (S (length pre) - 1 - 0) with (length pre) by lia.
  replace (S (length pre) - 1) with (length pre) by lia.
  cbn [skipn Nat.ltb Nat.leb andb]. rewrite firstn_at, skipn_at.
  assert (E : existsb (fun c => negb (char_eqb c posixpath.extsep)) pre =
              negb (forallb (fun c => char_eqb c posixpath.extsep) pre)).
  { clear. induction pre as [| c pre IH]; [reflexivity |]. cbn. rewrite IH.
    now destruct (char_eqb c posixpath.extsep). }
  rewrite E. now destruct (forallb _ pre).
Qed.

(** X14.  For a file [root/filename] whose name is [pre] followed by one of
    the recognised extensions in any case, as [get_all_files] lists them,
    the output is named [pre_s.mp4]: the recognised extension is the part
    that is replaced.  The exception is a name with nothing but dots before
    the extension (the file [.mp4]): [splitext] sees no extension there and
    the whole name is kept before [_s.mp4]. *)
Theorem recognised_extension_is_replaced w output_dir root pre suf :
  entry_name (pre ++ suf) -> In (lower suf) extensions ->
  snd (paths_of w output_dir (posixpath.join root (pre ++ suf))) =
  posixpath.join output_dir
    (if forallb (fun c => char_eqb c ".") pre
     then pre ++ suf ++ "_s.mp4"
     else pre ++ "_s.mp4").
Proof.
  intros Hname Hext.
  rewrite output_file_eq, <- splitext_basename. cbn [paths_of fst].
  rewrite (basename_abspath _ _ _ Hname). f_equal.
  destruct (extension_shape _ Hext) as (e & -> & Hdot & Hsep).
  destruct Hname as (_ & Hnosep & _).
  rewrite splitext_extension; trivial.
  - change posixpath.extsep with "."%char.
    destruct (forallb _ pre); cbn [fst]; [now rewrite <- app_assoc | reflexivity].
  - intros H. apply Hnosep, in_or_app. now left.
Qed.

Lemma recognised_extension_is_replaced_witness :
  snd (paths_of bare_world "/out" (posixpath.join "videos/sub" "clip.final.MKV")) =
  posixpath.join "/out" "clip.final_s.mp4".
Proof.
  refine (recognised_extension_is_replaced bare_world "/out" "videos/sub"
            "clip.final" ".MKV" _ _).
  - entry_name_tac.
  - cbn. do 3 right. now left.
Defined.

(* ----------------------------------------------------------------- *)
(** *** Absolute inputs *)

Lemma normpath_isabs p :
  posixpath.isabs p = true -> posixpath.isabs (posixpath.normpath p) = true.
Proof.
  unfold posixpath.isabs at 1. intros [r ->]%startswith_iff. cbn [app].
  unfold posixpath.normpath.
  change (startswith (posixpath.sep :: r) "/") with true. cbv iota.
  destruct (startswith _ "//" && negb (startswith _ "///")); reflexivity.
Qed.

Lemma join_isabs a b :
  posixpath.isabs a = true -> posixpath.isabs (posixpath.join a b) = true.
Proof.
  unfold posixpath.isabs at 1. intros [r ->]%startswith_iff. cbn [app].
  unfold posixpath.join. destruct (startswith b [posixpath.sep]) eqn:Hb; [exact Hb |].
  now destruct (endswith (posixpath.sep :: r) [posixpath.sep]).
Qed.

(** X15.  The input path of a task is absolute, whatever the path given in
    the list of files, when the current directory is (as the operating
    system gives it): the probes and the encoder get an absolute path. *)
Theorem inputs_are_absolute w output_dir file :
  posixpath.isabs (getcwd w) = true ->
  posixpath.isabs (fst (paths_of w output_dir file)) = true.
Proof.
  intros Hcwd. cbn [paths_of fst]. unfold posixpath.abspath. apply normpath_isabs.
  destruct (posixpath.isabs file) eqn:Hfile; [exact Hfile | now apply join_isabs].
Qed.

Lemma inputs_are_absolute_witness :
  posixpath.isabs (fst (paths_of bare_world "out" "videos/../clip.mkv")) = true.
Proof. exact (inputs_are_absolute bare_world "out" "videos/../clip.mkv" eq_refl). Defined.

(* ----------------------------------------------------------------- *)
(** *** Outputs are video files *)

Lemma output_name w output_dir file :
  posixpath.basename (snd (paths_of w output_dir file)) =
  posixpath.basename (fst (posixpath.splitext (fst (paths_of w output_dir file))))
  ++ "_s.mp4".
Proof. rewrite output_file_eq. apply basename_join, output_name_no_sep. Qed.

(** X16.  The name of every output file ends with [.mp4], which is one of
    the extensions that [get_all_files] looks for: wherever the walk meets
    a file that bears the name of an output, it lists it, so that a run
    over a directory that holds earlier outputs converts them again. *)
Theorem outputs_are_listed_again w output_dir file tree directory root :
  endswith_any (lower (posixpath.basename (snd (paths_of w output_dir file))))
    extensions = true
  /\ (file_under directory tree root
        (posixpath.basename (snd (paths_of w output_dir file))) ->
      In (posixpath.join root (posixpath.basename (snd (paths_of w output_dir file))))
         (get_all_files tree directory)).
Proof.
  assert (Hext : endswith_any
                   (lower (posixpath.basename (snd (paths_of w output_dir file))))
                   extensions = true).
  { rewrite output_name. unfold lower. rewrite map_app.
    cbn [endswith_any extensions existsb]. apply orb_true_iff. left.
    apply endswith_iff.
    exists (map lower_char
              (posixpath.basename
                 (fst (posixpath.splitext (fst (paths_of w output_dir file))))) ++ "_s").
    now rewrite <- app_assoc. }
  split; [exact Hext |].
  intros (dirs & names & Hwalk & Hname)%walk_finds.
  unfold get_all_files. apply in_flat_map. exists (root, dirs, names).
  split; [exact Hwalk |]. unfold files_in. apply in_map, filter_In. now split.
Qed.

Lemma outputs_are_listed_again_witness :
  In "/out/a_s.mp4"
     (get_all_files (os.Dir "out" false [os.File "a_s.mp4"]) "/out").
Proof.
  refine (proj2 (outputs_are_listed_again bare_world "/out" "/in/a.mp4"
                   (os.Dir "out" false [os.File "a_s.mp4"]) "/out" "/out") _).
  apply file_here. now left.
Defined.

(* ================================================================= *)
(** ** [normpath] twice *)

Lemma str_eqb_false a b : str_eqb a b = false -> a <> b.
Proof. intros H ->. unfold str_eqb in H. now destruct (list_eq_dec ascii_dec b b). Qed.

Lemma split_no_sep sep s : Forall (fun c => ~ In sep c) (split sep s).
Proof.
  induction s as [| c s IH]; cbn [split]; [repeat constructor; intros [] |].
  destruct (char_eqb c sep) eqn:E.
  - constructor; [intros [] | exact IH].
  - apply char_eqb_neq in E. destruct (split sep s) as [| x xs].
    + repeat constructor. intros [-> | []]. now apply E.
    + inv IH. constructor; trivial. intros [-> | Hin]; [now apply E | auto].
Qed.

(** The loop of [normpath] keeps the stack normal. *)
Lemma norm_comps_stack i comps :
  Forall (fun c => ~ In posixpath.sep c) comps ->
  forall acc, normal_stack i acc -> normal_stack i (posixpath.norm_comps i comps acc).
Proof.
  induction 1 as [| comp comps Hsep _ IH]; intros acc Hacc; [exact Hacc |].
  cbn [posixpath.norm_comps].
  destruct (str_eqb comp "") eqn:E1; [now apply IH |].
  destruct (str_eqb comp ".") eqn:E2; [now apply IH |].
  cbn [orb]. apply str_eqb_false in E1, E2.
  destruct Hacc as (names & k & -> & Hnames & Hk).
  destruct (str_eqb comp "..") eqn:E3; cbn [negb orb].
  2: { apply IH. exists (comp :: names), k. split; [reflexivity |].
       split; [| exact Hk]. constructor; trivial.
       apply str_eqb_false in E3. repeat split; trivial. }
  apply str_eqb_eq in E3. subst comp.
  destruct names as [| name names]; cbn [app].
  - destruct k as [| k]; cbn [repeat].
    + destruct i as [| i]; cbn [Nat.eqb andb orb]; apply IH.
      * exists [], 1. repeat split; trivial. intros H. now contradiction H.
      * exists [], 0. repeat split; trivial.
    + replace (str_eqb ".." "..") with true by (symmetry; now apply str_eqb_eq).
      rewrite orb_true_r. apply IH.
      exists [], (S (S k)). repeat split; trivial.
      intros H. specialize (Hk H). discriminate.
  - inv Hnames.
    match goal with H : entry_name name |- _ => destruct H as (_ & _ & _ & Hdd) end.
    rewrite (str_eqb_neq _ _ Hdd), andb_false_r. cbn [orb]. apply IH.
    exists names, k. repeat split; trivial.
Qed.

Lemma norm_comps_dotdots i k rest : forall j,
  (k <> 0 -> i = 0) ->
  posixpath.norm_comps i (repeat ".." k ++ rest) (repeat ".." j) =
  posixpath.norm_comps i rest (repeat ".." (k + j)).
Proof.
  induction k as [| k IH]; intros j Hi; [reflexivity |].
  assert (i = 0) by (apply Hi; discriminate). subst i.
  rewrite Nat.add_succ_comm, <- (IH (S j)) by reflexivity.
  cbn [repeat app posixpath.norm_comps].
  change (str_eqb ".." "" || str_eqb ".." ".") with false. cbv iota.
  change (negb (str_eqb ".." "..")) with false. cbn [orb Nat.eqb andb].
  now destruct j.
Qed.

Lemma norm_comps_names i names : forall acc,
  Forall entry_name names ->
  posixpath.norm_comps i names acc = rev names ++ acc.
Proof.
  induction names as [| name names IH]; intros acc Hnames; [reflexivity |].
  inv Hnames. cbn [posixpath.norm_comps rev].
  match goal with H : entry_name name |- _ => destruct H as (Hn1 & _ & Hn2 & Hn3) end.
  rewrite (str_eqb_neq _ _ Hn1), (str_eqb_neq _ _ Hn2), (str_eqb_neq _ _ Hn3).
  cbn [orb negb]. rewrite IH by assumption. now rewrite <- app_assoc.
Qed.

(** A normal stack is what the loop makes of its own components. *)
Lemma norm_comps_fixed i acc :
  normal_stack i acc -> posixpath.norm_comps i (rev acc) [] = acc.
Proof.
  intros (names & k & -> & Hnames & Hk).
  rewrite rev_app_distr, rev_repeat.
  transitivity (posixpath.norm_comps i (rev names) (repeat ".." (k + 0))).
  - apply (norm_comps_dotdots i k (rev names) 0).
    intros Hk0. destruct i; [reflexivity |]. exfalso. apply Hk0, Hk. discriminate.
  - rewrite norm_comps_names by now apply Forall_rev.
    now rewrite rev_involutive, Nat.add_0_r.
Qed.

Lemma norm_comps_blanks i k comps acc :
  posixpath.norm_comps i (repeat "" k ++ comps) acc = posixpath.norm_comps i comps acc.
Proof. induction k as [| k IH]; [reflexivity | exact IH]. Qed.

Lemma split_seps k s :
  split posixpath.sep (repeat posixpath.sep k ++ s) = repeat "" k ++ split posixpath.sep s.
Proof. induction k as [| k IH]; [reflexivity |]. cbn. now rewrite IH. Qed.

Lemma split_join cs :
  cs <> [] -> Forall (fun c => ~ In posixpath.sep c) cs ->
  split posixpath.sep (Py.join [posixpath.sep] cs) = cs.
Proof.
  induction cs as [| c cs IH]; intros Hne Hall; [contradiction |].
  inv Hall. destruct cs as [| c' cs].
  - now apply split_notin.
  - cbn [Py.join app]. rewrite split_app_sep by assumption.
    f_equal. apply IH; [discriminate | assumption].
Qed.

(** The components of a normal stack, first component first, hold no
    separator, and the first of them starts with another character. *)
Lemma normal_stack_comps i acc :
  normal_stack i acc ->
  Forall (fun c => ~ In posixpath.sep c) (rev acc)
  /\ match Py.join [posixpath.sep] (rev acc) with
     | x :: _ => char_eqb x posixpath.sep = false
     | [] => acc = []
     end.
Proof.
  intros Hacc.
  assert (Hall : Forall (fun c => c <> [] /\ ~ In posixpath.sep c) (rev acc)).
  { destruct Hacc as (names & k & -> & Hnames & _).
    apply Forall_rev, Forall_app. split.
    - revert Hnames. apply Forall_impl. intros c (H1 & H2 & _). now split.
    - apply Forall_forall. intros c ->%repeat_spec. split; [discriminate |].
      cbn. intros [[=] | [[=] | []]]. }
  split; [revert Hall; apply Forall_impl; tauto |].
  destruct (rev acc) as [| c cs] eqn:E.
  - cbn. apply (f_equal (@rev _)) in E. rewrite rev_involutive in E. exact E.
  - inv Hall. match goal with H : c <> [] /\ _ |- _ => destruct H as [Hne Hsep] end.
    destruct c as [| x c]; [contradiction |].
    assert (Hx : char_eqb x posixpath.sep = false).
    { apply char_eqb_neq. intros ->. apply Hsep. now left. }
    destruct cs; cbn; exact Hx.
Qed.

Lemma normpath_idempotent p :
  posixpath.normpath (posixpath.normpath p) = posixpath.normpath p.
Proof.
  destruct p as [| c p]; [reflexivity |].
  unfold posixpath.normpath at 2 3.
  set (path := c :: p).
  set (i := if startswith path "/" then _ else 0).
  assert (Hi : i = 0 \/ i = 1 \/ i = 2).
  { subst i. destruct (startswith path "/"); [| now left].
    destruct (_ && _); auto. }
  assert (Hstack : normal_stack i (posixpath.norm_comps i (split posixpath.sep path) [])).
  { apply norm_comps_stack; [apply split_no_sep |].
    exists [], 0. repeat split; trivial. }
  set (acc := posixpath.norm_comps i (split posixpath.sep path) []) in *.
  destruct (normal_stack_comps _ _ Hstack) as [Hsep Hfirst].
  pose proof (norm_comps_fixed _ _ Hstack) as Hfixed.
  set (body := Py.join [posixpath.sep] (rev acc)) in *.
  destruct (repeat posixpath.sep i ++ body) as [| x out] eqn:Hout; [reflexivity |].
  assert (Hne : repeat posixpath.sep i ++ body <> []) by (rewrite Hout; discriminate).
  rewrite <- Hout. clear x out Hout.
  assert (Hsplit : posixpath.norm_comps i
                     (split posixpath.sep (repeat posixpath.sep i ++ body)) [] = acc).
  { rewrite split_seps, norm_comps_blanks. subst body.
    destruct (rev acc) as [| c0 cs] eqn:E.
    - apply (f_equal (@rev _)) in E. rewrite rev_involutive in E.
      rewrite E. reflexivity.
    - rewrite split_join; [exact Hfixed | discriminate | exact Hsep]. }
  assert (Hslashes :
            (if startswith (repeat posixpath.sep i ++ body) "/"
             then if startswith (repeat posixpath.sep i ++ body) "//"
                     && negb (startswith (repeat posixpath.sep i ++ body) "///")
                  then 2 else 1
             else 0) = i).
  { change posixpath.sep with "/"%char in Hfirst.
    destruct Hi as [-> | [-> | ->]]; cbn [repeat app];
      destruct body as [| x body']; cbn [startswith andb negb];
      rewrite ?Hfirst, ?char_eqb_refl; reflexivity. }
  unfold posixpath.normpath.
  destruct (repeat posixpath.sep i ++ body) as [| x out] eqn:Hout; [contradiction |].
  rewrite <- Hout in *. rewrite Hslashes, Hsplit. fold body.
  now rewrite Hout.
Qed.

Lemma abspath_idempotent cwd path :
  posixpath.isabs cwd = true ->
  posixpath.abspath cwd (posixpath.abspath cwd path) = posixpath.abspath cwd path.
Proof.
  intros Hcwd.
  assert (Habs : posixpath.isabs (posixpath.abspath cwd path) = true).
  { unfold posixpath.abspath. apply normpath_isabs.
    destruct (posixpath.isabs path) eqn:Hpath; [exact Hpath | now apply join_isabs]. }
  unfold posixpath.abspath at 1. rewrite Habs. unfold posixpath.abspath.
  apply normpath_idempotent.
Qed.

(** X17.  Making a path absolute a second time changes nothing, so that a
    task does not depend on how the path of its file is written: the file
    given by its absolute path and the file given by any path that leads to
    it from the current directory (relative, or with [.], [..] or doubled
    separators in it) get the same task, with the same input and output
    paths. *)
Theorem task_does_not_depend_on_how_the_path_is_written w pbar output_dir use_gpu file :
  posixpath.isabs (getcwd w) = true ->
  paths_of w output_dir (posixpath.abspath (getcwd w) file) = paths_of w output_dir file
  /\ submit w pbar output_dir use_gpu (posixpath.abspath (getcwd w) file) =
     submit w pbar output_dir use_gpu file.
Proof.
  intros Hcwd.
  assert (Hpaths : paths_of w output_dir (posixpath.abspath (getcwd w) file) =
                   paths_of w output_dir file).
  { unfold paths_of. now rewrite (abspath_idempotent _ _ Hcwd). }
  split; [exact Hpaths |]. unfold submit. now rewrite Hpaths.
Qed.

Lemma task_does_not_depend_on_how_the_path_is_written_witness :
  paths_of bare_world "/out" "/home/user/clip.mkv" =
  paths_of bare_world "/out" "videos/.././/clip.mkv".
Proof.
  exact (proj1 (task_does_not_depend_on_how_the_path_is_written
                  bare_world (batch_bar []) "/out" false "videos/.././/clip.mkv" eq_refl)).
Defined.

(* ================================================================= *)
(** ** The runs of a batch, continued *)

(* ----------------------------------------------------------------- *)
(** *** The programs that a batch runs *)

Lemma bar_events_no_program b evs :
  Forall (bar_event b) evs ->
  forall cmd, ~ In (EvPopen cmd) evs /\ ~ In (EvRun cmd) evs.
Proof.
  intros Hall cmd. rewrite Forall_forall in Hall.
  split; intros Hin; exact (Hall _ Hin).
Qed.

Lemma convert_programs w cmd desc input pbar c :
  (In (EvPopen c) (events (convert w cmd desc input pbar)) -> c = cmd)
  /\ (In (EvRun c) (events (convert w cmd desc input pbar)) -> c = duration_cmd input).
Proof.
  rewrite convert_cases.
  destruct (subprocess_Popen w cmd) as [[text status] |].
  2: { cbn. split; [now intros [[= <-] | []] | now intros [[=] | []]]. }
  destruct (result (get_video_duration w input)) as [tot | e].
  2: { cbn. split; [now intros [[= <-] | [[=] | []]] | now intros [[=] | [[= <-] | []]]]. }
  cbv zeta.
  pose proof (read_progress_events (readlines (universal_newlines (fst (text, status))))
                {| bar_of := FileBar input; total := tot; n := of_Z 0 |}) as Hbar.
  destruct (bar_events_no_program _ _ Hbar c) as [HnoP HnoR].
  assert (Htail : forall ev, In ev (EvBarClose (FileBar input) :: EvCommunicate cmd status ::
                    (if truthy pbar
                     then match pbar with
                          | Some pb => [EvBarUpdate (bar_of pb) (of_Z 1)]
                          | None => []
                          end
                     else [])) ->
                  ev <> EvPopen c /\ ev <> EvRun c).
  { intros ev [<- | [<- | Hin]]; [split; discriminate | split; discriminate |].
    destruct (truthy pbar); [destruct pbar |]; cbn in Hin;
      repeat destruct Hin as [<- | Hin]; try contradiction; split; discriminate. }
  destruct (result (read_progress _ _)) as [p | e]; cbn [events result fst snd].
  - split.
    + intros [[= <-] | [[=] | [[=] | Hin]]]; trivial.
      apply in_app_or in Hin. destruct Hin as [Hin | Hin]; [contradiction |].
      now destruct (Htail _ Hin).
    + intros [[=] | [[= <-] | [[=] | Hin]]]; trivial.
      apply in_app_or in Hin. destruct Hin as [Hin | Hin]; [contradiction |].
      now destruct (Htail _ Hin).
  - split.
    + intros [[= <-] | [[=] | [[=] | Hin]]]; trivial. contradiction.
    + intros [[=] | [[= <-] | [[=] | Hin]]]; trivial. contradiction.
Qed.

Lemma task_programs w input output use_gpu pbar c :
  (In (EvPopen c) (events (copy_or_compress_video w input output use_gpu pbar)) ->
   c = copy_cmd input output \/ c = compress_cmd input output use_gpu)
  /\ (In (EvRun c) (events (copy_or_compress_video w input output use_gpu pbar)) ->
      c = bitrate_cmd input \/ c = duration_cmd input).
Proof.
  rewrite task_cases.
  destruct (result (get_video_bitrate w input)) as [bitrate | e].
  2: { cbn. split; [now intros [[=] | []] | intros [[= <-] | []]; now left]. }
  destruct (fle bitrate (of_Z 1000)); cbn [events fst].
  - rewrite copy_video_convert.
    destruct (convert_programs w (copy_cmd input output)
                ("Copying and converting to MP4 " ++ posixpath.basename input)
                input pbar c) as [HP HR].
    split.
    + intros [[=] | [[=] | Hin]]. left. now apply HP.
    + intros [[= <-] | [[=] | Hin]]; [now left |]. right. now apply HR.
  - rewrite compress_video_convert.
    destruct (convert_programs w (compress_cmd input output use_gpu)
                ("Compressing " ++ posixpath.basename input) input pbar c) as [HP HR].
    split.
    + intros [[=] | Hin]. right. now apply HP.
    + intros [[= <-] | Hin]; [now left |]. right. now apply HR.
Qed.

(** An event of a run that is not about the batch bar and is not a print
    is an event of the task of one of the files. *)
Lemma run_event_of_task w files output_dir use_gpu tr ev :
  process_videos w files output_dir use_gpu tr -> In ev tr ->
  match ev with EvPopen _ | EvRun _ => True | _ => False end ->
  exists file, In file files
    /\ In ev (events (submit w (batch_bar files) output_dir use_gpu file)).
Proof.
  intros Hrun Hin Hev. apply process_videos_Permutation in Hrun.
  apply (Permutation_in _ Hrun) in Hin.
  destruct Hin as [<- | [<- | Hin]]; try contradiction.
  apply in_concat in Hin. destruct Hin as (l & Hl & Hin).
  unfold futures in Hl. rewrite map_map in Hl. apply in_map_iff in Hl.
  destruct Hl as (file & <- & Hfile). exists file. split; trivial.
  unfold future_events in Hin. apply in_app_or in Hin.
  destruct Hin as [Hin | Hin]; trivial.
  destruct (result _); cbn in Hin; [contradiction |].
  destruct Hin as [<- | []]. contradiction.
Qed.

Lemma every_file_is_probed w files output_dir use_gpu tr :
  process_videos w files output_dir use_gpu tr ->
  forall file, In file files ->
    In (EvRun (bitrate_cmd (fst (paths_of w output_dir file)))) tr.
Proof.
  intros Hrun file Hfile. apply process_videos_Permutation in Hrun.
  apply (Permutation_in _ (Permutation_sym Hrun)). do 2 right.
  apply in_concat. exists (future_events (submit w (batch_bar files) output_dir use_gpu file)).
  split; [unfold futures; now apply in_map, in_map |].
  unfold future_events. apply in_or_app. left. unfold submit.
  destruct (paths_of w output_dir file) as [input output]. cbn [fst].
  rewrite task_cases.
  destruct (result (get_video_bitrate w input)); [destruct (fle _ _) |]; now left.
Qed.

(** X18.  Whatever the schedule, a batch starts no program but those of its
    files: every encoder it starts is the copy or the compression of one of
    the files, from its absolute path to its output path and with the
    encoder chosen by [use_gpu]; every other program it runs is the bitrate
    probe or the duration probe of one of the files.  And no file is left
    out: the bitrate of every file is probed in every run. *)
Theorem batch_runs_only_the_programs_of_its_files w files output_dir use_gpu tr :
  process_videos w files output_dir use_gpu tr ->
  (forall cmd, In (EvPopen cmd) tr ->
     exists file, In file files
       /\ (cmd = copy_cmd (fst (paths_of w output_dir file))
                   (snd (paths_of w output_dir file))
           \/ cmd = compress_cmd (fst (paths_of w output_dir file))
                      (snd (paths_of w output_dir file)) use_gpu))
  /\ (forall cmd, In (EvRun cmd) tr ->
        exists file, In file files
          /\ (cmd = bitrate_cmd (fst (paths_of w output_dir file))
              \/ cmd = duration_cmd (fst (paths_of w output_dir file))))
  /\ (forall file, In file files ->
        In (EvRun (bitrate_cmd (fst (paths_of w output_dir file)))) tr).
Proof.
  intros Hrun. split; [| split]; [| | apply (every_file_is_probed _ _ _ _ _ Hrun)];
    intros cmd Hin;
    destruct (run_event_of_task _ _ _ _ _ _ Hrun Hin I) as (file & Hfile & Hev);
    exists file; (split; [exact Hfile |]);
    unfold submit in Hev; destruct (paths_of w output_dir file) as [input output];
    cbn [fst snd];
    now apply (task_programs w input output use_gpu (Some (batch_bar files)) cmd).
Qed.

Lemma batch_runs_only_the_programs_of_its_files_witness :
  exists file, In file ["a.mp4"; "b.avi"]
    /\ (copy_cmd "/home/user/a.mp4" "/out/a_s.mp4" =
        copy_cmd (fst (paths_of picky_world "/out" file))
          (snd (paths_of picky_world "/out" file))
        \/ copy_cmd "/home/user/a.mp4" "/out/a_s.mp4" =
           compress_cmd (fst (paths_of picky_world "/out" file))
             (snd (paths_of picky_world "/out" file)) true).
Proof.
  apply (proj1 (batch_runs_only_the_programs_of_its_files
                  picky_world ["a.mp4"; "b.avi"] "/out" true _
                  (process_videos_serial_run _ _ _ _))
               (copy_cmd "/home/user/a.mp4" "/out/a_s.mp4")).
  vm_compute. do 3 right. left. reflexivity.
Defined.

(* ----------------------------------------------------------------- *)
(** *** The batch bar, step by step *)

Lemma process_videos_batch_updates w files output_dir use_gpu tr :
  process_videos w files output_dir use_gpu tr ->
  batch_updates tr = repeat (of_Z 1) (returned (futures w files output_dir use_gpu)).
Proof.
  intros Hrun. apply Permutation_repeat.
  apply process_videos_Permutation in Hrun.
  unfold batch_updates at 1. rewrite Hrun. cbn [flat_map app].
  fold (batch_updates (concat (map future_events (futures w files output_dir use_gpu)))).
  rewrite batch_updates_concat.
  destruct files as [| file files'] eqn:Hfiles; [reflexivity |].
  rewrite <- Hfiles in *.
  assert (Hne : files <> []) by now rewrite Hfiles.
  destruct (submitted_show w (batch_bar files) output_dir use_gpu eq_refl
              (batch_bar_truthy files Hne) files) as (H1 & _).
  unfold futures. now rewrite H1.
Qed.

Lemma positions_of_ones tr : forall z k,
  batch_updates tr = repeat (of_Z 1) k ->
  positions BatchBar (of_Z z) tr = map (fun i => of_Z (z + Z.of_nat i)) (seq 1 k).
Proof.
  induction tr as [| ev tr IH]; intros z k Hupd.
  - destruct k; [reflexivity | discriminate].
  - destruct ev as [| | | | [f |] d | | |]; cbn [positions bar_eqb];
      try (apply IH; exact Hupd).
    destruct k as [| k]; [discriminate |].
    cbn in Hupd. injection Hupd as -> Hupd.
    rewrite of_Z_add. cbn [seq map]. f_equal.
    rewrite (IH _ _ Hupd), <- (seq_shift k 1), map_map.
    apply map_ext. intros i. f_equal. lia.
Qed.

(** X19.  Whatever the schedule, the batch bar counts up by one: in every
    run it shows 1, 2, ... up to the number of tasks that returned, which is
    at most its total, the number of files. *)
Theorem batch_bar_counts_up w files output_dir use_gpu tr :
  process_videos w files output_dir use_gpu tr ->
  positions BatchBar (of_Z 0) tr =
  map (fun k => of_Z (Z.of_nat k))
      (seq 1 (returned (futures w files output_dir use_gpu)))
  /\ returned (futures w files output_dir use_gpu) <= length files.
Proof.
  intros Hrun. split.
  - apply (positions_of_ones tr 0). now apply process_videos_batch_updates.
  - unfold returned, futures.
    rewrite <- (length_map (submit w (batch_bar files) output_dir use_gpu) files).
    apply filter_length_le.
Qed.

Lemma batch_bar_counts_up_witness :
  positions BatchBar (of_Z 0)
    (process_videos_serial picky_world ["a.mp4"; "b.avi"; "c.mkv"] "/out" false)
  = [of_Z 1; of_Z 2].
Proof.
  exact (proj1 (batch_bar_counts_up picky_world ["a.mp4"; "b.avi"; "c.mkv"] "/out" false
                  _ (process_videos_serial_run _ _ _ _))).
Defined.

(* ----------------------------------------------------------------- *)
(** *** The bars of the files *)

Lemma positions_moves b tr : forall acc,
  positions b acc tr = positions b acc (map (EvBarUpdate b) (moves b tr)).
Proof.
  induction tr as [| ev tr IH]; intros acc; [reflexivity |].
  destruct ev as [| | | | b' d | | |]; cbn [positions moves flat_map app]; try apply IH.
  fold (moves b tr). destruct (bar_eqb b b') eqn:E; cbn [app map positions].
  - now rewrite bar_eqb_refl, <- IH.
  - apply IH.
Qed.

Lemma moves_app b tr1 tr2 : moves b (tr1 ++ tr2) = moves b tr1 ++ moves b tr2.
Proof. apply flat_map_app. Qed.

Lemma interleave_prepend A (l1 : list (list A)) p t l2 tr :
  interleave (l1 ++ t :: l2) tr -> interleave (l1 ++ (p ++ t) :: l2) (p ++ tr).
Proof.
  intros H. induction p as [| x p IH]; [exact H |].
  cbn [app]. now apply interleave_step.
Qed.

(** The part of a run that a projection keeps is a run of the parts. *)
Lemma interleave_flat_map A B (f : A -> list B) ls tr :
  interleave ls tr -> interleave (map (flat_map f) ls) (flat_map f tr).
Proof.
  induction 1 as [ls Hnil | l1 x t l2 tr _ IH].
  - constructor. apply Forall_map. revert Hnil. apply Forall_impl. now intros l ->.
  - rewrite map_app in *. cbn [map flat_map] in *. now apply interleave_prepend.
Qed.

Lemma in_order_length A (l tr : list A) : in_order l tr -> length l <= length tr.
Proof. induction 1; cbn; lia. Qed.

Lemma in_order_all A (l tr : list A) :
  in_order l tr -> length tr <= length l -> tr = l.
Proof.
  induction 1 as [tr | x l tr _ IH | x l tr H _]; cbn; intros Hlen.
  - destruct tr; [reflexivity | cbn in Hlen; lia].
  - f_equal. apply IH. lia.
  - apply in_order_length in H. lia.
Qed.

(** When all the sequences but one are empty, the only run is that one. *)
Lemma interleave_single A (l1 : list (list A)) l l2 tr :
  Forall (fun x => x = []) l1 -> Forall (fun x => x = []) l2 ->
  interleave (l1 ++ l :: l2) tr -> tr = l.
Proof.
  intros H1 H2 Hrun. apply in_order_all.
  - apply (interleave_in_order _ _ _ Hrun), in_elt.
  - apply interleave_Permutation, Permutation_length in Hrun.
    rewrite Hrun, concat_app. cbn [concat].
    rewrite (concat_all_nil _ _ H1), (concat_all_nil _ _ H2), app_nil_r. cbn. lia.
Qed.

Lemma bar_events_moves f evs b :
  Forall (bar_event (FileBar f)) evs -> bar_eqb b (FileBar f) = false -> moves b evs = [].
Proof.
  intros Hall Hb. induction Hall as [| ev evs Hev _ IH]; [reflexivity |].
  cbn [moves flat_map]. fold (moves b evs). rewrite IH, app_nil_r.
  destruct ev as [| | | | b' d | b' d | |]; cbn in Hev; try contradiction; trivial.
  subst b'. now rewrite Hb.
Qed.

Lemma interleave_moves b ls tr :
  interleave ls tr -> interleave (map (moves b) ls) (moves b tr).
Proof. apply interleave_flat_map. Qed.

(** A conversion moves no bar of another file. *)
Lemma convert_moves_other w cmd desc input pb other :
  bar_of pb = BatchBar -> other <> input ->
  moves (FileBar other) (events (convert w cmd desc input (Some pb))) = [].
Proof.
  intros Hpb Hother.
  assert (Hb : bar_eqb (FileBar other) (FileBar input) = false)
    by now apply str_eqb_neq.
  rewrite convert_cases.
  destruct (subprocess_Popen w cmd) as [pr |]; [| reflexivity].
  destruct (result (get_video_duration w input)) as [tot | e]; [| reflexivity].
  cbv zeta.
  pose proof (read_progress_events (readlines (universal_newlines (fst pr)))
                {| bar_of := FileBar input; total := tot; n := of_Z 0 |}) as Hbar.
  cbn [bar_of] in Hbar. apply (bar_events_moves _ _ (FileBar other)) in Hbar; trivial.
  destruct (result (read_progress _ _)) as [p | e]; cbn [events fst].
  - rewrite Hpb. change (?a :: ?b :: ?c :: ?l ++ ?r) with ([a; b; c] ++ l ++ r).
    rewrite !moves_app, Hbar. now destruct (truthy (Some pb)).
  - change (?a :: ?b :: ?c :: ?l) with ([a; b; c] ++ l).
    now rewrite moves_app, Hbar.
Qed.

Lemma future_moves_other w pb output_dir use_gpu file other :
  bar_of pb = BatchBar -> other <> posixpath.abspath (getcwd w) file ->
  moves (FileBar other) (future_events (submit w pb output_dir use_gpu file)) = [].
Proof.
  intros Hpb Hother. unfold future_events. rewrite moves_app.
  assert (Hreport : moves (FileBar other)
                      match result (submit w pb output_dir use_gpu file) with
                      | Return _ => []
                      | Raise e => [EvPrint (ErrorProcessing e)]
                      end = []) by now destruct (result _).
  rewrite Hreport, app_nil_r. unfold submit, paths_of.
  set (input := posixpath.abspath (getcwd w) file) in *.
  set (output := posixpath.join _ _).
  rewrite task_cases.
  destruct (result (get_video_bitrate w input)) as [bitrate | e]; [| reflexivity].
  destruct (fle bitrate (of_Z 1000)); cbn [events fst].
  - rewrite copy_video_convert. change (?a :: ?b :: ?l) with ([a; b] ++ l).
    rewrite moves_app. now rewrite convert_moves_other.
  - rewrite compress_video_convert. change (?a :: ?l) with ([a] ++ l).
    rewrite moves_app. now rewrite convert_moves_other.
Qed.

(** X20.  In a batch whose files have different absolute paths, the tasks
    do not disturb each other's bars: in every run, however the tasks are
    interleaved, the bar of a file shows the positions that it shows when
    the task of the file runs alone. *)
Theorem file_bars_do_not_interfere w files output_dir use_gpu tr file :
  process_videos w files output_dir use_gpu tr ->
  NoDup (map (posixpath.abspath (getcwd w)) files) ->
  In file files ->
  positions (FileBar (posixpath.abspath (getcwd w) file)) (of_Z 0) tr =
  positions (FileBar (posixpath.abspath (getcwd w) file)) (of_Z 0)
    (events (submit w (batch_bar files) output_dir use_gpu file)).
Proof.
  intros (body & Hbody & ->) Hnodup Hin.
  set (b := FileBar (posixpath.abspath (getcwd w) file)).
  rewrite positions_moves, (positions_moves b (events _)). do 2 f_equal.
  change (?a :: ?l ++ ?r) with ([a] ++ l ++ r). rewrite !moves_app.
  change (moves b [EvBarNew ?x ?y ?z]) with (@nil pyfloat).
  change (moves b [EvBarClose ?x]) with (@nil pyfloat).
  rewrite app_nil_r. cbn [app].
  apply (interleave_moves b) in Hbody.
  destruct (in_split _ _ Hin) as (l1 & l2 & Hfiles).
  unfold futures in Hbody. rewrite Hfiles in Hbody at 2.
  rewrite !map_app in Hbody. cbn [map] in Hbody.
  rewrite Hfiles, map_app in Hnodup. cbn [map] in Hnodup.
  apply NoDup_remove_2 in Hnodup.
  assert (Hquiet : forall l, (forall f, In f l -> In (posixpath.abspath (getcwd w) f)
                                (map (posixpath.abspath (getcwd w)) l1 ++
                                 map (posixpath.abspath (getcwd w)) l2)) ->
            Forall (fun x => x = [])
              (map (moves b)
                 (map future_events
                    (map (submit w (batch_bar files) output_dir use_gpu) l)))).
  { intros l Hl. rewrite !Forall_map. apply Forall_forall. intros f Hf.
    apply future_moves_other; [reflexivity |].
    intros E. apply Hnodup. rewrite E. now apply Hl. }
  apply interleave_single in Hbody.
  - rewrite Hbody. unfold future_events. rewrite moves_app.
    destruct (result _); cbn; now rewrite app_nil_r.
  - apply Hquiet. intros f Hf. apply in_or_app. left. now apply in_map.
  - apply Hquiet. intros f Hf. apply in_or_app. right. now apply in_map.
Qed.

Lemma file_bars_do_not_interfere_witness :
  positions (FileBar "/home/user/a.mp4") (of_Z 0)
    (process_videos_serial
       (uniform_world "12.5" "500000"
          ("frame=1 time=00:00:05.00 x" ++ [CR] ++ "frame=2 time=00:00:03.00 x" ++ [CR])
          0 0)
       ["a.mp4"; "b.avi"] "/out" false)
  = [of_Z 5; of_Z 3].
Proof.
  refine (file_bars_do_not_interfere
            (uniform_world "12.5" "500000"
               ("frame=1 time=00:00:05.00 x" ++ [CR] ++
                "frame=2 time=00:00:03.00 x" ++ [CR]) 0 0)
            ["a.mp4"; "b.avi"] "/out" false _ "a.mp4"
            (process_videos_serial_run _ _ _ _) _ _).
  - vm_compute. repeat constructor; cbn; intros H;
      repeat destruct H as [H | H]; try discriminate H; exact H.
  - now left.
Defined.
